(** * Verification of the Google Meet subtitle processor

    A shallow embedding of [src/subtitle_processor.py] (class
    [SubtitleProcessor]) and of the parts of Python's [difflib] and [str]
    that it calls, followed by the theorems that settle the claims made
    about it.

    Conventions.
    - A Python [str] is a sequence of Unicode code points: [str := list N].
    - Indices and lengths are [nat]; where Python computes [i - k + 1] and
      [j - k + 1] on integers the model writes [i + 1 - k] and [j + 1 - k]
      ([k] never exceeds [i + 1] or [j + 1], see [flm_inner_bounds] and
      [flm_inner_bounds_b]).
    - [time.time()] returns a float; timestamps are modelled as exact
      rationals [Q] read from a clock oracle, one reading per call. *)

From Stdlib Require Import String Ascii Arith NArith QArith Bool Lia Lqa List Sorted.
Import ListNotations.

Set Implicit Arguments.
Local Open Scope nat_scope.

(** ** Python strings *)

Module Str.

Definition char := N.
Definition str := list char.

(** String literals of the source, as code points. *)
Definition py (s : string) : str :=
  List.map N_of_ascii (list_ascii_of_string s).

Definition eqb (x y : str) : bool :=
  if list_eq_dec N.eq_dec x y then true else false.

(** [bool(s)]: a string is truthy when it is not empty. *)
Definition truthy (s : str) : bool :=
  match s with [] => false | _ :: _ => true end.

(** [str.isspace] on one code point (CPython's [_PyUnicode_IsWhitespace]). *)
Definition isspace (c : char) : bool :=
  ((9 <=? c) && (c <=? 13) || (28 <=? c) && (c <=? 32) ||
   (c =? 133) || (c =? 160) || (c =? 5760) ||
   (8192 <=? c) && (c <=? 8202) ||
   (c =? 8232) || (c =? 8233) || (c =? 8239) || (c =? 8287) ||
   (c =? 12288))%N.

Definition space : char := 32%N.

(** [s.split()] with no argument: the maximal runs of non-whitespace. *)
Fixpoint split (s : str) : list str :=
  match s with
  | [] => []
  | c :: s' =>
      if isspace c then split s'
      else match s' with
           | [] => [[c]]
           | d :: _ =>
               if isspace d then [c] :: split s'
               else match split s' with
                    | w :: ws => (c :: w) :: ws
                    | [] => [[c]]
                    end
           end
  end.

(** [sep.join(ws)]. *)
Fixpoint join (sep : str) (ws : list str) : str :=
  match ws with
  | [] => []
  | w :: ws' =>
      match ws' with
      | [] => w
      | _ :: _ => w ++ sep ++ join sep ws'
      end
  end.

Fixpoint lstrip (s : str) : str :=
  match s with
  | [] => []
  | c :: s' => if isspace c then lstrip s' else s
  end.

Definition rstrip (s : str) : str := rev (lstrip (rev s)).

(** [s.strip()]. *)
Definition strip (s : str) : str := rstrip (lstrip s).

(** [s.startswith(p)]. *)
Fixpoint startswith (p s : str) : bool :=
  match p, s with
  | [], _ => true
  | _ :: _, [] => false
  | x :: p', y :: s' => (x =? y)%N && startswith p' s'
  end.

(** [p in s]: substring test. *)
Fixpoint contains (p s : str) : bool :=
  startswith p s ||
  match s with
  | [] => false
  | _ :: s' => contains p s'
  end.

(** [s[i:j]] for [0 <= i], [0 <= j]. *)
Definition slice {A} (s : list A) (i j : nat) : list A :=
  firstn (j - i) (skipn i s).

End Str.

Import Str.

(** ** [SubtitleProcessor.clean_duplicates] *)

(** The [while i < len(words)] loop, lines 180-191; [fuel] bounds the number
    of iterations, [i] grows at each of them. *)
Fixpoint clean_loop (fuel : nat) (words : list str) (i : nat)
    (cleaned : list str) : list str :=
  match fuel with
  | 0 => cleaned
  | S fuel' =>
      if i <? length words then
        if (i + 3 <=? length words) &&
           contains (join [space] (slice words i (i + 3)))
                    (join [space] (skipn (i + 3) words))
        then clean_loop fuel' words (i + 3) cleaned
        else clean_loop fuel' words (i + 1) (cleaned ++ [nth i words []])
      else cleaned
  end.

Definition clean_duplicates (text : str) : str :=
  let words := split text in
  if length words <=? 3 then text
  else join [space] (clean_loop (length words) words 0 []).

(** The loop of [clean_duplicates] by recursion on the words left. *)
Fixpoint scan (words : list str) : list str :=
  match words with
  | [] => []
  | w1 :: tl =>
      match tl with
      | w2 :: w3 :: rest =>
          if contains (join [space] [w1; w2; w3]) (join [space] rest)
          then scan rest
          else w1 :: scan tl
      | _ => w1 :: scan tl
      end
  end.

(** Some window of three words occurs again in the space-joined words after
    it. *)
Fixpoint window_recurs (words : list str) : bool :=
  match words with
  | [] => false
  | w1 :: tl =>
      match tl with
      | w2 :: w3 :: rest =>
          contains (join [space] [w1; w2; w3]) (join [space] rest) ||
          window_recurs tl
      | _ => false
      end
  end.

(** A word as [split] yields them: not empty, no whitespace. *)
Definition nospace (w : str) : bool := forallb (fun c => negb (isspace c)) w.

Definition tokenb (w : str) : bool := truthy w && nospace w.

(** ** [difflib.SequenceMatcher]

    The source builds [difflib.SequenceMatcher(None, old_text, new_text)]
    and calls [find_longest_match] and [get_opcodes] on it.  The definitions
    below follow CPython's [Lib/difflib.py] statement by statement, for
    [isjunk = None] and the default [autojunk = True]. *)

Module Difflib.

(** A Python [dict] with insertion order, as an association list. *)
Definition dict (K V : Type) := list (K * V).

Fixpoint get {K V} (eqb : K -> K -> bool) (d : dict K V) (k : K) (dflt : V) : V :=
  match d with
  | [] => dflt
  | (k', v) :: d' => if eqb k' k then v else get eqb d' k dflt
  end.

(** [Match = namedtuple('Match', 'a b size')]. *)
Record Match := mkMatch { m_a : nat; m_b : nat; m_size : nat }.

(** [indices = b2j.setdefault(elt, []); indices.append(i)]. *)
Fixpoint setdefault_append (b2j : dict char (list nat)) (elt : char) (i : nat)
    : dict char (list nat) :=
  match b2j with
  | [] => [(elt, [i])]
  | (k, indices) :: b2j' =>
      if (k =? elt)%N then (k, indices ++ [i]) :: b2j'
      else (k, indices) :: setdefault_append b2j' elt i
  end.

(** [for i, elt in enumerate(b)]. *)
Fixpoint chain_loop (b : str) (i : nat) (b2j : dict char (list nat))
    : dict char (list nat) :=
  match b with
  | [] => b2j
  | elt :: b' => chain_loop b' (S i) (setdefault_append b2j elt i)
  end.

Definition mem (c : char) (s : list char) : bool := existsb (N.eqb c) s.

(** The popular elements: [n >= 200] and more than [n // 100 + 1]
    occurrences. *)
Definition popular_of (n : nat) (b2j : dict char (list nat)) : list char :=
  if 200 <=? n then
    let ntest := n / 100 + 1 in
    map fst (filter (fun kv => ntest <? length (snd kv)) b2j)
  else [].

(** [for elt in popular: del b2j[elt]]. *)
Definition del_all (ks : list char) (b2j : dict char (list nat))
    : dict char (list nat) :=
  filter (fun kv => negb (mem (fst kv) ks)) b2j.

Record SequenceMatcher := mkSM {
  sm_a : str;
  sm_b : str;
  b2j : dict char (list nat);
  bjunk : list char;
  bpopular : list char }.

(** [SequenceMatcher(None, a, b)]: [set_seqs] and [__chain_b]; with
    [isjunk = None] the junk set stays empty. *)
Definition new_matcher (a b : str) : SequenceMatcher :=
  let b2j0 := chain_loop b 0 [] in
  let popular := popular_of (length b) b2j0 in
  {| sm_a := a; sm_b := b; b2j := del_all popular b2j0;
     bjunk := []; bpopular := popular |}.

Definition at_ (s : str) (i : nat) : char := nth i s 0%N.

Definition isbjunk (sm : SequenceMatcher) (c : char) : bool := mem c (bjunk sm).

(** [j2lenget(j-1, 0)]: the key [-1] is never present. *)
Definition j2lenget (j2len : dict nat nat) (j : nat) : nat :=
  match j with
  | 0 => 0
  | S j' => get Nat.eqb j2len j' 0
  end.

Definition best_t := (nat * nat * nat)%type.

(** [for j in b2j.get(a[i], nothing)], with its [continue] and [break]. *)
Fixpoint flm_inner (blo bhi i : nat) (j2len : dict nat nat) (js : list nat)
    (newj2len : dict nat nat) (best : best_t) : dict nat nat * best_t :=
  match js with
  | [] => (newj2len, best)
  | j :: js' =>
      if j <? blo then flm_inner blo bhi i j2len js' newj2len best
      else if bhi <=? j then (newj2len, best)
      else
        let k := j2lenget j2len j + 1 in
        let newj2len := (j, k) :: newj2len in
        let '(besti, bestj, bestsize) := best in
        let best := if bestsize <? k then (i + 1 - k, j + 1 - k, k)
                    else (besti, bestj, bestsize) in
        flm_inner blo bhi i j2len js' newj2len best
  end.

(** [for i in range(alo, ahi)]: [n] rows remain, the next one is [i]. *)
Fixpoint flm_rows (sm : SequenceMatcher) (blo bhi : nat) (n i : nat)
    (j2len : dict nat nat) (best : best_t) : best_t :=
  match n with
  | 0 => best
  | S n' =>
      let '(newj2len, best') :=
        flm_inner blo bhi i j2len
          (get N.eqb (b2j sm) (at_ (sm_a sm) i) []) [] best in
      flm_rows sm blo bhi n' (S i) newj2len best'
  end.

(** The two backward [while] loops: [junk] tells which of them. *)
Fixpoint extend_back (sm : SequenceMatcher) (junk : bool) (alo blo : nat)
    (besti bestj bestsize : nat) : best_t :=
  match besti, bestj with
  | S i', S j' =>
      if (alo <? besti) && (blo <? bestj) &&
         Bool.eqb (isbjunk sm (at_ (sm_b sm) j')) junk &&
         (at_ (sm_a sm) i' =? at_ (sm_b sm) j')%N
      then extend_back sm junk alo blo i' j' (S bestsize)
      else (besti, bestj, bestsize)
  | _, _ => (besti, bestj, bestsize)
  end.

(** The two forward [while] loops; each iteration adds one to [bestsize],
    which stays below [ahi - besti], so [ahi - (besti + bestsize)] rounds
    are enough. *)
Fixpoint extend_fwd (fuel : nat) (sm : SequenceMatcher) (junk : bool)
    (ahi bhi : nat) (besti bestj bestsize : nat) : nat :=
  match fuel with
  | 0 => bestsize
  | S fuel' =>
      if (besti + bestsize <? ahi) && (bestj + bestsize <? bhi) &&
         Bool.eqb (isbjunk sm (at_ (sm_b sm) (bestj + bestsize))) junk &&
         (at_ (sm_a sm) (besti + bestsize) =? at_ (sm_b sm) (bestj + bestsize))%N
      then extend_fwd fuel' sm junk ahi bhi besti bestj (S bestsize)
      else bestsize
  end.

Definition find_longest_match (sm : SequenceMatcher) (alo ahi blo bhi : nat)
    : Match :=
  let '(besti, bestj, bestsize) :=
    flm_rows sm blo bhi (ahi - alo) alo [] (alo, blo, 0) in
  let '(besti, bestj, bestsize) :=
    extend_back sm false alo blo besti bestj bestsize in
  let bestsize :=
    extend_fwd (ahi - (besti + bestsize)) sm false ahi bhi besti bestj bestsize in
  let '(besti, bestj, bestsize) :=
    extend_back sm true alo blo besti bestj bestsize in
  let bestsize :=
    extend_fwd (ahi - (besti + bestsize)) sm true ahi bhi besti bestj bestsize in
  mkMatch besti bestj bestsize.

Definition range4 := (nat * nat * nat * nat)%type.

(** [while queue] of [get_matching_blocks]; the head of [queue] is the end
    of the Python list, where [pop()] and [append] work. *)
Fixpoint blocks_loop (fuel : nat) (sm : SequenceMatcher) (queue : list range4)
    (matching_blocks : list Match) : list Match :=
  match fuel with
  | 0 => matching_blocks
  | S fuel' =>
      match queue with
      | [] => matching_blocks
      | (alo, ahi, blo, bhi) :: queue =>
          let x := find_longest_match sm alo ahi blo bhi in
          let i := m_a x in
          let j := m_b x in
          let k := m_size x in
          if k =? 0 then blocks_loop fuel' sm queue matching_blocks
          else
            let queue :=
              if (alo <? i) && (blo <? j) then (alo, i, blo, j) :: queue
              else queue in
            let queue :=
              if (i + k <? ahi) && (j + k <? bhi)
              then (i + k, ahi, j + k, bhi) :: queue
              else queue in
            blocks_loop fuel' sm queue (matching_blocks ++ [x])
      end
  end.

(** Tuple order of [Match], as [list.sort] uses it. *)
Definition match_leb (x y : Match) : bool :=
  (m_a x <? m_a y) ||
  (m_a x =? m_a y) &&
  ((m_b x <? m_b y) || (m_b x =? m_b y) && (m_size x <=? m_size y)).

Fixpoint insert_sorted (x : Match) (l : list Match) : list Match :=
  match l with
  | [] => [x]
  | y :: l' => if match_leb x y then x :: l else y :: insert_sorted x l'
  end.

Definition sort (l : list Match) : list Match :=
  fold_right insert_sorted [] l.

(** The loop that collapses adjacent blocks; returns [non_adjacent] and the
    pending block [(i1, j1, k1)]. *)
Fixpoint collapse (blocks : list Match) (i1 j1 k1 : nat)
    (non_adjacent : list Match) : list Match * best_t :=
  match blocks with
  | [] => (non_adjacent, (i1, j1, k1))
  | x :: blocks' =>
      let i2 := m_a x in
      let j2 := m_b x in
      let k2 := m_size x in
      if (i1 + k1 =? i2) && (j1 + k1 =? j2)
      then collapse blocks' i1 j1 (k1 + k2) non_adjacent
      else
        let non_adjacent :=
          if k1 =? 0 then non_adjacent
          else non_adjacent ++ [mkMatch i1 j1 k1] in
        collapse blocks' i2 j2 k2 non_adjacent
  end.

(** The number of rounds of [while queue]: a round that appends to the queue
    has found a block, and the blocks found are disjoint in [a]. *)
Definition blocks_fuel (sm : SequenceMatcher) : nat :=
  2 * length (sm_a sm) + 1.

Definition get_matching_blocks (sm : SequenceMatcher) : list Match :=
  let la := length (sm_a sm) in
  let lb := length (sm_b sm) in
  let matching_blocks :=
    sort (blocks_loop (blocks_fuel sm) sm [(0, la, 0, lb)] []) in
  let '(non_adjacent, (i1, j1, k1)) := collapse matching_blocks 0 0 0 [] in
  let non_adjacent :=
    if k1 =? 0 then non_adjacent else non_adjacent ++ [mkMatch i1 j1 k1] in
  non_adjacent ++ [mkMatch la lb 0].

Inductive tag := replace | delete | insert | equal.

Definition opcode := (tag * nat * nat * nat * nat)%type.

(** [for ai, bj, size in self.get_matching_blocks()]. *)
Fixpoint opcodes_loop (blocks : list Match) (i j : nat) : list opcode :=
  match blocks with
  | [] => []
  | x :: blocks' =>
      let ai := m_a x in
      let bj := m_b x in
      let size := m_size x in
      let pre :=
        if (i <? ai) && (j <? bj) then [(replace, i, ai, j, bj)]
        else if i <? ai then [(delete, i, ai, j, bj)]
        else if j <? bj then [(insert, i, ai, j, bj)]
        else [] in
      let i' := ai + size in
      let j' := bj + size in
      pre ++ (if size =? 0 then [] else [(equal, ai, i', bj, j')])
          ++ opcodes_loop blocks' i' j'
  end.

Definition get_opcodes (sm : SequenceMatcher) : list opcode :=
  opcodes_loop (get_matching_blocks sm) 0 0.

End Difflib.

(** ** Notions for the facts about [difflib] *)

(** The positions of [c] in [b], counted from [i]. *)
Fixpoint indices_from (c : char) (b : str) (i : nat) : list nat :=
  match b with
  | [] => []
  | x :: b' =>
      if (x =? c)%N then i :: indices_from c b' (S i)
      else indices_from c b' (S i)
  end.

(** An element that [__chain_b] did not purge as popular. *)
Definition rare (sm : Difflib.SequenceMatcher) (c : char) : bool :=
  negb (Difflib.mem c (Difflib.bpopular sm)).

(** [rare_run sm a i]: how many elements of [a] just before position [i]
    are rare in a row; when [a] is a prefix of [b], the length of the
    diagonal match the row loop knows at [i]. *)
Fixpoint rare_run (sm : Difflib.SequenceMatcher) (a : str) (i : nat) : nat :=
  match i with
  | 0 => 0
  | S i' => if rare sm (Difflib.at_ a i') then S (rare_run sm a i') else 0
  end.

(** What the rows loop of [find_longest_match] maintains before row [i]
    when [a] is a prefix of [b]: no length in [j2len] beats the diagonal,
    and the best block lies on the diagonal. *)
Definition row_inv (sm : Difflib.SequenceMatcher) (a : str) (i : nat)
    (j2len : Difflib.dict nat nat) : Prop :=
  (forall j, Difflib.get Nat.eqb j2len j 0 <= rare_run sm a i) /\
  (forall j, S j < i -> Difflib.get Nat.eqb j2len j 0 <= rare_run sm a (S j)) /\
  (forall i', i = S i' -> Difflib.get Nat.eqb j2len i' 0 = rare_run sm a i).

Definition best_inv (sm : Difflib.SequenceMatcher) (a : str) (i : nat)
    (best : Difflib.best_t) : Prop :=
  let '(bi, bj, bs) := best in
  bi = bj /\ (forall t, t <= i -> rare_run sm a t <= bs) /\ bi + bs <= i.

(** The measure that bounds the rounds of [while queue]. *)
Definition range_weight (q : Difflib.range4) : nat :=
  let '(alo, ahi, _, _) := q in 2 * (ahi - alo) + 1.

Definition queue_weight (queue : list Difflib.range4) : nat :=
  fold_right (fun q n => range_weight q + n) 0 queue.

(** ** [SubtitleProcessor.find_diff] *)

(** Lines 161-164: the blocks of [new_text] under an ['insert'] or
    ['replace'] opcode. *)
Definition diff_blocks (new_text : str) (ops : list Difflib.opcode) : list str :=
  flat_map
    (fun op =>
       match op with
       | (Difflib.insert, _, _, j1, j2)
       | (Difflib.replace, _, _, j1, j2) => [slice new_text j1 j2]
       | _ => []
       end) ops.

Definition find_diff (old_text new_text : str) : str :=
  if negb (truthy old_text) then new_text
  else
    let matcher := Difflib.new_matcher old_text new_text in
    let match_ :=
      Difflib.find_longest_match matcher 0 (length old_text) 0 (length new_text) in
    if (Difflib.m_a match_ =? 0) && (Difflib.m_b match_ =? 0) &&
       (length old_text <? length new_text)
    then skipn (length old_text) new_text
    else join [] (diff_blocks new_text (Difflib.get_opcodes matcher)).

(** ** Alignments of two texts *)

(** The spec's alignment: "a sequence of non-overlapping edit operations
    (equal / insert / replace / delete) covering both strings".  One
    operation [(tag, i1, i2, j1, j2)] pairs [a[i1:i2]] with [b[j1:j2]]:
    equal parts for ['equal'], nothing of [a] for ['insert'], nothing of [b]
    for ['delete'], something of both for ['replace']. *)
Definition op_shape (a b : str) (op : Difflib.opcode) : bool :=
  let '(tag, i1, i2, j1, j2) := op in
  match tag with
  | Difflib.equal => (i1 <? i2) && Str.eqb (slice a i1 i2) (slice b j1 j2)
  | Difflib.insert => (i1 =? i2) && (j1 <? j2)
  | Difflib.delete => (i1 <? i2) && (j1 =? j2)
  | Difflib.replace => (i1 <? i2) && (j1 <? j2)
  end.

(** The operations follow one another from [(i, j)] to the end of both
    strings. *)
Fixpoint aligned_from (a b : str) (ops : list Difflib.opcode) (i j : nat) : bool :=
  match ops with
  | [] => (i =? length a) && (j =? length b)
  | op :: ops' =>
      let '(_, i1, i2, j1, j2) := op in
      (i1 =? i) && (j1 =? j) && (i2 <=? length a) && (j2 <=? length b) &&
      op_shape a b op && aligned_from a b ops' i2 j2
  end.

Definition alignment (a b : str) (ops : list Difflib.opcode) : Prop :=
  aligned_from a b ops 0 0 = true.

(** The cost of an edit script: the characters deleted and inserted; a
    replacement counts for the longer of its two sides. *)
Definition edit_cost (ops : list Difflib.opcode) : nat :=
  fold_right
    (fun op n =>
       let '(tag, i1, i2, j1, j2) := op in
       match tag with
       | Difflib.equal => 0
       | Difflib.insert => j2 - j1
       | Difflib.delete => i2 - i1
       | Difflib.replace => Nat.max (i2 - i1) (j2 - j1)
       end + n)
    0 ops.

(** What [find_diff] makes of an alignment (lines 161-167). *)
Definition inserted_text (new_text : str) (ops : list Difflib.opcode) : str :=
  join [] (diff_blocks new_text ops).

(** An alignment of ["abcdef"] and ["bcdeXabcYdef"] that only inserts:
    ["bcdeX"], then ["abc"] kept, ["Y"], then ["def"] kept. *)
Definition inserting_alignment : list Difflib.opcode :=
  [(Difflib.insert, 0, 0, 0, 5); (Difflib.equal, 0, 3, 5, 8);
   (Difflib.insert, 3, 3, 8, 9); (Difflib.equal, 3, 6, 9, 12)].

(** ** Notions for the facts about alignments *)

(** A block of equal elements: [a[i + t] == b[j + t]] for [t < size]. *)
Definition genuine (a b : str) (x : Difflib.Match) : Prop :=
  forall t, t < Difflib.m_size x ->
            Difflib.at_ a (Difflib.m_a x + t) = Difflib.at_ b (Difflib.m_b x + t).

(** What [j2len] holds before row [i]: for each [j], the length of a run of
    equal elements that ends at [a[i - 1]] and [b[j]]. *)
Definition runs_inv (a b : str) (i : nat) (j2len : Difflib.dict nat nat) : Prop :=
  forall j,
    Difflib.get Nat.eqb j2len j 0 <= i /\
    Difflib.get Nat.eqb j2len j 0 <= S j /\
    forall t, t < Difflib.get Nat.eqb j2len j 0 ->
              Difflib.at_ a (i - 1 - t) = Difflib.at_ b (j - t).

Definition genuine3 (a b : str) (best : Difflib.best_t) : Prop :=
  let '(bi, bj, bs) := best in
  genuine a b (Difflib.mkMatch bi bj bs).

(** [y] holds [x]: the same diagonal, and no shorter at either end. *)
Definition holds (y x : Difflib.Match) : Prop :=
  Difflib.m_a y <= Difflib.m_a x /\
  Difflib.m_a x + Difflib.m_size x <= Difflib.m_a y + Difflib.m_size y /\
  Difflib.m_a x + Difflib.m_b y = Difflib.m_b x + Difflib.m_a y.

(** ** Notions for the further properties of [find_diff] and [clean_duplicates] *)

(** [s] is [l] with some elements left out, the order kept. *)
Inductive subseq {A : Type} : list A -> list A -> Prop :=
| subseq_nil : subseq [] []
| subseq_skip x s l : subseq s l -> subseq s (x :: l)
| subseq_keep x s l : subseq s l -> subseq (x :: s) (x :: l).

(** A text with a character that is not whitespace. *)
Definition has_ink (s : str) : bool := existsb (fun c => negb (isspace c)) s.

(** [x] ends, in both texts, where or before [y] starts. *)
Definition before (x y : Difflib.Match) : Prop :=
  Difflib.m_a x + Difflib.m_size x <= Difflib.m_a y /\
  Difflib.m_b x + Difflib.m_size x <= Difflib.m_b y.

Definition apart (x y : Difflib.Match) : Prop := before x y \/ before y x.

(** A block and a range of the queue that do not meet, in the same order
    in both texts. *)
Definition block_apart (x : Difflib.Match) (r : Difflib.range4) : Prop :=
  let '(alo, ahi, blo, bhi) := r in
  (Difflib.m_a x + Difflib.m_size x <= alo /\
   Difflib.m_b x + Difflib.m_size x <= blo) \/
  (ahi <= Difflib.m_a x /\ bhi <= Difflib.m_b x).

Definition range_apart (r r' : Difflib.range4) : Prop :=
  let '(alo, ahi, blo, bhi) := r in
  let '(alo', ahi', blo', bhi') := r' in
  (ahi <= alo' /\ bhi <= blo') \/ (ahi' <= alo /\ bhi' <= blo).

Definition range_in (c r : Difflib.range4) : Prop :=
  let '(alo, ahi, blo, bhi) := r in
  let '(alo', ahi', blo', bhi') := c in
  alo <= alo' /\ alo' <= ahi' /\ ahi' <= ahi /\
  blo <= blo' /\ blo' <= bhi' /\ bhi' <= bhi.

Definition range_ok (la lb : nat) (r : Difflib.range4) : Prop :=
  let '(alo, ahi, blo, bhi) := r in
  alo <= ahi /\ ahi <= la /\ blo <= bhi /\ bhi <= lb.

Definition block_ok (la lb : nat) (x : Difflib.Match) : Prop :=
  0 < Difflib.m_size x /\
  Difflib.m_a x + Difflib.m_size x <= la /\
  Difflib.m_b x + Difflib.m_size x <= lb.

(** What [while queue] maintains: the blocks found and the ranges still to
    search are pairwise apart. *)
Definition blocks_inv (la lb : nat) (queue : list Difflib.range4)
    (acc : list Difflib.Match) : Prop :=
  Forall (range_ok la lb) queue /\
  ForallOrdPairs range_apart queue /\
  Forall (block_ok la lb) acc /\
  ForallOrdPairs apart acc /\
  Forall (fun x => Forall (block_apart x) queue) acc.

(** The blocks follow one another from [(i, j)] on, in both texts. *)
Fixpoint chain_from (i j : nat) (blocks : list Difflib.Match) : Prop :=
  match blocks with
  | [] => True
  | x :: rest =>
      i <= Difflib.m_a x /\ j <= Difflib.m_b x /\
      chain_from (Difflib.m_a x + Difflib.m_size x)
                 (Difflib.m_b x + Difflib.m_size x) rest
  end.

(** Where a chain started at [(i, j)] ends. *)
Fixpoint end_of (i j : nat) (blocks : list Difflib.Match) : nat * nat :=
  match blocks with
  | [] => (i, j)
  | x :: rest =>
      end_of (Difflib.m_a x + Difflib.m_size x)
             (Difflib.m_b x + Difflib.m_size x) rest
  end.

(** The number of whitespace characters of a string. *)
Definition blanks (s : str) : nat := length (filter isspace s).

(** What the rows loop of [find_longest_match] maintains before row [i]
    when [a] and [b] agree on their first [m] elements. *)
Definition common_row_inv (sm : Difflib.SequenceMatcher) (a : str) (m i : nat)
    (j2len : Difflib.dict nat nat) : Prop :=
  (forall j, Difflib.get Nat.eqb j2len j 0 <= rare_run sm a i) /\
  (forall j, j < m -> Difflib.get Nat.eqb j2len j 0 <= rare_run sm a (S j)) /\
  (forall i', i = S i' -> i <= m ->
              Difflib.get Nat.eqb j2len i' 0 = rare_run sm a i).

Definition common_best_inv (sm : Difflib.SequenceMatcher) (a : str) (m i : nat)
    (best : Difflib.best_t) : Prop :=
  let '(bi, bj, bs) := best in
  bi = bj /\ (forall t, t <= i -> t <= m -> rare_run sm a t <= bs) /\
  bi + bs <= m.

(** ** The processor, its stores and its environment *)

Local Open Scope Q_scope.

(** [x < y] on timestamps. *)
Definition Qlt_bool (x y : Q) : bool := negb (Qle_bool y x).

(** A completed phrase: the dict appended to [phrase_history], or the
    columns of a row of the [phrases] table. *)
Record phrase := mkPhrase {
  text : str;
  start_time : Q;
  end_time : Q }.

(** A row of [subtitles (id, full_text, timestamp)]. *)
Record subtitle_row := mkSubtitle {
  sub_id : nat;
  sub_full_text : str;
  sub_timestamp : Q }.

(** A row of [phrases (id, text, start_time, end_time)]. *)
Record phrase_row := mkPhraseRow {
  phrase_id : nat;
  phrase_cols : phrase }.

(** [self.text_db]: the key ["full_text"] is always present, ["timestamp"]
    only after the first write. *)
Record text_db := mkTextDb {
  full_text : str;
  timestamp : option Q }.

(** What [use_sqlite] selects: the connection with its two tables, or the
    in-memory dict. *)
Inductive backend :=
| Sqlite (subtitles : list subtitle_row) (phrases : list phrase_row)
| InMemory (db : text_db).

Record processor := mkProcessor {
  debug : bool;
  last_update_time : Q;
  current_phrase : str;
  phrase_history : list phrase;
  store : backend }.

Definition use_sqlite (p : processor) : bool :=
  match store p with Sqlite _ _ => true | InMemory _ => false end.

Inductive log_level := info | success | warning | error.

(** The two messages [debug_log] is called with. *)
Inductive debug_message :=
| Initialized
| DetectedChange (delta_time : Q) (diff_text : str).

(** What reaches the console: [print(s, end=e)], or a line of [debug_log]
    (whose own [datetime.now()] prefix is left out). *)
Inductive output :=
| Printed (s : str) (end_ : str)
| DebugLine (level : log_level) (message : debug_message).

(** The environment: the successive values of [time.time()] and, for each
    call into sqlite3 in turn, whether it raises. *)
Record env := mkEnv {
  clock : nat -> Q;
  db_fails : nat -> bool }.

Record world := mkWorld {
  self : processor;
  console : list output;
  clock_reads : nat;
  db_calls : nat;
  oracle : env }.

Inductive exn := sqlite3_Error.

Inductive result (A : Type) :=
| Ok (x : A)
| Raised (e : exn).
Arguments Ok {A} x.
Arguments Raised {A} e.

(** State survives an exception: a Python object keeps the assignments made
    before the [raise]. *)
Definition M (A : Type) := world -> result A * world.

Definition ret {A} (x : A) : M A := fun w => (Ok x, w).

Definition bind {A B} (c : M A) (k : A -> M B) : M B :=
  fun w =>
    match c w with
    | (Ok x, w') => k x w'
    | (Raised e, w') => (Raised e, w')
    end.

Declare Scope py_scope.
Delimit Scope py_scope with py.
Notation "x <- c ;; k" := (bind c (fun x => k))
  (at level 61, c at next level, right associativity) : py_scope.
Notation "c ;; k" := (bind c (fun _ => k))
  (at level 61, right associativity) : py_scope.
Local Open Scope py_scope.

Definition get_self {A} (f : processor -> A) : M A :=
  fun w => (Ok (f (self w)), w).

Definition modify_self (f : processor -> processor) : M unit :=
  fun w => (Ok tt, mkWorld (f (self w)) (console w) (clock_reads w)
                           (db_calls w) (oracle w)).

Definition set_last_update_time (t : Q) (p : processor) : processor :=
  mkProcessor (debug p) t (current_phrase p) (phrase_history p) (store p).

Definition set_current_phrase (s : str) (p : processor) : processor :=
  mkProcessor (debug p) (last_update_time p) s (phrase_history p) (store p).

Definition set_phrase_history (h : list phrase) (p : processor) : processor :=
  mkProcessor (debug p) (last_update_time p) (current_phrase p) h (store p).

Definition set_store (s : backend) (p : processor) : processor :=
  mkProcessor (debug p) (last_update_time p) (current_phrase p)
              (phrase_history p) s.

(** [time.time()]. *)
Definition time_time : M Q :=
  fun w => (Ok (clock (oracle w) (clock_reads w)),
            mkWorld (self w) (console w) (S (clock_reads w)) (db_calls w)
                    (oracle w)).

(** One call into sqlite3 ([cursor.execute], [conn.commit]): it raises when
    the environment says so. *)
Definition db_call : M unit :=
  fun w =>
    let w' := mkWorld (self w) (console w) (clock_reads w) (S (db_calls w))
                      (oracle w) in
    if db_fails (oracle w) (db_calls w) then (Raised sqlite3_Error, w')
    else (Ok tt, w').

Definition emit (o : output) : M unit :=
  fun w => (Ok tt, mkWorld (self w) (console w ++ [o]) (clock_reads w)
                           (db_calls w) (oracle w)).

(** [print(s)] and [print(s, end=e)]. *)
Definition print (s : str) : M unit := emit (Printed s (py (String (ascii_of_nat 10) ""))).
Definition print_end (s e : str) : M unit := emit (Printed s e).

Definition debug_log (message : debug_message) (level : log_level) : M unit :=
  d <- get_self debug ;;
  if negb d then ret tt else emit (DebugLine level message).

(** [SELECT full_text FROM subtitles ORDER BY timestamp DESC LIMIT 1]: a row
    of greatest timestamp; among equal timestamps (SQL leaves the choice
    open) the one inserted first. *)
Fixpoint latest_row (rows : list subtitle_row) (best : option subtitle_row)
    : option subtitle_row :=
  match rows with
  | [] => best
  | r :: rows' =>
      match best with
      | None => latest_row rows' (Some r)
      | Some r0 =>
          if Qlt_bool (sub_timestamp r0) (sub_timestamp r)
          then latest_row rows' (Some r)
          else latest_row rows' best
      end
  end.

(** What [_get_latest_text] returns when its query does not fail. *)
Definition latest_text (p : processor) : str :=
  match store p with
  | Sqlite subtitles _ =>
      match latest_row subtitles None with
      | Some r => sub_full_text r
      | None => []
      end
  | InMemory db => full_text db
  end.

Definition _get_latest_text : M str :=
  sql <- get_self use_sqlite ;;
  if sql then db_call ;; get_self latest_text
  else get_self latest_text.

Definition _save_to_db (text : str) : M unit :=
  timestamp <- time_time ;;
  st <- get_self store ;;
  match st with
  | Sqlite subtitles phrases =>
      db_call ;;
      modify_self (set_store
        (Sqlite (subtitles ++ [mkSubtitle (S (length subtitles)) text timestamp])
                phrases)) ;;
      db_call
  | InMemory _ =>
      modify_self (set_store (InMemory (mkTextDb text (Some timestamp))))
  end.

Definition _save_phrase (text : str) (start_time end_time : Q) : M unit :=
  st <- get_self store ;;
  match st with
  | Sqlite subtitles phrases =>
      db_call ;;
      modify_self (set_store
        (Sqlite subtitles
                (phrases ++ [mkPhraseRow (S (length phrases))
                                         (mkPhrase text start_time end_time)]))) ;;
      db_call
  | InMemory _ =>
      h <- get_self phrase_history ;;
      modify_self (set_phrase_history (h ++ [mkPhrase text start_time end_time]))
  end.

(** ["\n" + "▃" * 20 + " NEW PHRASE " + "▃" * 20]; the block character is
    U+2583. *)
Definition separator : str :=
  [10%N] ++ repeat 9603%N 20 ++ py " NEW PHRASE " ++ repeat 9603%N 20.

Definition process_subtitle (current_text : str) : M unit :=
  last_stored_text <- _get_latest_text ;;
  if Str.eqb current_text last_stored_text then ret tt
  else
    update_time <- time_time ;;
    last <- get_self last_update_time ;;
    let delta_time := update_time - last in
    let diff_text := find_diff last_stored_text current_text in
    let diff_text := clean_duplicates diff_text in
    if negb (truthy (strip diff_text)) then ret tt
    else
      debug_log (DetectedChange delta_time diff_text)
                (if Qlt_bool delta_time 2 then success else warning) ;;
      (if Qlt_bool delta_time 2 then
         phrase0 <- get_self current_phrase ;;
         (if truthy phrase0 then
            if contains phrase0 current_text
            then modify_self (set_current_phrase (phrase0 ++ diff_text))
            else modify_self (set_current_phrase current_text)
          else modify_self (set_current_phrase diff_text)) ;;
         phrase1 <- get_self current_phrase ;;
         print_end ([13%N] ++ phrase1) []
       else
         phrase0 <- get_self current_phrase ;;
         (if truthy phrase0 then
            print [10%N] ;;
            _save_phrase phrase0 last update_time
          else ret tt) ;;
         modify_self (set_current_phrase diff_text) ;;
         print separator ;;
         phrase1 <- get_self current_phrase ;;
         print phrase1) ;;
      _save_to_db current_text ;;
      modify_self (set_last_update_time update_time).

(** [SubtitleProcessor(use_sqlite, db_path, debug)]: [disk] is what the
    database at [db_path] already holds (nothing for [":memory:"]). *)
Definition init (sqlite : bool) (disk : list subtitle_row * list phrase_row)
    (dbg : bool) (e : env) : result unit * world :=
  let w0 :=
    mkWorld (mkProcessor dbg (clock e 0) [] []
               (if sqlite then Sqlite (fst disk) (snd disk)
                else InMemory (mkTextDb [] None)))
            [] 1 0 e in
  ((if sqlite then db_call ;; db_call ;; db_call else ret tt) ;;
   debug_log Initialized info) w0.

(** A session: the snapshots handed to [process_subtitle] one after the
    other (as [GoogleMeetSubtitleExtractor.on_subtitle_update] does); an
    exception ends it. *)
Fixpoint run (updates : list str) : M unit :=
  match updates with
  | [] => ret tt
  | u :: updates' => process_subtitle u ;; run updates'
  end.

(** ** Observations on [find_diff] *)

(** The block [find_diff] asks for on line 152. *)
Definition longest_match (old_text new_text : str) : Difflib.Match :=
  Difflib.find_longest_match (Difflib.new_matcher old_text new_text)
    0 (length old_text) 0 (length new_text).

(** The concatenation, in order, of the parts of [new_text] under the
    ['insert'] and ['replace'] opcodes of difflib's alignment. *)
Definition opcode_diff (old_text new_text : str) : str :=
  join [] (diff_blocks new_text
             (Difflib.get_opcodes (Difflib.new_matcher old_text new_text))).

(** ** Observations on a run *)

(** The phrase history of the store: the rows of [phrases], or the list
    [phrase_history]. *)
Definition phrase_log (p : processor) : list phrase :=
  match store p with
  | Sqlite _ phrases => map phrase_cols phrases
  | InMemory _ => phrase_history p
  end.

(** The snapshot written last: the last row of [subtitles], or the slot
    [text_db] once it carries a timestamp. *)
Definition written_snapshot (p : processor) : option (str * Q) :=
  match store p with
  | Sqlite subtitles _ =>
      match rev subtitles with
      | r :: _ => Some (sub_full_text r, sub_timestamp r)
      | [] => None
      end
  | InMemory db =>
      match timestamp db with
      | Some t => Some (full_text db, t)
      | None => None
      end
  end.

(** The next [n] calls into sqlite3 do not raise (nothing to ask of the
    in-memory store). *)
Definition storage_ok (w : world) (n : nat) : Prop :=
  use_sqlite (self w) = true ->
  forall k, (k < n)%nat -> db_fails (oracle w) (db_calls w + k) = false.

(** The suppressed delta [process_subtitle] computes for [current_text]. *)
Definition delta_of (w : world) (current_text : str) : str :=
  clean_duplicates (find_diff (latest_text (self w)) current_text).

(** Its [update_time] and [delta_time]. *)
Definition now_of (w : world) : Q := clock (oracle w) (clock_reads w).
Definition elapsed_of (w : world) : Q := now_of w - last_update_time (self w).

Definition newline : str := [10%N].

Definition debug_lines (w : world) (o : output) : list output :=
  if debug (self w) then [o] else [].

(** The accumulator as lines 229-258 leave it. *)
Definition next_phrase (w : world) (current_text : str) : str :=
  let phrase0 := current_phrase (self w) in
  if Qlt_bool (elapsed_of w) 2 then
    if truthy phrase0 then
      if contains phrase0 current_text
      then phrase0 ++ delta_of w current_text
      else current_text
    else delta_of w current_text
  else delta_of w current_text.

(** How many calls into sqlite3 a processed update makes before
    [_save_to_db]: the [SELECT], and the [INSERT] and [commit] of
    [_save_phrase] when a phrase is finalized. *)
Definition calls_before_write (w : world) : nat :=
  if negb (Qlt_bool (elapsed_of w) 2) && truthy (current_phrase (self w))
  then 3%nat else 1%nat.

(** What an update does to the accumulator: nothing (an early return, or
    an exception raised before lines 229-258 assign it: in the [SELECT], or
    in [_save_phrase]), grow or resynchronise the phrase in progress, or
    begin a new accumulation (line 242 or line 258). *)
Inductive step_kind := skipped | continued | began.

Definition classify (w : world) (current_text : str) : step_kind :=
  if use_sqlite (self w) && db_fails (oracle w) (db_calls w) then skipped
  else if Str.eqb current_text (latest_text (self w)) then skipped
  else if negb (truthy (strip (delta_of w current_text))) then skipped
  else if Qlt_bool (elapsed_of w) 2 then
    if truthy (current_phrase (self w)) then continued else began
  else if truthy (current_phrase (self w)) && use_sqlite (self w) &&
          (db_fails (oracle w) (db_calls w + 1) ||
           db_fails (oracle w) (db_calls w + 2))
       then skipped
       else began.

(** The call runs to completion, that is to line 266: it returns, and by
    neither of the early returns. *)
Definition completed (w : world) (current_text : str) : bool :=
  match fst (process_subtitle current_text w) with
  | Ok _ =>
      negb (Str.eqb current_text (latest_text (self w))) &&
      truthy (strip (delta_of w current_text))
  | Raised _ => false
  end.

(** The processor after a sequence of calls of [process_subtitle]; a call
    that raises leaves the object as the exception found it, and the caller
    goes on with the next snapshot. *)
Fixpoint session (updates : list str) (w : world) : world :=
  match updates with
  | [] => w
  | u :: updates' => session updates' (snd (process_subtitle u w))
  end.

(** Such a sequence observed with a ghost timestamp: [track] tells at which
    calls the ghost takes the call's [update_time]; each phrase finalized is
    paired with the ghost as it is when the call begins. *)
Fixpoint finalized (track : world -> str -> bool) (updates : list str)
    (ghost : Q) (w : world) : list (phrase * Q) :=
  match updates with
  | [] => []
  | u :: updates' =>
      let r := process_subtitle u w in
      let fresh :=
        skipn (length (phrase_log (self w))) (phrase_log (self (snd r))) in
      let ghost' := if track w u then now_of w else ghost in
      map (fun ph => (ph, ghost)) fresh ++
      finalized track updates' ghost' (snd r)
  end.

(** The time of the update that began the accumulation in progress. *)
Definition accumulation_start (w : world) (current_text : str) : bool :=
  match classify w current_text with began => true | _ => false end.

(** An in-memory session with no debug output whose clock reads
    0, 10, 10, 11, 11, 14, 14. *)
Definition demo_env : env :=
  mkEnv (fun n => nth n [0; 10; 10; 11; 11; 14; 14] 0) (fun _ => false).

Definition demo_world : world := snd (init false ([], []) false demo_env).

(** The same session on a clock that advances by one at every reading,
    from 10 on. *)
Definition ticking_env : env :=
  mkEnv (fun n => inject_Z (10 + Z.of_nat n)) (fun _ => false).

Definition ticking_world : world := snd (init false ([], []) false ticking_env).

(** [demo_world] after the snapshots ["Hello"] and ["Hello there"]. *)
Definition demo_world2 : world :=
  snd (run [py "Hello"; py "Hello there"] demo_world).

(** A processor whose last update was at 9, read at 11. *)
Definition tie_world : world :=
  mkWorld (mkProcessor false 9 (py "Hello") []
             (InMemory (mkTextDb (py "Hello") (Some 9))))
          [] 0 0 (mkEnv (fun _ => 11) (fun _ => false)).

(** A sqlite session on the ticking clock whose fifth call into sqlite3
    raises: the three of [_setup_database] and the [SELECT] of the first
    update pass, the [INSERT] of its snapshot does not. *)
Definition failing_env : env :=
  mkEnv (fun n => inject_Z (10 + Z.of_nat n)) (fun n => Nat.eqb n 4).

Definition failing_world : world := snd (init true ([], []) false failing_env).

(** ** Observations for the further properties of a run *)

(** The rows of [subtitles] (none for the in-memory store). *)
Definition snapshot_rows (p : processor) : list subtitle_row :=
  match store p with
  | Sqlite subtitles _ => subtitles
  | InMemory _ => []
  end.

(** The accumulator is empty or holds more than whitespace. *)
Definition accumulator_ok (p : processor) : Prop :=
  current_phrase p = [] \/ has_ink (current_phrase p) = true.

(** What one call of [process_subtitle] may add to the phrase history. *)
Definition fresh_phrases (w : world) (current_text : str) : list phrase :=
  if truthy (strip (delta_of w current_text))
     && negb (Qlt_bool (elapsed_of w) 2)
     && truthy (current_phrase (self w))
  then [mkPhrase (current_phrase (self w)) (last_update_time (self w)) (now_of w)]
  else [].

(** A phrase of the history with ink in its text, and whose end comes 2
    seconds or more after its start. *)
Definition phrase_ok (ph : phrase) : Prop :=
  has_ink (text ph) = true /\ (start_time ph + 2 <= end_time ph)%Q.

(** [demo_world] after the snapshot ["Hello"]. *)
Definition demo_world1 : world := snd (run [py "Hello"] demo_world).

(** A sqlite session on the ticking clock with no failure, after the
    snapshot ["Hello"]. *)
Definition sqlite_world : world :=
  snd (run [py "Hello"]
         (snd (init true ([], []) false
                 (mkEnv (fun n => inject_Z (10 + Z.of_nat n)) (fun _ => false))))).

(** A processor opened on a database whose only snapshot is stamped 100,
    while its own clock reads 10, 11, 12, ... *)
Definition reopened_world : world :=
  snd (init true ([mkSubtitle 1 (py "Hello") 100], []) false
         (mkEnv (fun n => inject_Z (10 + Z.of_nat n)) (fun _ => false))).

(** A sqlite processor with the phrase ["Hello"] in progress since 9, read
    at 11, whose second call into sqlite3 raises. *)
Definition phrase_failing_world : world :=
  mkWorld (mkProcessor false 9 (py "Hello") []
             (Sqlite [mkSubtitle 1 (py "Hello") 9] []))
          [] 0 0 (mkEnv (fun _ => 11) (fun n => Nat.eqb n 1)).

(** ** Tactics for runs of the model *)

(** Unfold the monad and the methods, then read record fields. *)
Ltac py_unfold :=
  unfold process_subtitle, _get_latest_text, _save_to_db, _save_phrase,
    debug_log, print, print_end, emit, time_time, db_call, get_self,
    modify_self, bind, ret.

Ltac world_fields :=
  cbn [self store use_sqlite oracle db_calls console clock_reads debug
       last_update_time current_phrase phrase_history fst snd
       set_current_phrase set_last_update_time set_phrase_history set_store
       latest_text phrase_log written_snapshot full_text timestamp
       delta_of now_of elapsed_of debug_lines negb] in *.

Ltac break_if :=
  match goal with
  | |- context [if ?c then _ else _] =>
      lazymatch c with
      | context [if _ then _ else _] => fail
      | _ => destruct c eqn:?
      end
  end.

(** * Facts about strings and [clean_duplicates] *)

Local Close Scope Q_scope.

Module StrFacts.

Lemma split_cons c s :
  split (c :: s) =
  if isspace c then split s
  else match s with
       | [] => [[c]]
       | d :: _ =>
           if isspace d then [c] :: split s
           else match split s with
                | w :: ws => (c :: w) :: ws
                | [] => [[c]]
                end
       end.
Proof. reflexivity. Qed.

Lemma nospace_cons c w :
  nospace (c :: w) = true -> isspace c = false /\ nospace w = true.
Proof.
  unfold nospace. cbn [forallb]. intros H. apply andb_prop in H.
  destruct H as [Hc H]. apply negb_true_iff in Hc. now split.
Qed.

Lemma split_word c w rest :
  nospace (c :: w) = true ->
  split ((c :: w) ++ space :: rest) = (c :: w) :: split rest.
Proof.
  revert c. induction w as [|d w IH]; intros c H;
    apply nospace_cons in H; destruct H as [Hc H].
  - cbn [app]. rewrite split_cons, Hc. cbv iota.
    replace (isspace space) with true by reflexivity.
    rewrite (split_cons space). now replace (isspace space) with true by reflexivity.
  - pose proof (@nospace_cons _ _ H) as [Hd _].
    change ((c :: d :: w) ++ space :: rest) with (c :: ((d :: w) ++ space :: rest)).
    rewrite split_cons, Hc. rewrite (IH d H). cbn [app]. now rewrite Hd.
Qed.

Lemma split_last_word c w :
  nospace (c :: w) = true -> split (c :: w) = [c :: w].
Proof.
  revert c. induction w as [|d w IH]; intros c H;
    apply nospace_cons in H; destruct H as [Hc H].
  - now rewrite split_cons, Hc.
  - pose proof (@nospace_cons _ _ H) as [Hd _].
    rewrite split_cons, Hc. rewrite (IH d H). now rewrite Hd.
Qed.

Lemma split_join ws :
  forallb tokenb ws = true -> split (join [space] ws) = ws.
Proof.
  induction ws as [|w ws IH]; intros H; [reflexivity |].
  cbn [forallb] in H. apply andb_prop in H. destruct H as [Hw Hws].
  unfold tokenb in Hw. apply andb_prop in Hw. destruct Hw as [Hne Hns].
  destruct w as [|c w]; [discriminate |].
  cbn [join]. destruct ws as [|w' ws].
  - now apply split_last_word.
  - cbn [app]. change (c :: w ++ space :: join [space] (w' :: ws))
      with ((c :: w) ++ space :: join [space] (w' :: ws)).
    rewrite split_word by exact Hns. now rewrite IH.
Qed.

Lemma split_tokens s : forallb tokenb (split s) = true.
Proof.
  induction s as [|c s IH]; [reflexivity |].
  rewrite split_cons. destruct (isspace c) eqn:Hc; [exact IH |].
  destruct s as [|d s]; [cbn; now rewrite Hc |].
  destruct (isspace d) eqn:Hd.
  - cbn [forallb]. rewrite IH. cbn. now rewrite Hc.
  - destruct (split (d :: s)) as [|w ws]; [cbn; now rewrite Hc |].
    cbn [forallb] in *. apply andb_prop in IH. destruct IH as [Hw Hws].
    rewrite Hws, andb_true_r.
    unfold tokenb in *. apply andb_prop in Hw. destruct Hw as [_ Hw].
    unfold nospace in *. cbn. now rewrite Hc, Hw.
Qed.

(** [split] undoes [join]; so the words of a joined text are the words
    joined. *)
Lemma split_join_split s : split (join [space] (split s)) = split s.
Proof. apply split_join, split_tokens. Qed.

(** *** The loop of [clean_duplicates] *)

Lemma scan_step w1 tl :
  scan (w1 :: tl) =
  if (3 <=? length (w1 :: tl)) &&
     contains (join [space] (firstn 3 (w1 :: tl)))
              (join [space] (skipn 3 (w1 :: tl)))
  then scan (skipn 3 (w1 :: tl))
  else w1 :: scan tl.
Proof. destruct tl as [|w2 [|w3 rest]]; reflexivity. Qed.

Lemma skipn_nth (words : list str) i :
  i < length words -> skipn i words = nth i words [] :: skipn (S i) words.
Proof.
  revert i. induction words as [|w words IH]; intros i Hi; [cbn in Hi; lia |].
  destruct i as [|i]; [reflexivity |].
  cbn [skipn nth]. apply IH. cbn in Hi. lia.
Qed.

(** The loop with enough fuel is [scan] on the words from [i] on. *)
Lemma clean_loop_scan fuel : forall words i cleaned,
  length words - i <= fuel ->
  clean_loop fuel words i cleaned = cleaned ++ scan (skipn i words).
Proof.
  induction fuel as [|fuel IH]; intros words i cleaned Hf; cbn [clean_loop].
  - rewrite skipn_all2 by lia. now rewrite app_nil_r.
  - destruct (i <? length words) eqn:Hi.
    + apply Nat.ltb_lt in Hi.
      rewrite (skipn_nth words Hi), scan_step, <- (skipn_nth words Hi).
      rewrite length_skipn, skipn_skipn.
      replace (3 + i) with (i + 3) by lia.
      replace (3 <=? length words - i) with (i + 3 <=? length words)
        by (destruct (Nat.leb_spec (i + 3) (length words));
            destruct (Nat.leb_spec 3 (length words - i)); lia).
      unfold slice. replace (i + 3 - i) with 3 by lia.
      destruct ((i + 3 <=? length words) &&
                contains (join [space] (firstn 3 (skipn i words)))
                         (join [space] (skipn (i + 3) words))).
      * apply IH. lia.
      * rewrite IH by lia. rewrite <- app_assoc.
        now replace (i + 1) with (S i) by lia.
    + apply Nat.ltb_ge in Hi. rewrite skipn_all2 by lia. now rewrite app_nil_r.
Qed.

Lemma kept_is_scan words :
  clean_loop (length words) words 0 [] = scan words.
Proof. rewrite clean_loop_scan by lia. reflexivity. Qed.

(** Induction on lists by length, as [scan] recurses. *)
Lemma scan_ind (P : list str -> Prop) :
  P [] ->
  (forall w1 tl, P tl -> P (skipn 3 (w1 :: tl)) -> P (w1 :: tl)) ->
  forall ws, P ws.
Proof.
  intros H0 Hstep ws.
  assert (H : forall n ws, length ws <= n -> P ws).
  { induction n as [|n IH]; intros l Hl.
    - destruct l; [exact H0 | cbn in Hl; lia].
    - destruct l as [|w1 tl]; [exact H0 |].
      cbn in Hl. apply Hstep; apply IH.
      + lia.
      + destruct tl as [|w2 [|w3 rest]]; cbn in *; lia. }
  now apply (H (length ws)).
Qed.

Lemma scan_tokens ws :
  forallb tokenb ws = true -> forallb tokenb (scan ws) = true.
Proof.
  induction ws as [|w1 tl IH1 IH3] using scan_ind; intros H; [reflexivity |].
  rewrite scan_step.
  assert (Htl : forallb tokenb tl = true)
    by (cbn [forallb] in H; apply andb_prop in H; tauto).
  assert (H3 : forallb tokenb (skipn 3 (w1 :: tl)) = true).
  { rewrite forallb_forall in *. intros x Hx. apply H.
    rewrite <- (firstn_skipn 3 (w1 :: tl)). apply in_or_app. now right. }
  destruct (_ && _); [now apply IH3 |].
  cbn [forallb] in *. apply andb_prop in H. destruct H as [-> _].
  now apply IH1.
Qed.

Lemma scan_length ws : length (scan ws) <= length ws.
Proof.
  induction ws as [|w1 tl IH1 IH3] using scan_ind; [cbn; lia |].
  rewrite scan_step. destruct (_ && _).
  - pose proof (length_skipn 3 (w1 :: tl)). lia.
  - cbn. lia.
Qed.

Lemma window_step w1 tl :
  window_recurs (w1 :: tl) =
  (3 <=? length (w1 :: tl)) &&
  (contains (join [space] (firstn 3 (w1 :: tl)))
            (join [space] (skipn 3 (w1 :: tl))) || window_recurs tl).
Proof. destruct tl as [|w2 [|w3 rest]]; reflexivity. Qed.

Lemma window_recurs_short tl : length tl < 3 -> window_recurs tl = false.
Proof. destruct tl as [|w1 [|w2 [|w3 rest]]]; cbn; try reflexivity; lia. Qed.

(** [scan] keeps every word exactly when no window recurs. *)
Lemma scan_fixed ws : window_recurs ws = false -> scan ws = ws.
Proof.
  induction ws as [|w1 tl IH]; intros H; [reflexivity |].
  rewrite scan_step. rewrite window_step in H.
  destruct (3 <=? length (w1 :: tl)) eqn:E; cbn [andb] in *.
  - apply orb_false_elim in H. destruct H as [-> H]. now rewrite IH.
  - rewrite IH; [reflexivity |]. apply window_recurs_short.
    apply Nat.leb_gt in E. cbn in E. lia.
Qed.

Lemma scan_shrinks ws : window_recurs ws = true -> length (scan ws) < length ws.
Proof.
  induction ws as [|w1 tl IH]; intros H; [discriminate |].
  rewrite scan_step. rewrite window_step in H.
  apply andb_prop in H. destruct H as [E H]. rewrite E. cbn [andb].
  destruct (contains _ _).
  - pose proof (scan_length (skipn 3 (w1 :: tl))).
    pose proof (length_skipn 3 (w1 :: tl)).
    apply Nat.leb_le in E. lia.
  - cbn [orb] in H. specialize (IH H). cbn. lia.
Qed.

(** What [clean_duplicates] returns, in terms of [scan]. *)
Lemma clean_duplicates_scan t :
  clean_duplicates t =
  if length (split t) <=? 3 then t else join [space] (scan (split t)).
Proof. unfold clean_duplicates. now rewrite kept_is_scan. Qed.

Lemma split_clean_long t :
  3 < length (split t) -> split (clean_duplicates t) = scan (split t).
Proof.
  intros H. rewrite clean_duplicates_scan.
  replace (length (split t) <=? 3) with false by (symmetry; apply Nat.leb_gt; lia).
  apply split_join, scan_tokens, split_tokens.
Qed.

End StrFacts.

(** * Facts about [difflib] *)

Module DifflibFacts.
Import Difflib.

Lemma get_setdefault_append d elt i c :
  get N.eqb (setdefault_append d elt i) c [] =
  if (elt =? c)%N then get N.eqb d c [] ++ [i] else get N.eqb d c [].
Proof.
  induction d as [|[k v] d IH]; simpl.
  - destruct (elt =? c)%N; reflexivity.
  - destruct (k =? elt)%N eqn:Hke; simpl.
    + apply N.eqb_eq in Hke. subst k.
      destruct (elt =? c)%N; reflexivity.
    + destruct (k =? c)%N eqn:Hkc.
      * apply N.eqb_eq in Hkc. subst k. rewrite N.eqb_sym, Hke. reflexivity.
      * exact IH.
Qed.

Lemma get_chain_loop b : forall i d c,
  get N.eqb (chain_loop b i d) c [] = get N.eqb d c [] ++ indices_from c b i.
Proof.
  induction b as [|x b IH]; intros i d c; simpl.
  - now rewrite app_nil_r.
  - rewrite IH, get_setdefault_append.
    destruct (x =? c)%N; [now rewrite <- app_assoc | reflexivity].
Qed.

Lemma get_del_all ks d c :
  get N.eqb (del_all ks d) c [] =
  if mem c ks then [] else get N.eqb d c [].
Proof.
  induction d as [|[k v] d IH]; simpl.
  - now destruct (mem c ks).
  - destruct (mem k ks) eqn:Hk; simpl.
    + destruct (k =? c)%N eqn:Hkc; [|exact IH].
      apply N.eqb_eq in Hkc. subst k. now rewrite IH, Hk.
    + destruct (k =? c)%N eqn:Hkc; [|exact IH].
      apply N.eqb_eq in Hkc. subst k. now rewrite Hk.
Qed.

(** What [b2j.get(c, [])] holds: nothing for a popular element, every
    position of [c] in [b] otherwise. *)
Lemma b2j_get a b c :
  get N.eqb (b2j (new_matcher a b)) c [] =
  if mem c (bpopular (new_matcher a b)) then [] else indices_from c b 0.
Proof. unfold new_matcher; simpl. now rewrite get_del_all, get_chain_loop. Qed.

Lemma indices_from_spec c b : forall i j,
  In j (indices_from c b i) <-> i <= j < i + length b /\ at_ b (j - i) = c.
Proof.
  induction b as [|x b IH]; intros i j; simpl.
  - split; [tauto | lia].
  - destruct (x =? c)%N eqn:Hx; simpl; rewrite ?IH; unfold at_.
    + apply N.eqb_eq in Hx. split.
      * intros [<- | [H1 H2]].
        -- rewrite Nat.sub_diag. simpl. split; [lia | exact Hx].
        -- replace (j - i) with (S (j - S i)) by lia. simpl. split; [lia | exact H2].
      * intros [H1 H2]. destruct (Nat.eq_dec i j) as [->|Hne]; [now left | right].
        replace (j - i) with (S (j - S i)) in H2 by lia. simpl in H2. split; [lia | exact H2].
    + apply N.eqb_neq in Hx. split.
      * intros [H1 H2]. replace (j - i) with (S (j - S i)) by lia. simpl. split; [lia | exact H2].
      * intros [H1 H2]. destruct (Nat.eq_dec i j) as [->|Hne].
        -- rewrite Nat.sub_diag in H2. simpl in H2. contradiction.
        -- replace (j - i) with (S (j - S i)) in H2 by lia. simpl in H2. split; [lia | exact H2].
Qed.

Lemma indices_from_lb c b : forall i j, In j (indices_from c b i) -> i <= j.
Proof. intros i j H. apply indices_from_spec in H. lia. Qed.

Lemma indices_from_sorted c b : forall i,
  StronglySorted lt (indices_from c b i).
Proof.
  induction b as [|x b IH]; intros i; simpl.
  - constructor.
  - destruct (x =? c)%N.
    + constructor; [apply IH |].
      apply Forall_forall. intros j Hj. apply indices_from_lb in Hj. lia.
    + apply IH.
Qed.

Lemma get_cons_nat (j k : nat) (d : dict nat nat) x :
  get Nat.eqb ((j, k) :: d) x 0 = if j =? x then k else get Nat.eqb d x 0.
Proof. reflexivity. Qed.

(** *** The longest match when [a] is a prefix of [b] *)

Section PrefixMatch.

Variables a b : str.
Hypothesis Hlen : length a <= length b.
Hypothesis Hpre : forall t, t < length a -> at_ a t = at_ b t.

Let sm := new_matcher a b.

Lemma run_le i : rare_run sm a i <= i.
Proof. induction i; simpl; [lia | destruct (rare sm (at_ a i)); lia]. Qed.

Lemma row_inv_get i j2len :
  row_inv sm a i j2len ->
  (forall j, j2lenget j2len j <= rare_run sm a i) /\
  (forall j, j < i -> j2lenget j2len j <= rare_run sm a j) /\
  j2lenget j2len i = rare_run sm a i.
Proof.
  intros (R1 & R2 & R3). repeat split.
  - intros [|j]; simpl; [lia | apply R1].
  - intros [|j] Hj; simpl; [lia | now apply R2].
  - destruct i as [|i']; simpl; [reflexivity | now apply R3].
Qed.

Lemma flm_inner_diag i j2len :
  i < length a -> rare sm (at_ a i) = true -> row_inv sm a i j2len ->
  forall js newj2len bi bj bs,
    StronglySorted lt js ->
    (forall j, In j js -> j < length b /\ at_ b j = at_ a i) ->
    (forall j, get Nat.eqb newj2len j 0 <= rare_run sm a (S i)) ->
    (forall j, j < i -> get Nat.eqb newj2len j 0 <= rare_run sm a (S j)) ->
    bi = bj -> (forall t, t <= i -> rare_run sm a t <= bs) -> bi + bs <= S i ->
    (~ In i js -> get Nat.eqb newj2len i 0 = rare_run sm a (S i) /\ rare_run sm a (S i) <= bs) ->
    row_inv sm a (S i) (fst (flm_inner 0 (length b) i j2len js newj2len (bi, bj, bs))) /\
    best_inv sm a (S i) (snd (flm_inner 0 (length b) i j2len js newj2len (bi, bj, bs))).
Proof.
  intros Hi Hrare Hrow. apply row_inv_get in Hrow. destruct Hrow as (G1 & G2 & G3).
  assert (HS : rare_run sm a (S i) = S (rare_run sm a i)) by (simpl; now rewrite Hrare).
  induction js as [|j js IH]; intros nj bi bj bs Hsort Hjs N1 N2 Hd B2 B3 Hdone.
  - simpl. destruct (Hdone (fun x => x)) as [D1 D2]. split.
    + repeat split.
      * exact N1.
      * intros j Hj. apply N2. lia.
      * intros i' Hi'. injection Hi' as <-. exact D1.
    + repeat split; [exact Hd | | exact B3].
      intros t Ht. destruct (Nat.eq_dec t (S i)) as [->|Hne]; [exact D2 | apply B2; lia].
  - destruct (Hjs j (or_introl eq_refl)) as [Hjb Hjc].
    inversion Hsort as [|? ? Hsort' Hall]; subst.
    rewrite Forall_forall in Hall.
    cbn [flm_inner]. replace (j <? 0) with false by reflexivity.
    replace (length b <=? j) with false by (symmetry; apply Nat.leb_gt; exact Hjb).
    set (k := j2lenget j2len j + 1).
    assert (Hk1 : k <= rare_run sm a (S i)) by (unfold k; specialize (G1 j); lia).
    assert (Hk2 : j < i -> k <= rare_run sm a (S j)).
    { intros Hlt. unfold k. specialize (G2 j Hlt). simpl.
      rewrite (@Hpre j) by lia. rewrite Hjc, Hrare. lia. }
    assert (Hk3 : j = i -> k = rare_run sm a (S i)) by (intros ->; unfold k; lia).
    assert (Hgt : i < j -> rare_run sm a (S i) <= bs).
    { intros Hlt. apply Hdone. intros [->|Hin]; [lia | apply Hall in Hin; lia]. }
    assert (Hnew : forall x, get Nat.eqb ((j, k) :: nj) x 0 <= rare_run sm a (S i)).
    { intros x. rewrite get_cons_nat. destruct (j =? x); [exact Hk1 | apply N1]. }
    assert (Hnew2 : forall x, x < i -> get Nat.eqb ((j, k) :: nj) x 0 <= rare_run sm a (S x)).
    { intros x Hx. rewrite get_cons_nat. destruct (j =? x) eqn:E; [|now apply N2].
      apply Nat.eqb_eq in E. subst x. now apply Hk2. }
    assert (Hjs' : forall x, In x js -> x < length b /\ at_ b x = at_ a i)
      by (intros x Hx; apply Hjs; now right).
    pose proof (run_le (S i)) as Hrl.
    destruct (bs <? k) eqn:Hupd.
    + apply Nat.ltb_lt in Hupd.
      assert (Hji : j = i).
      { destruct (Nat.lt_trichotomy j i) as [Hlt|[Heq|Hlt]]; [|exact Heq|].
        - specialize (Hk2 Hlt). specialize (B2 (S j) Hlt). lia.
        - specialize (Hgt Hlt). lia. }
      subst j. apply IH; try assumption.
      * reflexivity.
      * intros t Ht. specialize (B2 t Ht). lia.
      * lia.
      * intros _. rewrite get_cons_nat, Nat.eqb_refl. specialize (Hk3 eq_refl). lia.
    + apply Nat.ltb_ge in Hupd. apply IH; try assumption; [reflexivity |].
      intros Hnin. rewrite get_cons_nat.
      destruct (Nat.eq_dec j i) as [->|Hne].
      * rewrite Nat.eqb_refl. specialize (Hk3 eq_refl). lia.
      * replace (j =? i) with false by (symmetry; now apply Nat.eqb_neq).
        apply Hdone. intros [->|Hin]; [now apply Hne | now apply Hnin].
Qed.

Lemma flm_rows_diag n : forall i j2len best,
  i + n = length a -> row_inv sm a i j2len -> best_inv sm a i best ->
  best_inv sm a (length a) (flm_rows sm 0 (length b) n i j2len best).
Proof.
  induction n as [|n IH]; intros i j2len [[bi bj] bs] Hn Hrow Hbest.
  - simpl. now replace (length a) with i by lia.
  - cbn [flm_rows].
    assert (Hi : i < length a) by lia.
    destruct Hbest as (Hd & B2 & B3).
    change (sm_a sm) with a. change (b2j sm) with (b2j (new_matcher a b)).
    rewrite b2j_get. fold sm.
    fold (rare sm (at_ a i)) in *.
    destruct (mem (at_ a i) (bpopular sm)) eqn:Hpop.
    + cbn [flm_inner]. apply IH; [lia | |].
      * assert (H0 : rare_run sm a (S i) = 0) by (simpl; unfold rare; now rewrite Hpop).
        split; [|split].
        -- intros j. cbn [get]. lia.
        -- intros j _. cbn [get]. lia.
        -- intros i' _. cbn [get]. now rewrite H0.
      * repeat split; [exact Hd | | lia].
        intros t Ht. destruct (Nat.eq_dec t (S i)) as [->|Hne]; [|apply B2; lia].
        simpl. unfold rare. rewrite Hpop. simpl. lia.
    + assert (Hrare : rare sm (at_ a i) = true) by (unfold rare; now rewrite Hpop).
      pose proof (@flm_inner_diag i j2len Hi Hrare Hrow
                    (indices_from (at_ a i) b 0) [] bi bj bs) as H.
      destruct (flm_inner 0 (length b) i j2len (indices_from (at_ a i) b 0) []
                  (bi, bj, bs)) as [nj best'].
      simpl in H. destruct H as [H1 H2].
      * apply indices_from_sorted.
      * intros j Hj. apply indices_from_spec in Hj. rewrite Nat.sub_0_r in Hj.
        split; [lia | tauto].
      * intros; lia.
      * intros; lia.
      * exact Hd.
      * exact B2.
      * lia.
      * intros Hnin. exfalso. apply Hnin. apply indices_from_spec.
        rewrite Nat.sub_0_r. split; [lia | symmetry; now apply Hpre].
      * apply IH; [lia | exact H1 | exact H2].
Qed.

Lemma isbjunk_false c : isbjunk sm c = false.
Proof. reflexivity. Qed.

Lemma extend_back_diag p : forall s,
  p <= length a ->
  extend_back sm false 0 0 p p s = (0, 0, s + p).
Proof.
  induction p as [|p IH]; intros s Hp; cbn [extend_back].
  - now rewrite Nat.add_0_r.
  - rewrite isbjunk_false. change (sm_a sm) with a. change (sm_b sm) with b.
    rewrite (@Hpre p) by lia. rewrite N.eqb_refl. cbn [Nat.ltb Nat.leb andb Bool.eqb].
    rewrite IH by lia. f_equal. lia.
Qed.

Lemma extend_fwd_diag fuel : forall s,
  s <= length a -> length a - s <= fuel ->
  extend_fwd fuel sm false (length a) (length b) 0 0 s = length a.
Proof.
  induction fuel as [|fuel IH]; intros s Hs Hf; cbn [extend_fwd].
  - lia.
  - rewrite !Nat.add_0_l. destruct (s <? length a) eqn:Hlt.
    + apply Nat.ltb_lt in Hlt.
      replace (s <? length b) with true by (symmetry; apply Nat.ltb_lt; lia).
      rewrite isbjunk_false. change (sm_a sm) with a. change (sm_b sm) with b.
      rewrite (@Hpre s) by lia. rewrite N.eqb_refl. cbn [andb Bool.eqb].
      apply IH; lia.
    + apply Nat.ltb_ge in Hlt. cbn [andb]. lia.
Qed.

Lemma extend_back_junk p q s alo blo :
  extend_back sm true alo blo p q s = (p, q, s).
Proof.
  destruct p as [|p], q as [|q]; cbn [extend_back]; try reflexivity.
  rewrite isbjunk_false. cbn [Bool.eqb]. now rewrite andb_false_r.
Qed.

Lemma extend_fwd_junk fuel p q s ahi bhi :
  extend_fwd fuel sm true ahi bhi p q s = s.
Proof.
  destruct fuel; cbn [extend_fwd]; [reflexivity |].
  rewrite isbjunk_false. cbn [Bool.eqb]. now rewrite andb_false_r.
Qed.

(** When [a] is a prefix of [b] the longest match is all of [a], at the
    start of both. *)
Lemma find_longest_match_prefix :
  find_longest_match sm 0 (length a) 0 (length b) = mkMatch 0 0 (length a).
Proof.
  unfold find_longest_match.
  assert (H : best_inv sm a (length a)
                (flm_rows sm 0 (length b) (length a) 0 [] (0, 0, 0))).
  { apply flm_rows_diag.
    - lia.
    - split; [|split].
      + intros j. cbn [get rare_run]. lia.
      + intros j Hj. lia.
      + intros i' Hi'. discriminate.
    - split; [reflexivity | split; [|lia]].
      intros t Ht. replace t with 0 by lia. cbn [rare_run]. lia. }
  rewrite Nat.sub_0_r.
  destruct (flm_rows sm 0 (length b) (length a) 0 [] (0, 0, 0)) as [[bi bj] bs].
  destruct H as (Hd & _ & Hb). subst bj.
  rewrite extend_back_diag by lia.
  rewrite (@extend_fwd_diag (length a - (0 + (bs + bi)))) by lia.
  rewrite extend_back_junk, extend_fwd_junk. reflexivity.
Qed.

End PrefixMatch.

End DifflibFacts.

Module DifflibBounds.
Import Difflib.

(** *** Bounds of [find_longest_match], and the fuel of [get_matching_blocks] *)

Section Bounds.

Variable sm : SequenceMatcher.
Variables alo ahi blo bhi : nat.

Lemma flm_inner_bounds i j2len :
  alo <= i ->
  (forall j, get Nat.eqb j2len j 0 <= i - alo) ->
  forall js newj2len bi bj bs,
    (forall j, get Nat.eqb newj2len j 0 <= S i - alo) ->
    alo <= bi -> bi + bs <= S i ->
    let r := flm_inner blo bhi i j2len js newj2len (bi, bj, bs) in
    (forall j, get Nat.eqb (fst r) j 0 <= S i - alo) /\
    alo <= fst (fst (snd r)) /\ fst (fst (snd r)) + snd (snd r) <= S i.
Proof.
  intros Hi Hrow.
  induction js as [|j js IH]; intros nj bi bj bs Hnj Hlo Hhi; cbn [flm_inner].
  - cbn. auto.
  - destruct (j <? blo); [now apply IH |].
    destruct (bhi <=? j); [cbn; auto |].
    assert (Hk : j2lenget j2len j + 1 <= S i - alo).
    { destruct j as [|j]; cbn [j2lenget]; [lia | specialize (Hrow j); lia]. }
    set (k := j2lenget j2len j + 1) in *.
    assert (Hnj' : forall x, get Nat.eqb ((j, k) :: nj) x 0 <= S i - alo).
    { intros x. cbn [get]. destruct (j =? x); [exact Hk | apply Hnj]. }
    destruct (bs <? k); apply IH; try assumption; lia.
Qed.

Lemma flm_rows_bounds n : forall i j2len bi bj bs,
  alo <= i ->
  (forall j, get Nat.eqb j2len j 0 <= i - alo) ->
  alo <= bi -> bi + bs <= i ->
  let r := flm_rows sm blo bhi n i j2len (bi, bj, bs) in
  alo <= fst (fst r) /\ fst (fst r) + snd r <= i + n.
Proof.
  induction n as [|n IH]; intros i j2len bi bj bs Hi Hrow Hlo Hhi; cbn [flm_rows].
  - cbn. lia.
  - pose proof (@flm_inner_bounds i j2len Hi Hrow
                  (get N.eqb (b2j sm) (at_ (sm_a sm) i) []) [] bi bj bs) as H.
    destruct (flm_inner blo bhi i j2len (get N.eqb (b2j sm) (at_ (sm_a sm) i) [])
                [] (bi, bj, bs)) as [nj [[bi' bj'] bs']].
    cbn in H. destruct H as (H1 & H2 & H3); [intros; lia | lia | lia |].
    replace (i + S n) with (S i + n) by lia.
    apply IH; try assumption; lia.
Qed.

(** The same on the side of [b]: a length stored at key [j] is at most
    [j + 1 - blo], so [j + 1 - k] is Python's [j - k + 1] and stays at or
    after [blo]. *)
Lemma flm_inner_bounds_b i j2len :
  (forall j, get Nat.eqb j2len j 0 <= S j - blo) ->
  forall js newj2len bi bj bs,
    (forall j, get Nat.eqb newj2len j 0 <= S j - blo) ->
    blo <= bj ->
    let r := flm_inner blo bhi i j2len js newj2len (bi, bj, bs) in
    (forall j, get Nat.eqb (fst r) j 0 <= S j - blo) /\
    blo <= snd (fst (snd r)).
Proof.
  intros Hrow.
  induction js as [|j js IH]; intros nj bi bj bs Hnj Hlo; cbn [flm_inner].
  - cbn. auto.
  - destruct (j <? blo) eqn:Hj; [now apply IH |].
    apply Nat.ltb_ge in Hj.
    destruct (bhi <=? j); [cbn; auto |].
    assert (Hk : j2lenget j2len j + 1 <= S j - blo).
    { destruct j as [|j]; cbn [j2lenget]; [lia | specialize (Hrow j); lia]. }
    set (k := j2lenget j2len j + 1) in *.
    assert (Hnj' : forall x, get Nat.eqb ((j, k) :: nj) x 0 <= S x - blo).
    { intros x. cbn [get]. destruct (j =? x) eqn:E; [|apply Hnj].
      apply Nat.eqb_eq in E. now subst x. }
    destruct (bs <? k); apply IH; try assumption; lia.
Qed.

Lemma flm_rows_bounds_b n : forall i j2len bi bj bs,
  (forall j, get Nat.eqb j2len j 0 <= S j - blo) ->
  blo <= bj ->
  blo <= snd (fst (flm_rows sm blo bhi n i j2len (bi, bj, bs))).
Proof.
  induction n as [|n IH]; intros i j2len bi bj bs Hrow Hlo; cbn [flm_rows].
  - exact Hlo.
  - pose proof (@flm_inner_bounds_b i j2len Hrow
                  (get N.eqb (b2j sm) (at_ (sm_a sm) i) []) [] bi bj bs) as H.
    destruct (flm_inner blo bhi i j2len (get N.eqb (b2j sm) (at_ (sm_a sm) i) [])
                [] (bi, bj, bs)) as [nj [[bi' bj'] bs']].
    cbn in H. destruct H as (H1 & H2); [intros; lia | lia |].
    now apply IH.
Qed.

Lemma extend_back_bounds junk bi : forall bj bs,
  alo <= bi ->
  let r := extend_back sm junk alo blo bi bj bs in
  alo <= fst (fst r) /\ fst (fst r) + snd r = bi + bs /\ bs <= snd r.
Proof.
  induction bi as [|bi IH]; intros bj bs Hlo; cbn [extend_back].
  - cbn. lia.
  - destruct bj as [|bj]; [cbn; lia |].
    destruct (alo <? S bi) eqn:E; cbn [andb]; [|cbn; lia].
    apply Nat.ltb_lt in E.
    match goal with |- context [if ?c then _ else _] => destruct c end;
      [|cbn; lia].
    specialize (IH bj (S bs)). cbn zeta in IH.
    destruct (extend_back sm junk alo blo bi bj (S bs)) as [[x y] z].
    cbn in *. lia.
Qed.

Lemma extend_fwd_bounds junk bi bj fuel : forall bs,
  let s := extend_fwd fuel sm junk ahi bhi bi bj bs in
  bs <= s /\ (bi + bs <= ahi -> bi + s <= ahi) /\ (ahi <= bi + bs -> s = bs).
Proof.
  induction fuel as [|fuel IH]; intros bs; cbn [extend_fwd]; [cbn; lia |].
  destruct (bi + bs <? ahi) eqn:E; cbn [andb]; [|apply Nat.ltb_ge in E; cbn; lia].
  apply Nat.ltb_lt in E.
  match goal with |- context [if ?c then _ else _] => destruct c end;
    [|cbn; lia].
  specialize (IH (S bs)). cbn zeta in IH. lia.
Qed.

(** The block found lies in [a[alo:ahi]]. *)
Lemma find_longest_match_bounds :
  let m := find_longest_match sm alo ahi blo bhi in
  alo <= m_a m /\ (m_size m = 0 \/ m_a m + m_size m <= ahi).
Proof.
  unfold find_longest_match.
  pose proof (@flm_rows_bounds (ahi - alo) alo [] alo blo 0) as H0.
  destruct (flm_rows sm blo bhi (ahi - alo) alo [] (alo, blo, 0)) as [[b1 c1] s1].
  cbn in H0. destruct H0 as [A1 A2]; [lia | intros; lia | lia | lia |].
  pose proof (@extend_back_bounds false b1 c1 s1 A1) as H1.
  destruct (extend_back sm false alo blo b1 c1 s1) as [[b2 c2] s2].
  cbn in H1. destruct H1 as (B1 & B2 & B3).
  pose proof (@extend_fwd_bounds false b2 c2 (ahi - (b2 + s2)) s2) as H2.
  set (s3 := extend_fwd (ahi - (b2 + s2)) sm false ahi bhi b2 c2 s2) in *.
  cbn zeta in H2. destruct H2 as (C1 & C2 & C3).
  pose proof (@extend_back_bounds true b2 c2 s3 B1) as H3.
  destruct (extend_back sm true alo blo b2 c2 s3) as [[b4 c4] s4].
  cbn in H3. destruct H3 as (D1 & D2 & D3).
  pose proof (@extend_fwd_bounds true b4 c4 (ahi - (b4 + s4)) s4) as H4.
  set (s5 := extend_fwd (ahi - (b4 + s4)) sm true ahi bhi b4 c4 s4) in *.
  cbn zeta in H4. destruct H4 as (E1 & E2 & E3).
  cbn. split; [exact D1 |].
  destruct (Nat.le_gt_cases alo ahi) as [Hle|Hgt].
  - right. lia.
  - left.
    assert (b1 = alo /\ s1 = 0) as [-> ->].
    { revert A1 A2. replace (ahi - alo) with 0 by lia. lia. }
    lia.
Qed.

End Bounds.

(** [blocks_fuel] is enough: once the fuel covers the range_weight of the queue,
    more fuel changes nothing, so the loop has stopped on an empty queue. *)
Lemma blocks_loop_fuel sm : forall fuel queue acc,
  queue_weight queue <= fuel ->
  forall fuel', fuel <= fuel' ->
  blocks_loop fuel' sm queue acc = blocks_loop fuel sm queue acc.
Proof.
  induction fuel as [|fuel IH]; intros queue acc Htot fuel' Hle.
  - destruct queue as [|[[[alo ahi] blo] bhi] queue].
    + now destruct fuel'.
    + cbn in Htot. lia.
  - destruct fuel' as [|fuel']; [lia |].
    destruct queue as [|[[[alo ahi] blo] bhi] queue]; [reflexivity |].
    cbn [blocks_loop].
    pose proof (find_longest_match_bounds sm alo ahi blo bhi) as Hb.
    cbn zeta in Hb.
    set (x := find_longest_match sm alo ahi blo bhi) in *.
    cbn [queue_weight fold_right range_weight] in Htot. fold (queue_weight queue) in Htot.
    destruct Hb as [Hb1 Hb2].
    destruct (m_size x =? 0) eqn:Hk.
    + apply IH; lia.
    + apply Nat.eqb_neq in Hk. apply IH; [|lia].
      destruct Hb2 as [Hb2|Hb2]; [contradiction |].
      destruct ((alo <? m_a x) && (blo <? m_b x));
        destruct ((m_a x + m_size x <? ahi) && (m_b x + m_size x <? bhi));
        cbn [queue_weight fold_right range_weight]; fold (queue_weight queue); lia.
Qed.

Lemma get_matching_blocks_fuel sm n :
  blocks_fuel sm <= n ->
  blocks_loop n sm [(0, length (sm_a sm), 0, length (sm_b sm))] [] =
  blocks_loop (blocks_fuel sm) sm [(0, length (sm_a sm), 0, length (sm_b sm))] [].
Proof.
  intros Hn. apply blocks_loop_fuel; [|exact Hn].
  unfold blocks_fuel. cbn. lia.
Qed.

End DifflibBounds.

Module DiffFacts.
Import Difflib DifflibFacts.

Lemma startswith_spec p : forall s,
  startswith p s = true ->
  length p <= length s /\ forall t, t < length p -> at_ p t = at_ s t.
Proof.
  induction p as [|x p IH]; intros s H.
  - cbn. split; [lia | intros; lia].
  - destruct s as [|y s]; [discriminate |].
    cbn [startswith] in H. apply andb_prop in H. destruct H as [Hxy H].
    apply N.eqb_eq in Hxy. subst y. destruct (IH s H) as [H1 H2].
    split; [cbn; lia |].
    intros [|t] Ht; [reflexivity |]. unfold at_ in *. cbn [nth].
    apply H2. cbn in Ht. lia.
Qed.

Lemma startswith_refl s : startswith s s = true.
Proof. induction s as [|x s IH]; cbn; [reflexivity | now rewrite N.eqb_refl]. Qed.

(** The longest match of a text with one that starts with it. *)
Lemma longest_match_startswith old new :
  startswith old new = true ->
  find_longest_match (new_matcher old new) 0 (length old) 0 (length new) =
  mkMatch 0 0 (length old).
Proof.
  intros H. apply startswith_spec in H. destruct H as [H1 H2].
  now apply find_longest_match_prefix.
Qed.

Lemma get_opcodes_self s :
  s <> [] ->
  get_opcodes (new_matcher s s) = [(equal, 0, length s, 0, length s)].
Proof.
  intros Hs.
  assert (Hl : length s <> 0) by (destruct s; [congruence | discriminate]).
  unfold get_opcodes, get_matching_blocks, blocks_fuel.
  change (sm_a (new_matcher s s)) with s. change (sm_b (new_matcher s s)) with s.
  replace (2 * length s + 1) with (S (S (2 * length s - 1))) by lia.
  cbn [blocks_loop].
  rewrite (longest_match_startswith s s (startswith_refl s)).
  cbn [m_a m_b m_size].
  replace (length s =? 0) with false by (symmetry; now apply Nat.eqb_neq).
  rewrite Nat.ltb_irrefl. cbn [Nat.add andb].
  rewrite Nat.ltb_irrefl. cbn [andb app sort fold_right insert_sorted collapse
    m_a m_b m_size Nat.add Nat.eqb].
  replace (length s =? 0) with false by (symmetry; now apply Nat.eqb_neq).
  cbn [app opcodes_loop m_a m_b m_size Nat.add].
  rewrite !Nat.ltb_irrefl. cbn [andb app Nat.eqb].
  replace (length s =? 0) with false by (symmetry; now apply Nat.eqb_neq).
  reflexivity.
Qed.

(** C2's shortcut: a text that starts with [old] and is longer. *)
Lemma find_diff_suffix old new :
  startswith old new = true -> length old < length new ->
  find_diff old new = skipn (length old) new.
Proof.
  intros Hp Hl. unfold find_diff.
  destruct old as [|c old]; [reflexivity |]. cbn [truthy negb].
  rewrite (longest_match_startswith _ _ Hp). cbn [m_a m_b Nat.eqb andb].
  now replace (length (c :: old) <? length new) with true
    by (symmetry; now apply Nat.ltb_lt).
Qed.

(** No self-diff. *)
Lemma find_diff_self s : find_diff s s = [].
Proof.
  unfold find_diff. destruct s as [|c s]; [reflexivity |]. cbn [truthy negb].
  rewrite Nat.ltb_irrefl, andb_false_r.
  rewrite get_opcodes_self by discriminate. reflexivity.
Qed.

End DiffFacts.

(** * Facts about [process_subtitle] *)

Module ProcessFacts.

Lemma eqb_refl s : Str.eqb s s = true.
Proof. unfold Str.eqb. destruct (list_eq_dec N.eq_dec s s); congruence. Qed.

Lemma eqb_eq x y : Str.eqb x y = true <-> x = y.
Proof. unfold Str.eqb. destruct (list_eq_dec N.eq_dec x y); split; congruence. Qed.

Lemma truthy_true s : truthy s = true <-> s <> [].
Proof. destruct s; cbn; split; congruence. Qed.

Lemma clean_duplicates_nil : clean_duplicates [] = [].
Proof. reflexivity. Qed.

(** A changed snapshot is needed for a delta that is not blank. *)
Lemma delta_needs_change w cur :
  strip (delta_of w cur) <> [] -> Str.eqb cur (latest_text (self w)) = false.
Proof.
  intros H. destruct (Str.eqb cur (latest_text (self w))) eqn:E; [|reflexivity].
  apply eqb_eq in E. subst cur. unfold delta_of in H.
  rewrite DiffFacts.find_diff_self in H. now elim H.
Qed.

Lemma storage_ok_at w n k :
  storage_ok w n -> use_sqlite (self w) = true -> k < n ->
  db_fails (oracle w) (db_calls w + k) = false.
Proof. intros H Hs Hk. now apply H. Qed.

(** What the boundary branch (lines 246-262) does to the accumulator, the
    console and the phrase history, when the store takes the phrase. *)
Lemma boundary_branch w cur :
  strip (delta_of w cur) <> [] ->
  Qlt_bool (elapsed_of w) 2 = false ->
  storage_ok w 3 ->
  let w' := snd (process_subtitle cur w) in
  current_phrase (self w') = delta_of w cur /\
  console w' =
    console w
    ++ debug_lines w (DebugLine warning
                        (DetectedChange (elapsed_of w) (delta_of w cur)))
    ++ (if truthy (current_phrase (self w))
        then [Printed newline newline] else [])
    ++ [Printed separator newline; Printed (delta_of w cur) newline] /\
  phrase_log (self w') =
    phrase_log (self w)
    ++ (if truthy (current_phrase (self w))
        then [mkPhrase (current_phrase (self w)) (last_update_time (self w))
                       (now_of w)]
        else []).
Proof.
  intros Hd Hq Hok. pose proof (delta_needs_change w cur Hd) as Hne.
  apply truthy_true in Hd.
  unfold delta_of, elapsed_of, now_of, debug_lines in *.
  destruct w as [[dbg lut cp ph st] con cr dc e].
  destruct st as [subs phs|db].
  - pose proof (storage_ok_at (k := 0) Hok eq_refl ltac:(lia)) as F0.
    pose proof (storage_ok_at (k := 1) Hok eq_refl ltac:(lia)) as F1.
    pose proof (storage_ok_at (k := 2) Hok eq_refl ltac:(lia)) as F2.
    clear Hok. world_fields.
    rewrite Nat.add_0_r in F0. rewrite Nat.add_1_r in F1.
    replace (dc + 2) with (S (S dc)) in F2 by lia.
    py_unfold. world_fields. rewrite F0. world_fields. rewrite Hne. world_fields.
    rewrite Hd. world_fields. rewrite Hq.
    destruct dbg; world_fields; destruct (truthy cp) eqn:Hcp; world_fields;
      rewrite ?F1; world_fields; rewrite ?F2; world_fields;
      repeat (break_if; world_fields);
      rewrite ?map_app, <- ?app_assoc, ?app_nil_r; cbn [map phrase_cols app];
      repeat split; reflexivity.
  - clear Hok. world_fields.
    py_unfold. world_fields. rewrite Hne. world_fields.
    rewrite Hd. world_fields. rewrite Hq.
    destruct dbg; world_fields; destruct (truthy cp) eqn:Hcp; world_fields;
      rewrite <- ?app_assoc, ?app_nil_r; cbn [app];
      repeat split; reflexivity.
Qed.

Lemma process_subtitle_noop_self w cur :
  cur = latest_text (self w) \/ strip (delta_of w cur) = [] ->
  self (snd (process_subtitle cur w)) = self w /\
  console (snd (process_subtitle cur w)) = console w.
Proof.
  unfold delta_of.
  destruct w as [[dbg lut cp ph st] con cr dc e]. world_fields.
  intros H. py_unfold. world_fields.
  destruct st as [subs phs|db]; world_fields.
  - destruct (db_fails e dc); world_fields; [now split |].
    destruct (Str.eqb cur _) eqn:E; world_fields; [now split |].
    destruct H as [H|H]; [subst cur; now rewrite eqb_refl in E |].
    rewrite H. cbn [truthy negb]. world_fields. now split.
  - destruct (Str.eqb cur _) eqn:E; world_fields; [now split |].
    destruct H as [H|H]; [subst cur; now rewrite eqb_refl in E |].
    rewrite H. cbn [truthy negb]. world_fields. now split.
Qed.

(** A processed update whose store calls all succeed: the result, the
    snapshot written and the two clock readings. *)
Lemma processed_update w cur :
  strip (delta_of w cur) <> [] ->
  storage_ok w 5 ->
  let r := process_subtitle cur w in
  fst r = Ok tt /\
  written_snapshot (self (snd r)) =
    Some (cur, clock (oracle w) (S (clock_reads w))) /\
  last_update_time (self (snd r)) = now_of w /\
  current_phrase (self (snd r)) = next_phrase w cur /\
  clock_reads (snd r) = S (S (clock_reads w)).
Proof.
  intros Hd Hok. pose proof (delta_needs_change w cur Hd) as Hne.
  apply truthy_true in Hd.
  unfold next_phrase, delta_of, elapsed_of, now_of, debug_lines in *.
  destruct w as [[dbg lut cp ph st] con cr dc e].
  destruct st as [subs phs|db].
  - pose proof (storage_ok_at (k := 0) Hok eq_refl ltac:(lia)) as F0.
    pose proof (storage_ok_at (k := 1) Hok eq_refl ltac:(lia)) as F1.
    pose proof (storage_ok_at (k := 2) Hok eq_refl ltac:(lia)) as F2.
    pose proof (storage_ok_at (k := 3) Hok eq_refl ltac:(lia)) as F3.
    pose proof (storage_ok_at (k := 4) Hok eq_refl ltac:(lia)) as F4.
    clear Hok. world_fields.
    rewrite Nat.add_0_r in F0. rewrite Nat.add_1_r in F1.
    replace (dc + 2) with (S (S dc)) in F2 by lia.
    replace (dc + 3) with (S (S (S dc))) in F3 by lia.
    replace (dc + 4) with (S (S (S (S dc)))) in F4 by lia.
    py_unfold. world_fields. rewrite F0. world_fields. rewrite Hne. world_fields.
    rewrite Hd. world_fields.
    destruct (Qlt_bool _ 2); destruct dbg; world_fields;
      destruct (truthy cp) eqn:Hcp; world_fields;
      try (destruct (contains cp cur); world_fields);
      rewrite ?F1; world_fields; rewrite ?F2; world_fields;
      rewrite ?F3; world_fields; rewrite ?F4; world_fields;
      rewrite ?rev_unit; repeat split; reflexivity.
  - clear Hok. world_fields.
    py_unfold. world_fields. rewrite Hne. world_fields.
    rewrite Hd. world_fields.
    destruct (Qlt_bool _ 2); destruct dbg; world_fields;
      destruct (truthy cp) eqn:Hcp; world_fields;
      try (destruct (contains cp cur); world_fields);
      repeat split; reflexivity.
Qed.

(** The write of step 8 raises: the exception leaves [process_subtitle], the
    accumulator keeps its new value and [last_update_time] its old one. *)
Lemma write_failure w cur :
  use_sqlite (self w) = true ->
  strip (delta_of w cur) <> [] ->
  (forall k, k < calls_before_write w ->
             db_fails (oracle w) (db_calls w + k) = false) ->
  db_fails (oracle w) (db_calls w + calls_before_write w) = true \/
  db_fails (oracle w) (db_calls w + calls_before_write w + 1) = true ->
  let r := process_subtitle cur w in
  fst r = Raised sqlite3_Error /\
  current_phrase (self (snd r)) = next_phrase w cur /\
  last_update_time (self (snd r)) = last_update_time (self w).
Proof.
  intros Hs Hd Hok Hfail. pose proof (delta_needs_change w cur Hd) as Hne.
  apply truthy_true in Hd.
  unfold calls_before_write, next_phrase, delta_of, elapsed_of, now_of in *.
  destruct w as [[dbg lut cp ph st] con cr dc e].
  destruct st as [subs phs|db]; [|discriminate]. clear Hs.
  world_fields.
  py_unfold. world_fields.
  destruct (Qlt_bool _ 2) eqn:Hq; cbn [negb andb] in *.
  - pose proof (Hok 0 ltac:(lia)) as F0. rewrite Nat.add_0_r in F0.
    rewrite Nat.add_1_r in Hfail.
    replace (S dc + 1) with (S (S dc)) in Hfail by lia.
    rewrite F0. world_fields. rewrite Hne. world_fields.
    rewrite Hd. world_fields. rewrite Hq.
    destruct dbg; world_fields; destruct (truthy cp) eqn:Hcp; world_fields;
      try (destruct (contains cp cur); world_fields);
      (destruct (db_fails e (S dc)) eqn:G1; world_fields;
       [repeat split; reflexivity |]);
      (destruct Hfail as [Hf|Hf]; [discriminate |]);
      rewrite Hf; world_fields; repeat split; reflexivity.
  - destruct (truthy cp) eqn:Hcp.
    + pose proof (Hok 0 ltac:(lia)) as F0. rewrite Nat.add_0_r in F0.
      pose proof (Hok 1 ltac:(lia)) as F1. rewrite Nat.add_1_r in F1.
      pose proof (Hok 2 ltac:(lia)) as F2.
      replace (dc + 2) with (S (S dc)) in F2 by lia.
      replace (dc + 3) with (S (S (S dc))) in Hfail by lia.
      replace (S (S (S dc)) + 1) with (S (S (S (S dc)))) in Hfail by lia.
      rewrite F0. world_fields. rewrite Hne. world_fields.
      rewrite Hd. world_fields. rewrite Hq.
      destruct dbg; world_fields; rewrite Hcp; world_fields;
        rewrite F1; world_fields; rewrite F2; world_fields;
        (destruct (db_fails e (S (S (S dc)))) eqn:G1; world_fields;
         [repeat split; reflexivity |]);
        (destruct Hfail as [Hf|Hf]; [discriminate |]);
        rewrite Hf; world_fields; repeat split; reflexivity.
    + pose proof (Hok 0 ltac:(lia)) as F0. rewrite Nat.add_0_r in F0.
      rewrite Nat.add_1_r in Hfail.
      replace (S dc + 1) with (S (S dc)) in Hfail by lia.
      rewrite F0. world_fields. rewrite Hne. world_fields.
      rewrite Hd. world_fields. rewrite Hq.
      destruct dbg; world_fields; rewrite Hcp; world_fields;
        (destruct (db_fails e (S dc)) eqn:G1; world_fields;
         [repeat split; reflexivity |]);
        (destruct Hfail as [Hf|Hf]; [discriminate |]);
        rewrite Hf; world_fields; repeat split; reflexivity.
Qed.

(** [classify] tells what becomes of the accumulator. *)
Lemma classify_spec w u :
  current_phrase (self (snd (process_subtitle u w))) =
  match classify w u with
  | skipped => current_phrase (self w)
  | continued =>
      if contains (current_phrase (self w)) u
      then current_phrase (self w) ++ delta_of w u
      else u
  | began => delta_of w u
  end.
Proof.
  unfold classify, delta_of, elapsed_of, now_of.
  destruct w as [[dbg lut cp ph st] con cr dc e].
  destruct st as [subs phs|db]; py_unfold; world_fields.
  - rewrite Nat.add_1_r. replace (dc + 2) with (S (S dc)) by lia. cbn [andb].
    destruct (db_fails e dc); world_fields; [reflexivity |].
    destruct (Str.eqb u _); world_fields; [reflexivity |].
    destruct (truthy (strip _)); world_fields; [|reflexivity].
    destruct (db_fails e (S dc)) eqn:F1; destruct (db_fails e (S (S dc))) eqn:F2;
      destruct (Qlt_bool _ 2); destruct dbg; world_fields;
      destruct (truthy cp) eqn:Hcp; world_fields; cbn [andb orb];
      try (destruct (contains cp u); world_fields);
      rewrite ?F1, ?F2; world_fields; rewrite ?F1, ?F2; world_fields;
      repeat (break_if; world_fields); reflexivity.
  - cbn [andb].
    destruct (Str.eqb u _); world_fields; [reflexivity |].
    destruct (truthy (strip _)); world_fields; [|reflexivity].
    destruct (Qlt_bool _ 2); destruct dbg; world_fields;
      destruct (truthy cp) eqn:Hcp; world_fields; cbn [andb];
      try (destruct (contains cp u); world_fields); reflexivity.
Qed.

(** One call, whatever its outcome: the phrases it adds all start at the
    old [last_update_time], and [last_update_time] takes the call's
    [update_time] exactly when the call runs to completion. *)
Lemma process_subtitle_step w u :
  let r := process_subtitle u w in
  (exists fresh,
     phrase_log (self (snd r)) = phrase_log (self w) ++ fresh /\
     Forall (fun ph => start_time ph = last_update_time (self w)) fresh) /\
  last_update_time (self (snd r)) =
    if completed w u then now_of w else last_update_time (self w).
Proof.
  unfold completed, delta_of, elapsed_of, now_of.
  destruct w as [[dbg lut cp ph st] con cr dc e].
  destruct st as [subs phs|db]; py_unfold; world_fields.
  - destruct (db_fails e dc); world_fields;
      [split; [exists []; now rewrite app_nil_r | reflexivity] |].
    destruct (Str.eqb u _); world_fields; cbn [andb negb];
      [split; [exists []; now rewrite app_nil_r | reflexivity] |].
    destruct (truthy (strip _)); world_fields; cbn [andb negb];
      [|split; [exists []; now rewrite app_nil_r | reflexivity]].
    destruct (Qlt_bool _ 2); destruct dbg; world_fields;
      destruct (truthy cp) eqn:Hcp; world_fields;
      try (destruct (contains cp u); world_fields);
      cbn [andb negb];
      repeat (break_if; world_fields; cbn [andb negb]);
      (split; [| reflexivity]);
      first [ exists []; now rewrite app_nil_r
            | eexists; rewrite map_app; split; [reflexivity |];
              repeat constructor ].
  - destruct (Str.eqb u _); world_fields;
      [split; [exists []; now rewrite app_nil_r | reflexivity] |].
    destruct (truthy (strip _)); world_fields;
      [|split; [exists []; now rewrite app_nil_r | reflexivity]].
    destruct (Qlt_bool _ 2); destruct dbg; world_fields;
      destruct (truthy cp) eqn:Hcp; world_fields;
      try (destruct (contains cp u); world_fields);
      cbn [andb negb];
      (split; [| reflexivity]);
      first [ exists []; now rewrite app_nil_r
            | eexists; split; [reflexivity |]; repeat constructor ].
Qed.

Lemma finalized_start_times updates : forall w,
  Forall (fun x => start_time (fst x) = snd x)
         (finalized completed updates (last_update_time (self w)) w).
Proof.
  induction updates as [|u updates IH]; intros w; [constructor |].
  cbn [finalized].
  destruct (process_subtitle_step w u) as [[fresh [Hlog Hst]] Hlut].
  rewrite Hlog, skipn_app, skipn_all, Nat.sub_diag. cbn [app skipn].
  apply Forall_app. split.
  - apply Forall_map. exact Hst.
  - rewrite <- Hlut. apply IH.
Qed.

(** The phrases [finalized] lists are those the sequence of calls adds to
    the history, in order. *)
Lemma finalized_all track updates : forall ghost w,
  phrase_log (self (session updates w)) =
  phrase_log (self w) ++ map fst (finalized track updates ghost w).
Proof.
  induction updates as [|u updates IH]; intros ghost w;
    cbn [finalized session map]; [now rewrite app_nil_r |].
  destruct (process_subtitle_step w u) as [[fresh [Hlog _]] _].
  rewrite (IH (if track w u then now_of w else ghost)).
  rewrite Hlog, skipn_app, skipn_all, Nat.sub_diag. cbn [app skipn].
  rewrite map_app, map_map. cbn [fst]. rewrite map_id.
  now rewrite <- app_assoc.
Qed.

End ProcessFacts.

(** * Further facts *)

Module MoreStrFacts.

Lemma subseq_refl {A} (l : list A) : subseq l l.
Proof. induction l; constructor; assumption. Qed.

Lemma subseq_skipn {A} n : forall (s l : list A),
  subseq s (skipn n l) -> subseq s l.
Proof.
  induction n as [|n IH]; intros s l H; [exact H |].
  destruct l as [|x l]; [exact H |]. cbn [skipn] in H.
  constructor. now apply IH.
Qed.

Lemma subseq_length {A} (s l : list A) : subseq s l -> length s <= length l.
Proof. induction 1; cbn; lia. Qed.

Lemma scan_subseq ws : subseq (scan ws) ws.
Proof.
  induction ws as [|w1 tl IH1 IH3] using StrFacts.scan_ind; [constructor |].
  rewrite StrFacts.scan_step. destruct (_ && _).
  - now apply (@subseq_skipn _ 3).
  - now constructor.
Qed.

Lemma contains_nil p : p <> [] -> contains p [] = false.
Proof. destruct p; [congruence | reflexivity]. Qed.

Lemma join3_not_nil (l : list str) :
  3 <= length l -> join [space] (firstn 3 l) <> [].
Proof.
  destruct l as [|w1 [|w2 [|w3 rest]]]; cbn [length]; try lia.
  intros _. cbn [firstn join]. destruct w1; discriminate.
Qed.

Lemma scan_not_nil ws : ws <> [] -> scan ws <> [].
Proof.
  induction ws as [|w1 tl IH1 IH3] using StrFacts.scan_ind; [congruence |].
  intros _. rewrite StrFacts.scan_step.
  destruct (3 <=? length (w1 :: tl)) eqn:E; cbn [andb]; [|discriminate].
  destruct (contains _ _) eqn:C; [|discriminate].
  apply IH3. intros Hnil. rewrite Hnil in C. cbn [join] in C.
  rewrite contains_nil in C; [discriminate |].
  apply join3_not_nil. now apply Nat.leb_le.
Qed.

Lemma lstrip_nil_iff s : lstrip s = [] <-> split s = [].
Proof.
  induction s as [|c s IH]; [tauto |].
  rewrite StrFacts.split_cons. cbn [lstrip].
  destruct (isspace c); [exact IH |].
  split; [discriminate |].
  destruct s as [|d s]; [discriminate |].
  destruct (isspace d); [discriminate |].
  destruct (split (d :: s)); discriminate.
Qed.

Lemma lstrip_head s :
  lstrip s = [] \/ exists c r, lstrip s = c :: r /\ isspace c = false.
Proof.
  induction s as [|c s IH]; [now left |].
  cbn [lstrip]. destruct (isspace c) eqn:E; [exact IH |].
  right. now exists c, s.
Qed.

Lemma lstrip_app_ink l c : isspace c = false -> lstrip (l ++ [c]) <> [].
Proof.
  intros Hc. induction l as [|x l IH]; cbn [app lstrip].
  - rewrite Hc. discriminate.
  - destruct (isspace x); [exact IH | discriminate].
Qed.

Lemma strip_nil_iff s : strip s = [] <-> split s = [].
Proof.
  rewrite <- lstrip_nil_iff. unfold strip. split.
  - intros H. destruct (lstrip_head s) as [E|[c [r [E Hc]]]]; [exact E |].
    rewrite E in H. unfold rstrip in H. cbn [rev] in H.
    exfalso. apply (@lstrip_app_ink (rev r) c Hc).
    apply (f_equal (@rev char)) in H. now rewrite rev_involutive in H.
  - intros ->. reflexivity.
Qed.

Lemma split_nil_iff_ink s : split s = [] <-> has_ink s = false.
Proof.
  rewrite <- lstrip_nil_iff. unfold has_ink.
  induction s as [|c s IH]; [tauto |].
  cbn [lstrip existsb]. destruct (isspace c); cbn [negb orb]; [exact IH |].
  split; discriminate.
Qed.

Lemma has_ink_true s :
  has_ink s = true <-> exists c, In c s /\ isspace c = false.
Proof.
  unfold has_ink. rewrite existsb_exists. split; intros [c [H1 H2]]; exists c.
  - split; [exact H1 | now apply negb_true_iff].
  - split; [exact H1 | now apply negb_true_iff].
Qed.

(** [clean_duplicates] keeps a subsequence of the words. *)
Lemma clean_subseq t : subseq (split (clean_duplicates t)) (split t).
Proof.
  destruct (Nat.leb_spec (length (split t)) 3) as [Hle|Hgt].
  - rewrite StrFacts.clean_duplicates_scan.
    replace (length (split t) <=? 3) with true by (symmetry; now apply Nat.leb_le).
    apply subseq_refl.
  - rewrite StrFacts.split_clean_long by exact Hgt.
    apply scan_subseq.
Qed.

(** Its result is blank exactly when its input is. *)
Lemma clean_blank t : strip (clean_duplicates t) = [] <-> strip t = [].
Proof.
  rewrite !strip_nil_iff.
  destruct (Nat.leb_spec (length (split t)) 3) as [Hle|Hgt].
  - rewrite StrFacts.clean_duplicates_scan.
    now replace (length (split t) <=? 3) with true by (symmetry; now apply Nat.leb_le).
  - rewrite StrFacts.split_clean_long by exact Hgt. split.
    + intros H. exfalso. apply (@scan_not_nil (split t)); [|exact H].
      destruct (split t); [cbn in Hgt; lia | discriminate].
    + intros H. rewrite H in Hgt. cbn in Hgt. lia.
Qed.

End MoreStrFacts.

Module DifflibBox.
Import Difflib DifflibBounds.

Section Box.

Variable sm : SequenceMatcher.
Variables alo ahi blo bhi : nat.

Lemma flm_inner_hi_b i j2len :
  (forall j, get Nat.eqb j2len j 0 <= S j - blo) ->
  forall js newj2len bi bj bs,
    bj + bs <= bhi ->
    snd (fst (snd (flm_inner blo bhi i j2len js newj2len (bi, bj, bs)))) +
    snd (snd (flm_inner blo bhi i j2len js newj2len (bi, bj, bs))) <= bhi.
Proof.
  intros Hrow.
  induction js as [|j js IH]; intros nj bi bj bs Hhi; cbn [flm_inner].
  - exact Hhi.
  - destruct (j <? blo) eqn:Hj; [now apply IH |].
    apply Nat.ltb_ge in Hj.
    destruct (bhi <=? j) eqn:Hb; [exact Hhi |].
    apply Nat.leb_gt in Hb.
    assert (Hk : j2lenget j2len j + 1 <= S j - blo).
    { destruct j as [|j]; cbn [j2lenget]; [lia | specialize (Hrow j); lia]. }
    destruct (bs <? j2lenget j2len j + 1); apply IH; lia.
Qed.

Lemma flm_rows_box n : forall i j2len bi bj bs,
  alo <= i -> i + n <= ahi ->
  (forall j, get Nat.eqb j2len j 0 <= i - alo) ->
  (forall j, get Nat.eqb j2len j 0 <= S j - blo) ->
  alo <= bi -> bi + bs <= i -> blo <= bj -> bj + bs <= bhi ->
  let r := flm_rows sm blo bhi n i j2len (bi, bj, bs) in
  alo <= fst (fst r) /\ fst (fst r) + snd r <= ahi /\
  blo <= snd (fst r) /\ snd (fst r) + snd r <= bhi.
Proof.
  induction n as [|n IH];
    intros i j2len bi bj bs Hi Hn Ha Hb A1 A2 B1 B2; cbn [flm_rows].
  - cbn. lia.
  - pose proof (@flm_inner_bounds alo blo bhi i j2len Hi Ha
                  (get N.eqb (b2j sm) (at_ (sm_a sm) i) []) [] bi bj bs) as H1.
    pose proof (@flm_inner_bounds_b blo bhi i j2len Hb
                  (get N.eqb (b2j sm) (at_ (sm_a sm) i) []) [] bi bj bs) as H2.
    pose proof (@flm_inner_hi_b i j2len Hb
                  (get N.eqb (b2j sm) (at_ (sm_a sm) i) []) [] bi bj bs B2) as H3.
    destruct (flm_inner blo bhi i j2len (get N.eqb (b2j sm) (at_ (sm_a sm) i) [])
                [] (bi, bj, bs)) as [nj [[bi' bj'] bs']].
    cbn in H1, H2, H3.
    destruct H1 as (P1 & P2 & P3); [intros; lia | lia | lia |].
    destruct H2 as (Q1 & Q2); [intros; lia | lia |].
    apply IH; try assumption; lia.
Qed.

Lemma extend_back_box junk bi : forall bj bs,
  alo <= bi -> blo <= bj ->
  let r := extend_back sm junk alo blo bi bj bs in
  alo <= fst (fst r) /\ fst (fst r) + snd r = bi + bs /\
  blo <= snd (fst r) /\ snd (fst r) + snd r = bj + bs.
Proof.
  induction bi as [|bi IH]; intros bj bs Ha Hb; cbn [extend_back].
  - cbn. lia.
  - destruct bj as [|bj]; [cbn; lia |].
    destruct (alo <? S bi) eqn:E; cbn [andb]; [|cbn; lia].
    apply Nat.ltb_lt in E.
    destruct (blo <? S bj) eqn:F; cbn [andb]; [|cbn; lia].
    apply Nat.ltb_lt in F.
    match goal with |- context [if ?c then _ else _] => destruct c end;
      [|cbn; lia].
    specialize (IH bj (S bs)). cbn zeta in IH.
    destruct (extend_back sm junk alo blo bi bj (S bs)) as [[x y] z].
    cbn in *. lia.
Qed.

Lemma extend_fwd_box junk bi bj fuel : forall bs,
  bi + bs <= ahi -> bj + bs <= bhi ->
  let s := extend_fwd fuel sm junk ahi bhi bi bj bs in
  bs <= s /\ bi + s <= ahi /\ bj + s <= bhi.
Proof.
  induction fuel as [|fuel IH]; intros bs Ha Hb; cbn [extend_fwd]; [cbn; lia |].
  destruct (bi + bs <? ahi) eqn:E; cbn [andb]; [|cbn; lia].
  apply Nat.ltb_lt in E.
  destruct (bj + bs <? bhi) eqn:F; cbn [andb]; [|cbn; lia].
  apply Nat.ltb_lt in F.
  match goal with |- context [if ?c then _ else _] => destruct c end;
    [|cbn; lia].
  specialize (IH (S bs)). cbn zeta in IH. lia.
Qed.

(** The block found lies in [a[alo:ahi]] and in [b[blo:bhi]]. *)
Lemma find_longest_match_box :
  alo <= ahi -> blo <= bhi ->
  let m := find_longest_match sm alo ahi blo bhi in
  alo <= m_a m /\ m_a m + m_size m <= ahi /\
  blo <= m_b m /\ m_b m + m_size m <= bhi.
Proof.
  intros Ha Hb. unfold find_longest_match.
  pose proof (@flm_rows_box (ahi - alo) alo [] alo blo 0) as H0.
  destruct (flm_rows sm blo bhi (ahi - alo) alo [] (alo, blo, 0)) as [[b1 c1] s1].
  cbn in H0.
  destruct H0 as (A1 & A2 & A3 & A4); [intros; cbn; lia .. |].
  pose proof (@extend_back_box false b1 c1 s1 A1 A3) as H1.
  destruct (extend_back sm false alo blo b1 c1 s1) as [[b2 c2] s2].
  cbn in H1. destruct H1 as (B1 & B2 & B3 & B4).
  pose proof (@extend_fwd_box false b2 c2 (ahi - (b2 + s2)) s2) as H2.
  set (s3 := extend_fwd (ahi - (b2 + s2)) sm false ahi bhi b2 c2 s2) in *.
  cbn zeta in H2. destruct H2 as (C1 & C2 & C3); [lia | lia |].
  pose proof (@extend_back_box true b2 c2 s3 B1 B3) as H3.
  destruct (extend_back sm true alo blo b2 c2 s3) as [[b4 c4] s4].
  cbn in H3. destruct H3 as (D1 & D2 & D3 & D4).
  pose proof (@extend_fwd_box true b4 c4 (ahi - (b4 + s4)) s4) as H4.
  set (s5 := extend_fwd (ahi - (b4 + s4)) sm true ahi bhi b4 c4 s4) in *.
  cbn zeta in H4. destruct H4 as (E1 & E2 & E3); [lia | lia |].
  cbn. lia.
Qed.

End Box.

End DifflibBox.

Module BlockOrder.
Import Difflib DifflibBox.

Lemma range_apart_in c r r' :
  range_in c r -> range_apart r r' -> range_apart c r'.
Proof.
  destruct c as [[[a1 a2] b1] b2], r as [[[a3 a4] b3] b4],
           r' as [[[a5 a6] b5] b6].
  unfold range_in, range_apart. lia.
Qed.

Lemma block_apart_in x c r :
  range_in c r -> block_apart x r -> block_apart x c.
Proof.
  destruct c as [[[a1 a2] b1] b2], r as [[[a3 a4] b3] b4].
  unfold range_in, block_apart. lia.
Qed.

Lemma range_ok_in la lb c r : range_in c r -> range_ok la lb r -> range_ok la lb c.
Proof.
  destruct c as [[[a1 a2] b1] b2], r as [[[a3 a4] b3] b4].
  unfold range_in, range_ok. lia.
Qed.

Lemma FOP_snoc {A} (R : A -> A -> Prop) l x :
  ForallOrdPairs R l -> Forall (fun y => R y x) l -> ForallOrdPairs R (l ++ [x]).
Proof.
  induction 1 as [|y l Hy Hl IH]; intros Hx; cbn [app].
  - constructor; constructor.
  - inversion Hx; subst. constructor; [|now apply IH].
    apply Forall_app. split; [exact Hy | now constructor].
Qed.

Lemma blocks_inv_push la lb c queue acc :
  blocks_inv la lb queue acc ->
  range_ok la lb c ->
  Forall (range_apart c) queue ->
  Forall (fun x => block_apart x c) acc ->
  blocks_inv la lb (c :: queue) acc.
Proof.
  intros (H1 & H2 & H3 & H4 & H5) Hc Hq Ha.
  repeat split; try assumption.
  - now constructor.
  - now constructor.
  - rewrite Forall_forall in *. intros x Hx.
    constructor; [now apply Ha | now apply H5].
Qed.

Lemma blocks_inv_snoc la lb x queue acc :
  blocks_inv la lb queue acc ->
  block_ok la lb x ->
  Forall (fun y => apart y x) acc ->
  Forall (block_apart x) queue ->
  blocks_inv la lb queue (acc ++ [x]).
Proof.
  intros (H1 & H2 & H3 & H4 & H5) Hx Ha Hq.
  repeat split; try assumption.
  - apply Forall_app. split; [exact H3 | now constructor].
  - now apply FOP_snoc.
  - apply Forall_app. split; [exact H5 | now constructor].
Qed.

Lemma blocks_inv_pop la lb r queue acc :
  blocks_inv la lb (r :: queue) acc ->
  blocks_inv la lb queue acc /\ range_ok la lb r /\
  Forall (range_apart r) queue /\ Forall (fun x => block_apart x r) acc.
Proof.
  intros (H1 & H2 & H3 & H4 & H5).
  inversion H1; subst. inversion H2; subst.
  repeat split; try assumption.
  - rewrite Forall_forall in *. intros x Hx. specialize (H5 x Hx).
    now inversion H5.
  - rewrite Forall_forall in *. intros x Hx. specialize (H5 x Hx).
    now inversion H5.
Qed.

(** Whatever the fuel, the blocks collected are pairwise apart and lie in
    the two texts. *)
Lemma blocks_loop_apart sm la lb fuel : forall queue acc,
  blocks_inv la lb queue acc ->
  Forall (block_ok la lb) (blocks_loop fuel sm queue acc) /\
  ForallOrdPairs apart (blocks_loop fuel sm queue acc).
Proof.
  induction fuel as [|fuel IH]; intros queue acc Hinv; cbn [blocks_loop].
  - destruct Hinv as (_ & _ & H3 & H4 & _). now split.
  - destruct queue as [|[[[alo ahi] blo] bhi] queue].
    + destruct Hinv as (_ & _ & H3 & H4 & _). now split.
    + apply blocks_inv_pop in Hinv. destruct Hinv as (Hinv & Hr & Hq & Ha).
      assert (Hr' := Hr). unfold range_ok in Hr'.
      pose proof (@find_longest_match_box sm alo ahi blo bhi) as Hbox.
      cbn zeta in Hbox.
      set (x := find_longest_match sm alo ahi blo bhi) in *.
      destruct Hbox as (B1 & B2 & B3 & B4); [lia | lia |].
      destruct (m_size x =? 0) eqn:Hk; [now apply IH |].
      apply Nat.eqb_neq in Hk.
      assert (Hx : block_ok la lb x) by (unfold block_ok; lia).
      assert (Hax : Forall (fun y => apart y x) acc).
      { eapply Forall_impl; [|exact Ha]. intros y Hy. cbv beta in Hy.
        unfold block_apart in Hy. unfold apart, before. lia. }
      assert (Hxq : Forall (block_apart x) queue).
      { eapply Forall_impl; [|exact Hq]. intros [[[a5 a6] b5] b6] Hr2.
        unfold range_apart in Hr2. unfold block_apart. lia. }
      pose proof (blocks_inv_snoc Hinv Hx Hax Hxq) as Hinv1.
      set (left := (alo, m_a x, blo, m_b x)).
      set (right := (m_a x + m_size x, ahi, m_b x + m_size x, bhi)).
      assert (Lin : range_in left (alo, ahi, blo, bhi))
        by (unfold range_in, left; lia).
      assert (Rin : range_in right (alo, ahi, blo, bhi))
        by (unfold range_in, right; lia).
      assert (Hacc_r : forall c, range_in c (alo, ahi, blo, bhi) ->
                block_apart x c ->
                Forall (fun y => block_apart y c) (acc ++ [x])).
      { intros c Hc Hxc. apply Forall_app. split; [|now constructor].
        eapply Forall_impl; [|exact Ha]. intros y Hy.
        exact (@block_apart_in y c _ Hc Hy). }
      assert (Hq_r : forall c, range_in c (alo, ahi, blo, bhi) ->
                Forall (range_apart c) queue).
      { intros c Hc. eapply Forall_impl; [|exact Hq]. intros r' Hr2.
        exact (@range_apart_in c _ r' Hc Hr2). }
      assert (Lx : block_apart x left) by (unfold block_apart, left; lia).
      assert (Rx : block_apart x right) by (unfold block_apart, right; lia).
      assert (RL : range_apart right left) by (unfold range_apart, right, left; lia).
      assert (Hinv2 : blocks_inv la lb
                (if (alo <? m_a x) && (blo <? m_b x) then left :: queue else queue)
                (acc ++ [x])).
      { destruct ((alo <? m_a x) && (blo <? m_b x)); [|exact Hinv1].
        apply blocks_inv_push; try assumption.
        - exact (@range_ok_in la lb _ _ Lin Hr).
        - now apply Hq_r.
        - now apply Hacc_r. }
      apply IH.
      destruct ((m_a x + m_size x <? ahi) && (m_b x + m_size x <? bhi));
        [|exact Hinv2].
      apply blocks_inv_push; try assumption.
      * exact (@range_ok_in la lb _ _ Rin Hr).
      * destruct ((alo <? m_a x) && (blo <? m_b x)); [|now apply Hq_r].
        constructor; [exact RL | now apply Hq_r].
      * now apply Hacc_r.
Qed.

End BlockOrder.

Module ChainFacts.
Import Difflib BlockOrder.

Lemma insert_sorted_in x l z :
  In z (insert_sorted x l) -> z = x \/ In z l.
Proof.
  induction l as [|y l IH]; cbn [insert_sorted].
  - intros [<-|[]]. now left.
  - destruct (match_leb x y).
    + intros [<-|H]; [now left | now right].
    + intros [<-|H]; [right; now left |].
      destruct (IH H) as [->|H']; [now left | right; now right].
Qed.

Lemma sort_in l z : In z (sort l) -> In z l.
Proof.
  induction l as [|x l IH]; cbn [sort fold_right]; [tauto |].
  intros H. apply insert_sorted_in in H. destruct H as [->|H].
  - now left.
  - right. now apply IH.
Qed.

Lemma before_trans x y z : before x y -> before y z -> before x z.
Proof. unfold before. lia. Qed.

Lemma insert_sorted_chain x l :
  0 < m_size x -> Forall (fun y => 0 < m_size y) l ->
  Forall (apart x) l ->
  StronglySorted before l ->
  StronglySorted before (insert_sorted x l).
Proof.
  intros Hx Hpos Hap Hs.
  induction Hs as [|y l Hs IH Hy]; cbn [insert_sorted].
  - repeat constructor.
  - inversion Hpos as [|? ? Hpy Hpl]; subst.
    inversion Hap as [|? ? Hxy Hxl]; subst.
    destruct (match_leb x y) eqn:E.
    + assert (Hb : before x y).
      { destruct Hxy as [H|H]; [exact H |].
        unfold before in H. unfold match_leb in E.
        destruct (Nat.ltb_spec (m_a x) (m_a y)); [lia |].
        destruct (Nat.eqb_spec (m_a x) (m_a y)); [lia | discriminate]. }
      constructor; [now constructor |].
      constructor; [exact Hb |].
      eapply Forall_impl; [|exact Hy]. intros z Hz. exact (before_trans Hb Hz).
    + assert (Hb : before y x).
      { destruct Hxy as [H|H]; [|exact H].
        unfold before in H. unfold match_leb in E.
        destruct (Nat.ltb_spec (m_a x) (m_a y)); [discriminate | lia]. }
      constructor; [now apply IH |].
      apply Forall_forall. intros z Hz. apply insert_sorted_in in Hz.
      destruct Hz as [->|Hz]; [exact Hb |].
      rewrite Forall_forall in Hy. now apply Hy.
Qed.

Lemma apart_sym x y : apart x y -> apart y x.
Proof. unfold apart. tauto. Qed.

Lemma sort_chain l :
  Forall (fun y => 0 < m_size y) l -> ForallOrdPairs apart l ->
  StronglySorted before (sort l).
Proof.
  intros Hpos Hap. induction Hap as [|x l Hx Hl IH]; cbn [sort fold_right].
  - constructor.
  - inversion Hpos; subst. apply insert_sorted_chain.
    + assumption.
    + apply Forall_forall. intros z Hz. apply sort_in in Hz.
      rewrite Forall_forall in H2. now apply H2.
    + apply Forall_forall. intros z Hz. apply sort_in in Hz.
      rewrite Forall_forall in Hx. now apply Hx.
    + now apply IH.
Qed.

Lemma sorted_chain_from l : StronglySorted before l ->
  forall i j,
    (forall x, In x l -> i <= m_a x /\ j <= m_b x) -> chain_from i j l.
Proof.
  induction 1 as [|x l Hs IH Hx]; intros i j Hij; cbn [chain_from]; [exact I |].
  destruct (Hij x (or_introl eq_refl)) as [H1 H2].
  repeat split; [exact H1 | exact H2 |].
  apply IH. intros y Hy. rewrite Forall_forall in Hx.
  exact (Hx y Hy).
Qed.

Lemma chain_from_snoc l x : forall i j,
  chain_from i j (l ++ [x]) <->
  chain_from i j l /\
  fst (end_of i j l) <= m_a x /\ snd (end_of i j l) <= m_b x.
Proof.
  induction l as [|y l IH]; intros i j; cbn [app chain_from end_of fst snd].
  - tauto.
  - rewrite IH. tauto.
Qed.

Lemma end_of_snoc l x : forall i j,
  end_of i j (l ++ [x]) = (m_a x + m_size x, m_b x + m_size x).
Proof.
  induction l as [|y l IH]; intros i j; cbn [app end_of]; [reflexivity |].
  apply IH.
Qed.

(** The loop that collapses adjacent blocks keeps a chain a chain. *)
Lemma collapse_chain la lb blocks : forall i1 j1 k1 na,
  chain_from 0 0 na ->
  fst (end_of 0 0 na) <= i1 -> snd (end_of 0 0 na) <= j1 ->
  chain_from (i1 + k1) (j1 + k1) blocks ->
  i1 + k1 <= la -> j1 + k1 <= lb ->
  Forall (block_ok la lb) blocks ->
  let r := collapse blocks i1 j1 k1 na in
  chain_from 0 0 (fst r) /\
  fst (end_of 0 0 (fst r)) <= fst (fst (snd r)) /\
  snd (end_of 0 0 (fst r)) <= snd (fst (snd r)) /\
  fst (fst (snd r)) + snd (snd r) <= la /\
  snd (fst (snd r)) + snd (snd r) <= lb.
Proof.
  induction blocks as [|x blocks IH];
    intros i1 j1 k1 na C1 E1 E2 C3 B1 B2 Hok; cbn [collapse].
  - cbn. auto.
  - inversion Hok as [|? ? (P1 & P2 & P3) Hok']; subst.
    cbn [chain_from] in C3. destruct C3 as (S1 & S2 & C3).
    destruct ((i1 + k1 =? m_a x) && (j1 + k1 =? m_b x)) eqn:Adj.
    + apply andb_prop in Adj. destruct Adj as [A1 A2].
      apply Nat.eqb_eq in A1. apply Nat.eqb_eq in A2.
      apply IH; try assumption.
      * now replace (i1 + (k1 + m_size x)) with (m_a x + m_size x) by lia;
          replace (j1 + (k1 + m_size x)) with (m_b x + m_size x) by lia.
      * lia.
      * lia.
    + destruct (k1 =? 0) eqn:K.
      * apply IH; try assumption; lia.
      * apply IH; try assumption.
        -- apply chain_from_snoc. cbn [m_a m_b]. auto.
        -- rewrite end_of_snoc. cbn [fst m_a m_size]. lia.
        -- rewrite end_of_snoc. cbn [snd m_b m_size]. lia.
Qed.

(** The blocks [get_matching_blocks] returns follow one another from the
    start of both texts. *)
Lemma get_matching_blocks_chain sm :
  chain_from 0 0 (get_matching_blocks sm).
Proof.
  unfold get_matching_blocks.
  set (la := length (sm_a sm)). set (lb := length (sm_b sm)).
  destruct (@blocks_loop_apart sm la lb (blocks_fuel sm) [(0, la, 0, lb)] [])
    as [Hok Hap].
  { repeat split; repeat constructor; unfold range_ok; lia. }
  set (found := blocks_loop (blocks_fuel sm) sm [(0, la, 0, lb)] []) in *.
  assert (Hpos : Forall (fun y => 0 < m_size y) found).
  { eapply Forall_impl; [|exact Hok]. intros y Hy. exact (proj1 Hy). }
  pose proof (sort_chain Hpos Hap) as Hs.
  assert (Hok' : Forall (block_ok la lb) (sort found)).
  { apply Forall_forall. intros z Hz. apply sort_in in Hz.
    rewrite Forall_forall in Hok. now apply Hok. }
  pose proof (@collapse_chain la lb (sort found) 0 0 0 []) as H.
  destruct (collapse (sort found) 0 0 0 []) as [na [[i1 j1] k1]].
  cbn [fst snd] in H.
  destruct H as (C1 & E1 & E2 & B1 & B2); try (cbn; lia); try exact I.
  { apply sorted_chain_from; [exact Hs | intros; lia]. }
  { exact Hok'. }
  destruct (k1 =? 0).
  - apply chain_from_snoc. cbn [m_a m_b]. repeat split; [exact C1 | lia | lia].
  - apply chain_from_snoc. cbn [m_a m_b]. rewrite end_of_snoc. cbn [fst snd m_a m_b m_size].
    repeat split; [|lia | lia].
    apply chain_from_snoc. cbn [m_a m_b]. auto.
Qed.

End ChainFacts.

Module DeltaFacts.
Import Difflib ChainFacts MoreStrFacts.

Lemma subseq_nil_l {A} (l : list A) : subseq [] l.
Proof. induction l; constructor; assumption. Qed.

Lemma subseq_app {A} (s1 l1 s2 l2 : list A) :
  subseq s1 l1 -> subseq s2 l2 -> subseq (s1 ++ s2) (l1 ++ l2).
Proof.
  induction 1; intros H2; cbn [app];
    [exact H2 | apply subseq_skip; auto | apply subseq_keep; auto].
Qed.

Lemma subseq_firstn_app {A} n : forall (l s : list A),
  subseq s (skipn n l) -> subseq (firstn n l ++ s) l.
Proof.
  induction n as [|n IH]; intros l s H; [exact H |].
  destruct l as [|x l]; [exact H |].
  cbn [firstn skipn app] in *. apply subseq_keep. now apply IH.
Qed.

Lemma join_nil_cons (x : str) l : join [] (x :: l) = x ++ join [] l.
Proof. destruct l; cbn [join app]; [now rewrite app_nil_r | reflexivity]. Qed.

Lemma join_nil_app (l1 l2 : list str) :
  join [] (l1 ++ l2) = join [] l1 ++ join [] l2.
Proof.
  induction l1 as [|x l1 IH]; [reflexivity |].
  change ((x :: l1) ++ l2) with (x :: (l1 ++ l2)).
  now rewrite !join_nil_cons, IH, app_assoc.
Qed.

Lemma diff_blocks_app new ops1 ops2 :
  diff_blocks new (ops1 ++ ops2) = diff_blocks new ops1 ++ diff_blocks new ops2.
Proof. unfold diff_blocks. apply flat_map_app. Qed.

(** The parts of [new] under the ['insert'] and ['replace'] opcodes come
    one after the other in [new]. *)
Lemma opcodes_subseq (new : str) blocks : forall i j,
  chain_from i j blocks ->
  subseq (join [] (diff_blocks new (opcodes_loop blocks i j))) (skipn j new).
Proof.
  induction blocks as [|x blocks IH]; intros i j Hc; cbn [opcodes_loop].
  - apply subseq_nil_l.
  - cbn [chain_from] in Hc. destruct Hc as (Hi & Hj & Hc).
    specialize (IH _ _ Hc).
    rewrite !diff_blocks_app, !join_nil_app.
    set (rest := join [] (diff_blocks new
                   (opcodes_loop blocks (m_a x + m_size x) (m_b x + m_size x))))
      in *.
    assert (Hrest : subseq rest (skipn (m_b x) new)).
    { apply (@subseq_skipn _ (m_size x)). rewrite skipn_skipn.
      now replace (m_size x + m_b x) with (m_b x + m_size x) by lia. }
    destruct (j <? m_b x) eqn:E.
    + apply Nat.ltb_lt in E.
      assert (Hgoal : subseq (slice new j (m_b x) ++ rest) (skipn j new)).
      { unfold slice. apply subseq_firstn_app. rewrite skipn_skipn.
        now replace (m_b x - j + j) with (m_b x) by lia. }
      destruct (i <? m_a x); destruct (m_size x =? 0);
        cbn [andb diff_blocks flat_map app join]; exact Hgoal.
    + apply Nat.ltb_ge in E. assert (j = m_b x) as -> by lia.
      destruct (i <? m_a x); destruct (m_size x =? 0);
        cbn [andb diff_blocks flat_map app join]; exact Hrest.
Qed.

Lemma find_diff_subseq old new : subseq (find_diff old new) new.
Proof.
  unfold find_diff. destruct (negb (truthy old)); [apply subseq_refl |].
  destruct (_ && _).
  - apply (@subseq_skipn _ (length old)). apply subseq_refl.
  - apply (@opcodes_subseq new _ 0 0). apply get_matching_blocks_chain.
Qed.

Lemma subseq_in {A} (s l : list A) x : subseq s l -> In x s -> In x l.
Proof.
  induction 1 as [|y s l Hs IH|y s l Hs IH]; intros Hx;
    [exact Hx | right; auto |].
  destruct Hx as [<-|Hx]; [now left | right; auto].
Qed.

End DeltaFacts.

Module TailFacts.
Import StrFacts.

Lemma blanks_app s t : blanks (s ++ t) = blanks s + blanks t.
Proof. unfold blanks. now rewrite filter_app, length_app. Qed.

Lemma blanks_nospace w : nospace w = true -> blanks w = 0.
Proof.
  unfold blanks, nospace. induction w as [|c w IH]; intros H; [reflexivity |].
  cbn [forallb] in H. apply andb_prop in H. destruct H as [Hc Hw].
  cbn [filter]. destruct (isspace c); [discriminate | now apply IH].
Qed.

Lemma blanks_join ws :
  forallb tokenb ws = true -> blanks (join [space] ws) = length ws - 1.
Proof.
  induction ws as [|w ws IH]; intros H; [reflexivity |].
  cbn [forallb] in H. apply andb_prop in H. destruct H as [Hw Hws].
  unfold tokenb in Hw. apply andb_prop in Hw. destruct Hw as [_ Hns].
  destruct ws as [|w' ws'].
  - cbn [join length]. now rewrite blanks_nospace.
  - change (join [space] (w :: w' :: ws'))
      with (w ++ [space] ++ join [space] (w' :: ws')).
    rewrite !blanks_app, IH by exact Hws. rewrite blanks_nospace by exact Hns.
    cbn. lia.
Qed.

Lemma startswith_blanks p : forall s,
  startswith p s = true -> blanks p <= blanks s.
Proof.
  induction p as [|x p IH]; intros s H; [cbn; lia |].
  destruct s as [|y s]; [discriminate |].
  cbn [startswith] in H. apply andb_prop in H. destruct H as [Hxy H].
  apply N.eqb_eq in Hxy. subst y. specialize (IH s H).
  unfold blanks in *. cbn [filter]. destruct (isspace x); cbn [length]; lia.
Qed.

Lemma contains_blanks p s : contains p s = true -> blanks p <= blanks s.
Proof.
  induction s as [|y s IH]; cbn [contains]; intros H.
  - rewrite orb_false_r in H. now apply startswith_blanks.
  - apply orb_prop in H. destruct H as [H|H]; [now apply startswith_blanks |].
    specialize (IH H). unfold blanks in *. cbn [filter].
    destruct (isspace y); cbn [length]; lia.
Qed.

(** A window found again has three words or more after it. *)
Lemma window_needs_three ws :
  forallb tokenb ws = true ->
  3 <= length ws ->
  contains (join [space] (firstn 3 ws)) (join [space] (skipn 3 ws)) = true ->
  6 <= length ws.
Proof.
  intros Ht Hl Hc. apply contains_blanks in Hc.
  assert (H1 : forallb tokenb (firstn 3 ws) = true).
  { rewrite forallb_forall in *. intros x Hx. apply Ht.
    rewrite <- (firstn_skipn 3 ws). apply in_or_app. now left. }
  assert (H2 : forallb tokenb (skipn 3 ws) = true).
  { rewrite forallb_forall in *. intros x Hx. apply Ht.
    rewrite <- (firstn_skipn 3 ws). apply in_or_app. now right. }
  rewrite !blanks_join in Hc by assumption.
  rewrite length_firstn, length_skipn in Hc. lia.
Qed.

Lemma scan_few ws :
  forallb tokenb ws = true -> length ws <= 5 -> scan ws = ws.
Proof.
  induction ws as [|w1 tl IH]; intros Ht Hl; [reflexivity |].
  rewrite scan_step.
  destruct (3 <=? length (w1 :: tl)) eqn:E; cbn [andb].
  - destruct (contains _ _) eqn:Hc.
    + apply Nat.leb_le in E. pose proof (window_needs_three _ Ht E Hc). lia.
    + rewrite IH; [reflexivity | | cbn in Hl; lia].
      cbn [forallb] in Ht. apply andb_prop in Ht. tauto.
  - rewrite IH; [reflexivity | | cbn in Hl; lia].
    cbn [forallb] in Ht. apply andb_prop in Ht. tauto.
Qed.

Lemma scan_tail ws :
  forallb tokenb ws = true ->
  exists pre, scan ws = pre ++ skipn (length ws - 3) ws.
Proof.
  induction ws as [|w1 tl IH1 IH3] using scan_ind; intros Ht; [now exists [] |].
  assert (Htl : forallb tokenb tl = true)
    by (cbn [forallb] in Ht; apply andb_prop in Ht; tauto).
  assert (H3 : forallb tokenb (skipn 3 (w1 :: tl)) = true).
  { rewrite forallb_forall in *. intros x Hx. apply Ht.
    rewrite <- (firstn_skipn 3 (w1 :: tl)). apply in_or_app. now right. }
  rewrite scan_step.
  destruct (3 <=? length (w1 :: tl)) eqn:E; cbn [andb];
    [destruct (contains _ _) eqn:Hc |].
  - apply Nat.leb_le in E. pose proof (window_needs_three _ Ht E Hc) as H6.
    destruct (IH3 H3) as [pre Hpre]. exists pre. rewrite Hpre. f_equal.
    rewrite skipn_skipn, length_skipn. f_equal. lia.
  - destruct (IH1 Htl) as [pre Hpre]. apply Nat.leb_le in E. cbn [length] in *.
    destruct (Nat.le_gt_cases 3 (length tl)) as [Hge|Hlt].
    + exists (w1 :: pre). rewrite Hpre. cbn [app]. f_equal. f_equal.
      replace (S (length tl) - 3) with (S (length tl - 3)) by lia. reflexivity.
    + exists []. replace (S (length tl) - 3) with 0 by lia. cbn [skipn app].
      f_equal. apply scan_few; [exact Htl | lia].
  - apply Nat.leb_gt in E. cbn [length] in *. exists [].
    replace (S (length tl) - 3) with 0 by lia. cbn [skipn app].
    f_equal. apply scan_few; [exact Htl | lia].
Qed.

End TailFacts.

Module DifflibCommon.
Import Difflib DifflibFacts.

(** *** The longest match of two texts one of which starts with the other *)

Section CommonPrefix.

Variables a b : str.
Variable m : nat.
Hypothesis Hm : m = Nat.min (length a) (length b).
Hypothesis Hpre : forall t, t < m -> at_ a t = at_ b t.

Let sm := new_matcher a b.

Lemma rare_run_le i : rare_run sm a i <= i.
Proof. induction i; simpl; [lia | destruct (rare sm (at_ a i)); lia]. Qed.

Lemma common_row_inv_get i j2len :
  common_row_inv sm a m i j2len ->
  (forall j, j2lenget j2len j <= rare_run sm a i) /\
  (forall j, j <= m -> j2lenget j2len j <= rare_run sm a j) /\
  (i <= m -> j2lenget j2len i = rare_run sm a i).
Proof.
  intros (R1 & R2 & R3). repeat split.
  - intros [|j]; simpl; [lia | apply R1].
  - intros [|j] Hj; simpl; [lia | apply R2; lia].
  - intros Hi. destruct i as [|i']; simpl; [reflexivity | now apply R3].
Qed.

Lemma flm_inner_common i j2len :
  i < length a -> rare sm (at_ a i) = true -> common_row_inv sm a m i j2len ->
  forall js newj2len bi bj bs,
    StronglySorted lt js ->
    (forall j, In j js -> j < length b /\ at_ b j = at_ a i) ->
    (forall j, get Nat.eqb newj2len j 0 <= rare_run sm a (S i)) ->
    (forall j, j < m -> get Nat.eqb newj2len j 0 <= rare_run sm a (S j)) ->
    bi = bj ->
    (forall t, t <= i -> t <= m -> rare_run sm a t <= bs) ->
    bi + bs <= m ->
    (~ In i js -> S i <= m ->
     get Nat.eqb newj2len i 0 = rare_run sm a (S i) /\ rare_run sm a (S i) <= bs) ->
    common_row_inv sm a m (S i)
      (fst (flm_inner 0 (length b) i j2len js newj2len (bi, bj, bs))) /\
    common_best_inv sm a m (S i)
      (snd (flm_inner 0 (length b) i j2len js newj2len (bi, bj, bs))).
Proof.
  intros Hi Hrare Hrow. apply common_row_inv_get in Hrow.
  destruct Hrow as (G1 & G2 & G3).
  assert (HS : rare_run sm a (S i) = S (rare_run sm a i)) by (simpl; now rewrite Hrare).
  induction js as [|j js IH]; intros nj bi bj bs Hsort Hjs N1 N2 Hd B2 B4 Hdone.
  - simpl. split.
    + repeat split.
      * exact N1.
      * exact N2.
      * intros i' Hi' Hle. injection Hi' as <-.
        now destruct (Hdone (fun x => x) Hle).
    + repeat split; [exact Hd | | exact B4].
      intros t Ht Htm. destruct (Nat.eq_dec t (S i)) as [->|Hne].
      * now destruct (Hdone (fun x => x) Htm).
      * apply B2; lia.
  - destruct (Hjs j (or_introl eq_refl)) as [Hjb Hjc].
    apply StronglySorted_inv in Hsort. destruct Hsort as [Hsort' Hall].
    rewrite Forall_forall in Hall.
    cbn [flm_inner]. replace (j <? 0) with false by reflexivity.
    replace (length b <=? j) with false by (symmetry; apply Nat.leb_gt; exact Hjb).
    set (k := j2lenget j2len j + 1).
    assert (Hk1 : k <= rare_run sm a (S i)) by (unfold k; specialize (G1 j); lia).
    assert (Hk2 : j < m -> k <= rare_run sm a (S j)).
    { intros Hlt. unfold k. specialize (G2 j ltac:(lia)). simpl.
      rewrite (@Hpre j) by lia. rewrite Hjc, Hrare. lia. }
    assert (Hk3 : j = i -> k = rare_run sm a (S i)).
    { intros ->. unfold k. rewrite G3 by lia. lia. }
    assert (Hgt : i < j -> rare_run sm a (S i) <= bs).
    { intros Hlt. apply Hdone; [|lia].
      intros [->|Hin]; [lia | apply Hall in Hin; lia]. }
    assert (Hnew : forall x, get Nat.eqb ((j, k) :: nj) x 0 <= rare_run sm a (S i)).
    { intros x. rewrite get_cons_nat. destruct (j =? x); [exact Hk1 | apply N1]. }
    assert (Hnew2 : forall x, x < m ->
                      get Nat.eqb ((j, k) :: nj) x 0 <= rare_run sm a (S x)).
    { intros x Hx. rewrite get_cons_nat. destruct (j =? x) eqn:E; [|now apply N2].
      apply Nat.eqb_eq in E. subst x. now apply Hk2. }
    assert (Hjs' : forall x, In x js -> x < length b /\ at_ b x = at_ a i)
      by (intros x Hx; apply Hjs; now right).
    pose proof (rare_run_le (S i)) as Hrl.
    destruct (bs <? k) eqn:Hupd.
    + apply Nat.ltb_lt in Hupd.
      assert (Hji : j = i).
      { destruct (Nat.lt_trichotomy j i) as [Hlt|[Heq|Hlt]]; [|exact Heq|].
        - specialize (Hk2 ltac:(lia)). specialize (B2 (S j) Hlt ltac:(lia)). lia.
        - specialize (Hgt Hlt). lia. }
      subst j. specialize (Hk3 eq_refl). apply IH; try assumption.
      * reflexivity.
      * intros t Ht Htm. specialize (B2 t Ht Htm). lia.
      * lia.
      * intros _ _. rewrite get_cons_nat, Nat.eqb_refl. lia.
    + apply Nat.ltb_ge in Hupd. apply IH; try assumption.
      intros Hnin Hle. rewrite get_cons_nat.
      destruct (Nat.eq_dec j i) as [->|Hne].
      * rewrite Nat.eqb_refl. specialize (Hk3 eq_refl). lia.
      * replace (j =? i) with false by (symmetry; now apply Nat.eqb_neq).
        apply Hdone; [|exact Hle]. intros [->|Hin]; [now apply Hne | now apply Hnin].
Qed.

Lemma flm_rows_common n : forall i j2len best,
  i + n = length a -> common_row_inv sm a m i j2len ->
  common_best_inv sm a m i best ->
  common_best_inv sm a m (length a) (flm_rows sm 0 (length b) n i j2len best).
Proof.
  induction n as [|n IH]; intros i j2len [[bi bj] bs] Hn Hrow Hbest.
  - simpl. now replace (length a) with i by lia.
  - cbn [flm_rows].
    assert (Hi : i < length a) by lia.
    destruct Hbest as (Hd & B2 & B4).
    change (sm_a sm) with a. change (b2j sm) with (b2j (new_matcher a b)).
    rewrite b2j_get. fold sm.
    fold (rare sm (at_ a i)) in *.
    destruct (mem (at_ a i) (bpopular sm)) eqn:Hpop.
    + cbn [flm_inner]. apply IH; [lia | |].
      * assert (H0 : rare_run sm a (S i) = 0) by (simpl; unfold rare; now rewrite Hpop).
        split; [|split].
        -- intros j. cbn [get]. lia.
        -- intros j _. cbn [get]. lia.
        -- intros i' _ _. cbn [get]. now rewrite H0.
      * repeat split; [exact Hd | | lia].
        intros t Ht Htm. destruct (Nat.eq_dec t (S i)) as [->|Hne]; [|apply B2; lia].
        simpl. unfold rare. rewrite Hpop. simpl. lia.
    + assert (Hrare : rare sm (at_ a i) = true) by (unfold rare; now rewrite Hpop).
      pose proof (@flm_inner_common i j2len Hi Hrare Hrow
                    (indices_from (at_ a i) b 0) [] bi bj bs) as H.
      destruct (flm_inner 0 (length b) i j2len (indices_from (at_ a i) b 0) []
                  (bi, bj, bs)) as [nj best'].
      simpl in H. destruct H as [H1 H2].
      * apply indices_from_sorted.
      * intros j Hj. apply indices_from_spec in Hj. rewrite Nat.sub_0_r in Hj.
        split; [lia | tauto].
      * intros; lia.
      * intros; lia.
      * exact Hd.
      * exact B2.
      * exact B4.
      * intros Hnin Hle. exfalso. apply Hnin. apply indices_from_spec.
        rewrite Nat.sub_0_r. split; [lia | symmetry; apply Hpre; lia].
      * apply IH; [lia | exact H1 | exact H2].
Qed.

Lemma extend_back_common p : forall s,
  p <= m ->
  extend_back sm false 0 0 p p s = (0, 0, s + p).
Proof.
  induction p as [|p IH]; intros s Hp; cbn [extend_back].
  - now rewrite Nat.add_0_r.
  - change (isbjunk sm (at_ (sm_b sm) p)) with false.
    change (sm_a sm) with a. change (sm_b sm) with b.
    rewrite (@Hpre p) by lia. rewrite N.eqb_refl. cbn [Nat.ltb Nat.leb andb Bool.eqb].
    rewrite IH by lia. f_equal. lia.
Qed.

Lemma extend_fwd_common fuel : forall s,
  s <= m -> m - s <= fuel ->
  extend_fwd fuel sm false (length a) (length b) 0 0 s = m.
Proof.
  induction fuel as [|fuel IH]; intros s Hs Hf; cbn [extend_fwd].
  - lia.
  - rewrite !Nat.add_0_l.
    destruct (s <? length a) eqn:Hlt; [destruct (s <? length b) eqn:Hlt2 |].
    + apply Nat.ltb_lt in Hlt. apply Nat.ltb_lt in Hlt2.
      change (isbjunk sm (at_ (sm_b sm) s)) with false.
      change (sm_a sm) with a. change (sm_b sm) with b.
      rewrite (@Hpre s) by lia. rewrite N.eqb_refl. cbn [andb Bool.eqb].
      apply IH; lia.
    + apply Nat.ltb_ge in Hlt2. cbn [andb]. lia.
    + apply Nat.ltb_ge in Hlt. cbn [andb]. lia.
Qed.

Lemma extend_back_nojunk p q s alo blo :
  extend_back sm true alo blo p q s = (p, q, s).
Proof.
  destruct p as [|p], q as [|q]; cbn [extend_back]; try reflexivity.
  change (isbjunk sm (at_ (sm_b sm) q)) with false.
  cbn [Bool.eqb]. now rewrite andb_false_r.
Qed.

Lemma extend_fwd_nojunk fuel p q s ahi bhi :
  extend_fwd fuel sm true ahi bhi p q s = s.
Proof.
  destruct fuel; cbn [extend_fwd]; [reflexivity |].
  change (isbjunk sm (at_ (sm_b sm) (q + s))) with false.
  cbn [Bool.eqb]. now rewrite andb_false_r.
Qed.

(** The longest match is the shorter text, at the start of both. *)
Lemma find_longest_match_common :
  find_longest_match sm 0 (length a) 0 (length b) = mkMatch 0 0 m.
Proof.
  unfold find_longest_match.
  assert (H : common_best_inv sm a m (length a)
                (flm_rows sm 0 (length b) (length a) 0 [] (0, 0, 0))).
  { apply flm_rows_common.
    - lia.
    - split; [|split].
      + intros j. cbn [get rare_run]. lia.
      + intros j Hj. cbn [get]. lia.
      + intros i' Hi'. discriminate.
    - split; [reflexivity | split; [|lia]].
      intros t Ht _. replace t with 0 by lia. cbn [rare_run]. lia. }
  rewrite Nat.sub_0_r.
  destruct (flm_rows sm 0 (length b) (length a) 0 [] (0, 0, 0)) as [[bi bj] bs].
  destruct H as (Hd & _ & Hb). subst bj.
  rewrite extend_back_common by lia.
  rewrite (@extend_fwd_common (length a - (0 + (bs + bi)))) by lia.
  rewrite extend_back_nojunk, extend_fwd_nojunk. reflexivity.
Qed.

End CommonPrefix.

End DifflibCommon.

Module EdgeFacts.
Import Difflib DifflibFacts.

Lemma at_app_l (s t : str) i : i < length s -> at_ (s ++ t) i = at_ s i.
Proof. intros H. unfold at_. now apply app_nth1. Qed.

(** A text cut at its end: the longest match is what is left of it. *)
Lemma longest_match_truncated new ext :
  find_longest_match (new_matcher (new ++ ext) new)
    0 (length (new ++ ext)) 0 (length new) = mkMatch 0 0 (length new).
Proof.
  apply DifflibCommon.find_longest_match_common.
  - rewrite length_app. lia.
  - intros t Ht. now apply at_app_l.
Qed.

Lemma get_opcodes_truncated new ext :
  new ++ ext <> [] ->
  get_opcodes (new_matcher (new ++ ext) new) =
  (if length new =? 0 then [] else [(equal, 0, length new, 0, length new)])
  ++ (if length new <? length (new ++ ext)
      then [(delete, length new, length (new ++ ext), length new, length new)]
      else []).
Proof.
  intros Hs.
  assert (Hl : length (new ++ ext) <> 0)
    by (destruct (new ++ ext); [congruence | discriminate]).
  unfold get_opcodes, get_matching_blocks, blocks_fuel.
  change (sm_a (new_matcher (new ++ ext) new)) with (new ++ ext).
  change (sm_b (new_matcher (new ++ ext) new)) with new.
  replace (2 * length (new ++ ext) + 1)
    with (S (S (2 * length (new ++ ext) - 1))) by lia.
  cbn [blocks_loop].
  rewrite longest_match_truncated. cbn [m_a m_b m_size].
  destruct (length new =? 0) eqn:E.
  - apply Nat.eqb_eq in E. rewrite E.
    cbn [app sort fold_right collapse Nat.eqb opcodes_loop m_a m_b m_size Nat.add].
    rewrite Nat.ltb_irrefl. cbn [andb].
    destruct (0 <? length (new ++ ext)) eqn:F; [reflexivity |].
    apply Nat.ltb_ge in F. lia.
  - rewrite Nat.ltb_irrefl. cbn [Nat.add andb].
    rewrite Nat.ltb_irrefl, andb_false_r.
    cbn [app sort fold_right insert_sorted collapse m_a m_b m_size Nat.add
         Nat.eqb andb].
    rewrite E.
    cbn [app opcodes_loop m_a m_b m_size Nat.add].
    rewrite !Nat.ltb_irrefl, E. cbn [andb app Nat.eqb].
    rewrite andb_false_r, app_nil_r. reflexivity.
Qed.

(** Nothing is new in a text cut at its end. *)
Lemma find_diff_truncated new ext : find_diff (new ++ ext) new = [].
Proof.
  unfold find_diff. destruct (new ++ ext) as [|c old] eqn:E.
  - destruct new; [reflexivity | discriminate].
  - cbn [truthy negb]. rewrite <- E.
    replace (length (new ++ ext) <? length new) with false
      by (symmetry; apply Nat.ltb_ge; rewrite length_app; lia).
    rewrite andb_false_r.
    rewrite get_opcodes_truncated by (rewrite E; discriminate).
    destruct (length new =? 0); destruct (length new <? length (new ++ ext));
      reflexivity.
Qed.

(** *** Texts with no element in common *)

Lemma indices_from_none c b : forall i, ~ In c b -> indices_from c b i = [].
Proof.
  induction b as [|x b IH]; intros i H; cbn [indices_from]; [reflexivity |].
  destruct (x =? c)%N eqn:E.
  - apply N.eqb_eq in E. exfalso. apply H. now left.
  - apply IH. intros Hin. apply H. now right.
Qed.

Lemma at_in (s : str) i : i < length s -> In (at_ s i) s.
Proof. intros H. unfold at_. now apply nth_In. Qed.

Section Disjoint.

Variables a b : str.
Hypothesis Hdis : forall c, In c a -> ~ In c b.

Let sm := new_matcher a b.

Lemma b2j_disjoint i :
  i < length a -> get N.eqb (b2j sm) (at_ a i) [] = [].
Proof.
  intros Hi. unfold sm. rewrite b2j_get.
  destruct (mem _ _); [reflexivity |].
  apply indices_from_none. apply Hdis. now apply at_in.
Qed.

Lemma flm_rows_disjoint blo bhi n : forall i j2len best,
  i + n <= length a ->
  flm_rows sm blo bhi n i j2len best = best.
Proof.
  induction n as [|n IH]; intros i j2len best Hn; cbn [flm_rows]; [reflexivity |].
  change (sm_a sm) with a. rewrite b2j_disjoint by lia.
  cbn [flm_inner]. apply IH. lia.
Qed.

Lemma first_differs :
  a <> [] -> b <> [] -> (at_ a 0 =? at_ b 0)%N = false.
Proof.
  intros Ha Hb. apply N.eqb_neq. intros E.
  apply (@Hdis (at_ a 0)).
  - apply at_in. destruct a; [congruence | cbn; lia].
  - rewrite E. apply at_in. destruct b; [congruence | cbn; lia].
Qed.

Lemma extend_fwd_disjoint fuel :
  a <> [] ->
  extend_fwd fuel sm false (length a) (length b) 0 0 0 = 0.
Proof.
  intros Ha. destruct fuel; cbn [extend_fwd Nat.add]; [reflexivity |].
  change (sm_a sm) with a. change (sm_b sm) with b.
  destruct (0 <? length b) eqn:F.
  - rewrite first_differs; [now rewrite andb_false_r | exact Ha |].
    apply Nat.ltb_lt in F. intros E. rewrite E in F. cbn in F. lia.
  - now rewrite andb_false_r.
Qed.

(** Nothing matches: the block is empty, at the start of both. *)
Lemma find_longest_match_disjoint :
  a <> [] ->
  find_longest_match sm 0 (length a) 0 (length b) = mkMatch 0 0 0.
Proof.
  intros Ha. unfold find_longest_match.
  rewrite flm_rows_disjoint by lia.
  cbn [extend_back]. rewrite extend_fwd_disjoint by exact Ha.
  unfold sm. now rewrite DifflibCommon.extend_fwd_nojunk.
Qed.

Lemma get_opcodes_disjoint :
  a <> [] ->
  get_opcodes sm =
  if 0 <? length b then [(replace, 0, length a, 0, length b)]
  else [(delete, 0, length a, 0, length b)].
Proof.
  intros Ha.
  assert (Hl : length a <> 0) by (destruct a; [congruence | discriminate]).
  unfold get_opcodes, get_matching_blocks, blocks_fuel.
  change (sm_a sm) with a. change (sm_b sm) with b.
  replace (2 * length a + 1) with (S (S (2 * length a - 1))) by lia.
  cbn [blocks_loop].
  rewrite find_longest_match_disjoint by exact Ha.
  cbn [m_a m_b m_size Nat.eqb app sort fold_right collapse opcodes_loop Nat.add].
  replace (0 <? length a) with true by (symmetry; apply Nat.ltb_lt; lia).
  cbn [andb].
  destruct (0 <? length b); reflexivity.
Qed.

Lemma find_diff_disjoint :
  a <> [] ->
  find_diff a b = if length a <? length b then skipn (length a) b else b.
Proof.
  intros Ha. unfold find_diff.
  replace (truthy a) with true
    by (symmetry; now apply ProcessFacts.truthy_true).
  cbn [negb].
  fold sm. rewrite find_longest_match_disjoint by exact Ha.
  cbn [m_a m_b Nat.eqb andb].
  destruct (length a <? length b); [reflexivity |].
  rewrite get_opcodes_disjoint by exact Ha.
  destruct (0 <? length b) eqn:F; cbn [diff_blocks flat_map app join].
  - unfold slice. cbn [skipn]. now rewrite Nat.sub_0_r, firstn_all.
  - apply Nat.ltb_ge in F. destruct b; [reflexivity | cbn in F; lia].
Qed.

End Disjoint.

End EdgeFacts.

Module SessionFacts.
Import MoreStrFacts ProcessFacts.

Lemma has_ink_app s t : has_ink (s ++ t) = has_ink s || has_ink t.
Proof. unfold has_ink. apply existsb_app. Qed.

Lemma strip_ink s : strip s <> [] <-> has_ink s = true.
Proof.
  rewrite strip_nil_iff, split_nil_iff_ink.
  destruct (has_ink s); split; congruence.
Qed.

Lemma truthy_strip_ink s : truthy (strip s) = has_ink s.
Proof.
  destruct (has_ink s) eqn:E.
  - apply strip_ink in E. now apply truthy_true.
  - destruct (truthy (strip s)) eqn:T; [|reflexivity].
    apply truthy_true, strip_ink in T. congruence.
Qed.

Lemma has_ink_subseq s l : subseq s l -> has_ink s = true -> has_ink l = true.
Proof.
  intros Hs H. apply has_ink_true in H. destruct H as [c [Hc Hsp]].
  apply has_ink_true. exists c. split; [|exact Hsp].
  eapply DeltaFacts.subseq_in; eassumption.
Qed.

(** A delta with ink needs a snapshot with ink. *)
Lemma delta_ink w cur :
  has_ink (delta_of w cur) = true -> has_ink cur = true.
Proof.
  unfold delta_of. intros H. apply strip_ink in H.
  assert (H' : strip (find_diff (latest_text (self w)) cur) <> []).
  { intros E. apply H. now apply clean_blank. }
  apply strip_ink in H'.
  eapply has_ink_subseq; [apply DeltaFacts.find_diff_subseq | exact H'].
Qed.

(** One call, whatever its outcome: the phrase history grows by
    [fresh_phrases], and the accumulator keeps its value or takes that of
    lines 229-258. *)
Lemma one_call w u :
  let r := process_subtitle u w in
  (phrase_log (self (snd r)) = phrase_log (self w) \/
   phrase_log (self (snd r)) = phrase_log (self w) ++ fresh_phrases w u) /\
  (current_phrase (self (snd r)) = current_phrase (self w) \/
   truthy (strip (delta_of w u)) = true /\
   current_phrase (self (snd r)) = next_phrase w u).
Proof.
  unfold fresh_phrases, next_phrase, delta_of, elapsed_of, now_of.
  destruct w as [[dbg lut cp ph st] con cr dc e].
  destruct st as [subs phs|db]; py_unfold; world_fields.
  - destruct (db_fails e dc); world_fields; [split; now left |].
    destruct (Str.eqb u _); world_fields; [split; now left |].
    destruct (truthy (strip _)); world_fields; [|split; now left].
    cbn [andb].
    destruct (Qlt_bool _ 2); destruct dbg; world_fields;
      destruct (truthy cp) eqn:Hcp; world_fields;
      try (destruct (contains cp u); world_fields);
      repeat (break_if; world_fields);
      cbn [negb andb]; rewrite ?map_app, ?app_nil_r; cbn [map phrase_cols];
      (split; [first [now left | now right] | first [now left | right; now split]]).
  - destruct (Str.eqb u _); world_fields; [split; now left |].
    destruct (truthy (strip _)); world_fields; [|split; now left].
    cbn [andb].
    destruct (Qlt_bool _ 2); destruct dbg; world_fields;
      destruct (truthy cp) eqn:Hcp; world_fields;
      try (destruct (contains cp u); world_fields);
      cbn [negb andb]; rewrite ?app_nil_r;
      (split; [first [now left | now right] | first [now left | right; now split]]).
Qed.

(** What one call does to the [subtitles] table and to the flags. *)
Lemma one_call_rows w u :
  let r := process_subtitle u w in
  (snapshot_rows (self (snd r)) = snapshot_rows (self w) \/
   truthy (strip (delta_of w u)) = true /\
   snapshot_rows (self (snd r)) =
     snapshot_rows (self w)
     ++ [mkSubtitle (S (length (snapshot_rows (self w)))) u
                    (clock (oracle w) (S (clock_reads w)))]) /\
  use_sqlite (self (snd r)) = use_sqlite (self w) /\
  debug (self (snd r)) = debug (self w).
Proof.
  unfold snapshot_rows, delta_of.
  destruct w as [[dbg lut cp ph st] con cr dc e].
  destruct st as [subs phs|db]; py_unfold; world_fields.
  - destruct (db_fails e dc); world_fields; [repeat split; now left |].
    destruct (Str.eqb u _); world_fields; [repeat split; now left |].
    destruct (truthy (strip _)); world_fields; [|repeat split; now left].
    destruct (Qlt_bool _ 2); destruct dbg; world_fields;
      destruct (truthy cp) eqn:Hcp; world_fields;
      try (destruct (contains cp u); world_fields);
      repeat (break_if; world_fields);
      (split; [first [now left | right; now split] | now split]).
  - destruct (Str.eqb u _); world_fields; [repeat split; now left |].
    destruct (truthy (strip _)); world_fields; [|repeat split; now left].
    destruct (Qlt_bool _ 2); destruct dbg; world_fields;
      destruct (truthy cp) eqn:Hcp; world_fields;
      try (destruct (contains cp u); world_fields);
      (split; [now left | now split]).
Qed.

Lemma Qlt_bool_ge x y : Qlt_bool x y = false -> (y <= x)%Q.
Proof.
  unfold Qlt_bool. rewrite negb_false_iff. apply Qle_bool_iff.
Qed.

Lemma Qlt_bool_lt x y : (x < y)%Q -> Qlt_bool x y = true.
Proof.
  intros H. unfold Qlt_bool. apply negb_true_iff.
  destruct (Qle_bool y x) eqn:E; [|reflexivity].
  apply Qle_bool_iff in E. lra.
Qed.

(** The phrases of [fresh_phrases] are well formed. *)
Lemma fresh_phrases_spec w u :
  length (fresh_phrases w u) <= 1 /\
  Forall (fun ph =>
            text ph = current_phrase (self w) /\
            text ph <> [] /\
            start_time ph = last_update_time (self w) /\
            end_time ph = now_of w /\
            (start_time ph + 2 <= end_time ph)%Q)
         (fresh_phrases w u).
Proof.
  unfold fresh_phrases.
  destruct (truthy (strip _)); cbn [andb]; [|split; [cbn; lia | constructor]].
  destruct (Qlt_bool _ 2) eqn:Hq; cbn [andb negb]; [split; [cbn; lia | constructor] |].
  destruct (truthy _) eqn:Hcp; [|split; [cbn; lia | constructor]].
  split; [cbn; lia |]. constructor; [|constructor]. cbn [text start_time end_time].
  apply truthy_true in Hcp. apply Qlt_bool_ge in Hq. unfold elapsed_of in Hq.
  repeat split; try assumption. lra.
Qed.

(** One call keeps the accumulator empty or inked. *)
Lemma accumulator_ok_step w u :
  accumulator_ok (self w) ->
  accumulator_ok (self (snd (process_subtitle u w))).
Proof.
  intros Hacc. destruct (one_call w u) as [_ [H|[Hd H]]].
  - unfold accumulator_ok. now rewrite H.
  - unfold accumulator_ok. rewrite H. right.
    rewrite truthy_strip_ink in Hd. unfold next_phrase.
    destruct (Qlt_bool _ 2); [|exact Hd].
    destruct (truthy (current_phrase (self w))); [|exact Hd].
    destruct (contains _ u).
    + rewrite has_ink_app, Hd. apply orb_true_r.
    + exact (delta_ink w u Hd).
Qed.

Lemma phrase_ok_step w u :
  accumulator_ok (self w) ->
  Forall phrase_ok (phrase_log (self w)) ->
  Forall phrase_ok (phrase_log (self (snd (process_subtitle u w)))).
Proof.
  intros Hacc Hlog. destruct (one_call w u) as [[H|H] _]; rewrite H; [exact Hlog |].
  apply Forall_app. split; [exact Hlog |].
  destruct (fresh_phrases_spec w u) as [_ Hf].
  eapply Forall_impl; [|exact Hf]. cbn beta.
  intros ph [Ht [Hne [_ [_ Hle]]]]. split; [|exact Hle].
  rewrite Ht in *. destruct Hacc as [E|E]; [congruence | exact E].
Qed.

Lemma session_invariant updates : forall w,
  accumulator_ok (self w) ->
  Forall phrase_ok (phrase_log (self w)) ->
  accumulator_ok (self (snd (run updates w))) /\
  Forall phrase_ok (phrase_log (self (snd (run updates w)))).
Proof.
  induction updates as [|u updates IH]; intros w Hacc Hlog; [now split |].
  cbn [run]. unfold bind.
  pose proof (@accumulator_ok_step w u Hacc) as Hacc'.
  pose proof (@phrase_ok_step w u Hacc Hlog) as Hlog'.
  destruct (process_subtitle u w) as [[[]|x] w']; cbn [snd] in *.
  - now apply IH.
  - now split.
Qed.

End SessionFacts.

Module BranchFacts.
Import ProcessFacts SessionFacts.

(** The continuation branch (lines 229-245), once the [SELECT] has passed;
    nothing is asked of the write that follows. *)
Lemma continuation_branch w cur :
  strip (delta_of w cur) <> [] ->
  Qlt_bool (elapsed_of w) 2 = true ->
  storage_ok w 1 ->
  let w' := snd (process_subtitle cur w) in
  current_phrase (self w') = next_phrase w cur /\
  phrase_log (self w') = phrase_log (self w) /\
  console w' =
    console w
    ++ debug_lines w (DebugLine success
                        (DetectedChange (elapsed_of w) (delta_of w cur)))
    ++ [Printed ([13%N] ++ next_phrase w cur) []].
Proof.
  intros Hd Hq Hok. pose proof (delta_needs_change w cur Hd) as Hne.
  apply truthy_true in Hd.
  unfold next_phrase, delta_of, elapsed_of, now_of, debug_lines in *.
  destruct w as [[dbg lut cp ph st] con cr dc e].
  destruct st as [subs phs|db].
  - pose proof (storage_ok_at (k := 0) Hok eq_refl ltac:(lia)) as F0.
    clear Hok. world_fields. rewrite Nat.add_0_r in F0.
    py_unfold. world_fields. rewrite F0. world_fields. rewrite Hne. world_fields.
    rewrite Hd. world_fields. rewrite Hq.
    destruct dbg; world_fields; destruct (truthy cp) eqn:Hcp; world_fields;
      try (destruct (contains cp cur); world_fields);
      repeat (break_if; world_fields);
      rewrite <- ?app_assoc; cbn [app]; repeat split; reflexivity.
  - clear Hok. world_fields.
    py_unfold. world_fields. rewrite Hne. world_fields.
    rewrite Hd. world_fields. rewrite Hq.
    destruct dbg; world_fields; destruct (truthy cp) eqn:Hcp; world_fields;
      try (destruct (contains cp cur); world_fields);
      rewrite <- ?app_assoc; cbn [app]; repeat split; reflexivity.
Qed.

(** The boundary branch with an empty accumulator needs the [SELECT]
    only. *)
Lemma boundary_seed w cur :
  strip (delta_of w cur) <> [] ->
  Qlt_bool (elapsed_of w) 2 = false ->
  current_phrase (self w) = [] ->
  storage_ok w 1 ->
  let w' := snd (process_subtitle cur w) in
  current_phrase (self w') = delta_of w cur /\
  phrase_log (self w') = phrase_log (self w).
Proof.
  intros Hd Hq Hcp Hok. pose proof (delta_needs_change w cur Hd) as Hne.
  apply truthy_true in Hd.
  unfold delta_of, elapsed_of, now_of in *.
  destruct w as [[dbg lut cp ph st] con cr dc e]. cbn [self current_phrase] in Hcp.
  assert (Hcp' : truthy cp = false) by (now subst cp). clear Hcp.
  destruct st as [subs phs|db].
  - pose proof (storage_ok_at (k := 0) Hok eq_refl ltac:(lia)) as F0.
    clear Hok. world_fields. rewrite Nat.add_0_r in F0.
    py_unfold. world_fields. rewrite F0. world_fields. rewrite Hne. world_fields.
    rewrite Hd. world_fields. rewrite Hq.
    destruct dbg; world_fields; rewrite Hcp'; world_fields;
      repeat (break_if; world_fields); repeat split; reflexivity.
  - clear Hok. world_fields.
    py_unfold. world_fields. rewrite Hne. world_fields.
    rewrite Hd. world_fields. rewrite Hq.
    destruct dbg; world_fields; rewrite Hcp'; world_fields;
      repeat split; reflexivity.
Qed.

(** [_save_phrase] raises (lines 251-255): the exception leaves
    [process_subtitle] before line 258. *)
Lemma phrase_failure w cur :
  use_sqlite (self w) = true ->
  strip (delta_of w cur) <> [] ->
  Qlt_bool (elapsed_of w) 2 = false ->
  current_phrase (self w) <> [] ->
  db_fails (oracle w) (db_calls w) = false ->
  db_fails (oracle w) (db_calls w + 1) = true \/
  db_fails (oracle w) (db_calls w + 2) = true ->
  let r := process_subtitle cur w in
  fst r = Raised sqlite3_Error /\
  current_phrase (self (snd r)) = current_phrase (self w) /\
  last_update_time (self (snd r)) = last_update_time (self w) /\
  snapshot_rows (self (snd r)) = snapshot_rows (self w) /\
  console (snd r) =
    console w
    ++ debug_lines w (DebugLine warning
                        (DetectedChange (elapsed_of w) (delta_of w cur)))
    ++ [Printed newline newline] /\
  (db_fails (oracle w) (db_calls w + 1) = true ->
   self (snd r) = self w).
Proof.
  intros Hs Hd Hq Hcp F0 Hfail. pose proof (delta_needs_change w cur Hd) as Hne.
  apply truthy_true in Hd. apply truthy_true in Hcp.
  unfold snapshot_rows, delta_of, elapsed_of, now_of, debug_lines in *.
  destruct w as [[dbg lut cp ph st] con cr dc e].
  destruct st as [subs phs|db]; [|discriminate]. clear Hs.
  world_fields. rewrite Nat.add_1_r in Hfail.
  replace (dc + 2) with (S (S dc)) in Hfail by lia. rewrite Nat.add_1_r.
  py_unfold. world_fields. rewrite F0. world_fields. rewrite Hne. world_fields.
  rewrite Hd. world_fields. rewrite Hq.
  destruct dbg; world_fields; rewrite Hcp; world_fields;
    (destruct (db_fails e (S dc)) eqn:G1; world_fields;
     [rewrite <- ?app_assoc; cbn [app]; repeat split; reflexivity |]);
    (destruct Hfail as [Hf|Hf]; [discriminate |]);
    rewrite Hf; world_fields;
    rewrite <- ?app_assoc; cbn [app]; repeat split; try reflexivity; discriminate.
Qed.

End BranchFacts.

Module StoreFacts.
Import ProcessFacts SessionFacts.
Local Open Scope Q_scope.

(** The row [latest_row] returns is [best] or one of the rows. *)
Lemma latest_row_in rows : forall best r,
  latest_row rows best = Some r -> best = Some r \/ In r rows.
Proof.
  induction rows as [|x rows IH]; intros best r H; cbn [latest_row] in H;
    [now left |].
  destruct best as [r0|].
  - destruct (Qlt_bool _ _).
    + apply IH in H. destruct H as [H|H]; [injection H as <-; right; now left |].
      right; now right.
    + apply IH in H. destruct H as [H|H]; [now left | right; now right].
  - apply IH in H. destruct H as [H|H]; [injection H as <-; right; now left |].
    right; now right.
Qed.

Lemma latest_row_some rows : forall r0, exists r, latest_row rows (Some r0) = Some r.
Proof.
  induction rows as [|x rows IH]; intros r0; cbn [latest_row]; [now exists r0 |].
  destruct (Qlt_bool _ _); apply IH.
Qed.

(** No row is later than the one returned. *)
Lemma latest_row_max rows : forall best r,
  latest_row rows best = Some r ->
  (forall r0, best = Some r0 -> sub_timestamp r0 <= sub_timestamp r) /\
  Forall (fun x => sub_timestamp x <= sub_timestamp r) rows.
Proof.
  induction rows as [|x rows IH]; intros best r H; cbn [latest_row] in H.
  - split; [|constructor]. intros r0 E. rewrite E in H. injection H as <-.
    apply Qle_refl.
  - destruct best as [r0|].
    + destruct (Qlt_bool _ _) eqn:Hq.
      * apply IH in H. destruct H as [H1 H2]. specialize (H1 x eq_refl).
        split; [|now constructor].
        intros r1 E. injection E as <-.
        unfold Qlt_bool in Hq. apply negb_true_iff in Hq.
        destruct (Qle_bool (sub_timestamp x) (sub_timestamp r0)) eqn:E; [discriminate|].
        assert (~ sub_timestamp x <= sub_timestamp r0)
          by (intros G; apply Qle_bool_iff in G; congruence).
        lra.
      * apply IH in H. destruct H as [H1 H2]. specialize (H1 r0 eq_refl).
        split; [intros r1 E; now injection E as <- |].
        constructor; [|exact H2].
        apply Qlt_bool_ge in Hq. lra.
    + apply IH in H. destruct H as [H1 H2]. specialize (H1 x eq_refl).
      split; [discriminate | now constructor].
Qed.

(** [latest_row] after one more [INSERT]. *)
Lemma latest_row_app rows x : forall best,
  latest_row (rows ++ [x]) best =
  match latest_row rows best with
  | None => Some x
  | Some r0 =>
      if Qlt_bool (sub_timestamp r0) (sub_timestamp x) then Some x else Some r0
  end.
Proof.
  induction rows as [|y rows IH]; intros best; cbn [app latest_row].
  - destruct best as [r0|]; [|reflexivity]. now destruct (Qlt_bool _ _).
  - destruct best as [r0|]; [destruct (Qlt_bool _ _) |]; apply IH.
Qed.

(** A row later than all the others is the one read back. *)
Lemma latest_row_newer rows x :
  Forall (fun r => sub_timestamp r < sub_timestamp x) rows ->
  latest_row (rows ++ [x]) None = Some x.
Proof.
  intros H. rewrite latest_row_app.
  destruct (latest_row rows None) as [r0|] eqn:E; [|reflexivity].
  apply latest_row_in in E. destruct E as [E|E]; [discriminate |].
  rewrite Forall_forall in H. now rewrite (Qlt_bool_lt (H _ E)).
Qed.

(** A row earlier than some other one is not. *)
Lemma latest_row_older rows x :
  Exists (fun r => sub_timestamp x < sub_timestamp r) rows ->
  latest_row (rows ++ [x]) None = latest_row rows None.
Proof.
  intros H. rewrite latest_row_app.
  destruct (latest_row rows None) as [r0|] eqn:E.
  - apply latest_row_max in E. destruct E as [_ E].
    apply Exists_exists in H. destruct H as [r [Hin Hr]].
    rewrite Forall_forall in E. specialize (E _ Hin).
    destruct (Qlt_bool _ _) eqn:Hq; [|reflexivity].
    unfold Qlt_bool in Hq. apply negb_true_iff in Hq.
    assert (sub_timestamp x <= sub_timestamp r0) as G by lra.
    apply Qle_bool_iff in G. congruence.
  - destruct rows as [|y rows]; [inversion H |]. cbn [latest_row] in E.
    destruct (latest_row_some rows y) as [r Hr]. congruence.
Qed.

(** The store after a processed update whose store calls succeed. *)
Lemma processed_store w cur :
  strip (delta_of w cur) <> [] ->
  storage_ok w 5 ->
  let w' := snd (process_subtitle cur w) in
  match store (self w) with
  | Sqlite subtitles _ =>
      exists phrases',
      store (self w') =
      Sqlite (subtitles ++ [mkSubtitle (S (length subtitles)) cur
                                       (clock (oracle w) (S (clock_reads w)))])
             phrases'
  | InMemory _ =>
      store (self w') =
      InMemory (mkTextDb cur (Some (clock (oracle w) (S (clock_reads w)))))
  end.
Proof.
  intros Hd Hok. pose proof (delta_needs_change w cur Hd) as Hne.
  apply truthy_true in Hd.
  unfold delta_of, elapsed_of, now_of in *.
  destruct w as [[dbg lut cp ph st] con cr dc e].
  destruct st as [subs phs|db].
  - pose proof (storage_ok_at (k := 0) Hok eq_refl ltac:(lia)) as F0.
    pose proof (storage_ok_at (k := 1) Hok eq_refl ltac:(lia)) as F1.
    pose proof (storage_ok_at (k := 2) Hok eq_refl ltac:(lia)) as F2.
    pose proof (storage_ok_at (k := 3) Hok eq_refl ltac:(lia)) as F3.
    pose proof (storage_ok_at (k := 4) Hok eq_refl ltac:(lia)) as F4.
    clear Hok. world_fields.
    rewrite Nat.add_0_r in F0. rewrite Nat.add_1_r in F1.
    replace (dc + 2)%nat with (S (S dc)) in F2 by lia.
    replace (dc + 3)%nat with (S (S (S dc))) in F3 by lia.
    replace (dc + 4)%nat with (S (S (S (S dc)))) in F4 by lia.
    py_unfold. world_fields. rewrite F0. world_fields. rewrite Hne. world_fields.
    rewrite Hd. world_fields.
    destruct (Qlt_bool _ 2); destruct dbg; world_fields;
      destruct (truthy cp) eqn:Hcp; world_fields;
      try (destruct (contains cp cur); world_fields);
      rewrite ?F1; world_fields; rewrite ?F2; world_fields;
      rewrite ?F3; world_fields; rewrite ?F4; world_fields;
      eexists; reflexivity.
  - clear Hok. world_fields.
    py_unfold. world_fields. rewrite Hne. world_fields.
    rewrite Hd. world_fields.
    destruct (Qlt_bool _ 2); destruct dbg; world_fields;
      destruct (truthy cp) eqn:Hcp; world_fields;
      try (destruct (contains cp cur); world_fields);
      reflexivity.
Qed.

Lemma read_back w cur :
  strip (delta_of w cur) <> [] ->
  storage_ok w 5 ->
  Forall (fun r => sub_timestamp r < clock (oracle w) (S (clock_reads w)))
         (snapshot_rows (self w)) ->
  latest_text (self (snd (process_subtitle cur w))) = cur.
Proof.
  intros Hd Hok Hnew. pose proof (processed_store cur Hd Hok) as H.
  cbv zeta in H. unfold latest_text, snapshot_rows in *.
  destruct (store (self w)) as [subs phs|db].
  - destruct H as [phs' ->]. now rewrite latest_row_newer.
  - now rewrite H.
Qed.

Lemma stale_read w cur :
  strip (delta_of w cur) <> [] ->
  storage_ok w 5 ->
  Exists (fun r => clock (oracle w) (S (clock_reads w)) < sub_timestamp r)
         (snapshot_rows (self w)) ->
  latest_text (self (snd (process_subtitle cur w))) = latest_text (self w).
Proof.
  intros Hd Hok Hold. pose proof (processed_store cur Hd Hok) as H.
  cbv zeta in H. unfold latest_text, snapshot_rows in *.
  destruct (store (self w)) as [subs phs|db]; [|inversion Hold].
  destruct H as [phs' ->]. now rewrite latest_row_older.
Qed.

Local Close Scope Q_scope.

End StoreFacts.

Module DifflibSound.
Import Difflib DifflibFacts.

Section Sound.

Variables a b : str.
Let sm := new_matcher a b.

Lemma runs_inv_get i j2len :
  runs_inv a b i j2len ->
  forall j,
    j2lenget j2len j <= i /\ j2lenget j2len j <= j /\
    forall t, t < j2lenget j2len j -> at_ a (i - 1 - t) = at_ b (j - 1 - t).
Proof.
  intros H [|j]; cbn [j2lenget].
  - repeat split; intros; lia.
  - destruct (H j) as (H1 & H2 & H3). repeat split; try lia.
    intros t Ht. rewrite H3 by exact Ht. f_equal. lia.
Qed.

Lemma flm_inner_sound blo bhi i j2len :
  runs_inv a b i j2len ->
  forall js newj2len best,
    (forall j, In j js -> at_ b j = at_ a i) ->
    runs_inv a b (S i) newj2len ->
    genuine3 a b best ->
    runs_inv a b (S i) (fst (flm_inner blo bhi i j2len js newj2len best)) /\
    genuine3 a b (snd (flm_inner blo bhi i j2len js newj2len best)).
Proof.
  intros Hrow. pose proof (runs_inv_get Hrow) as G.
  induction js as [|j js IH]; intros nj [[bi bj] bs] Hjs Hn Hb; cbn [flm_inner].
  - now split.
  - assert (Hjs' : forall x, In x js -> at_ b x = at_ a i)
      by (intros x Hx; apply Hjs; now right).
    destruct (j <? blo); [now apply IH |].
    destruct (bhi <=? j); [now split |].
    destruct (G j) as (G1 & G2 & G3).
    set (k := j2lenget j2len j + 1) in *.
    assert (Hrun : forall t, t < k -> at_ a (i - t) = at_ b (j - t)).
    { intros [|t] Ht.
      - rewrite !Nat.sub_0_r. symmetry. apply Hjs. now left.
      - replace (i - S t) with (i - 1 - t) by lia.
        replace (j - S t) with (j - 1 - t) by lia.
        apply G3. unfold k in Ht. lia. }
    apply IH; [exact Hjs' | |].
    + intros x. rewrite get_cons_nat. destruct (j =? x) eqn:E.
      * apply Nat.eqb_eq in E. subst x. unfold k. repeat split; try lia.
        intros t Ht. replace (S i - 1 - t) with (i - t) by lia.
        now apply Hrun.
      * apply Hn.
    + destruct (bs <? k); [|exact Hb].
      intros t Ht. cbn [m_a m_b m_size] in *.
      replace (i + 1 - k + t) with (i - (k - 1 - t)) by (unfold k in *; lia).
      replace (j + 1 - k + t) with (j - (k - 1 - t)) by (unfold k in *; lia).
      apply Hrun. lia.
Qed.

Lemma b2j_elements c j :
  In j (get N.eqb (b2j sm) c []) -> at_ b j = c.
Proof.
  unfold sm. rewrite b2j_get. destruct (mem _ _); [intros [] |].
  intros H. apply indices_from_spec in H. rewrite Nat.sub_0_r in H. tauto.
Qed.

Lemma runs_inv_nil i : runs_inv a b i [].
Proof. intros j. cbn [get]. repeat split; intros; lia. Qed.

Lemma flm_rows_sound blo bhi n : forall i j2len best,
  runs_inv a b i j2len -> genuine3 a b best ->
  genuine3 a b (flm_rows sm blo bhi n i j2len best).
Proof.
  induction n as [|n IH]; intros i j2len best Hrow Hb; cbn [flm_rows];
    [exact Hb |].
  pose proof (@flm_inner_sound blo bhi i j2len Hrow
                (get N.eqb (b2j sm) (at_ (sm_a sm) i) []) [] best) as H.
  destruct (flm_inner blo bhi i j2len _ [] best) as [nj best'].
  cbn [fst snd] in H. destruct H as [H1 H2].
  - intros j Hj. now apply b2j_elements in Hj.
  - apply runs_inv_nil.
  - exact Hb.
  - now apply IH.
Qed.

Lemma extend_back_sound junk alo blo bi : forall bj bs,
  genuine3 a b (bi, bj, bs) ->
  genuine3 a b (extend_back sm junk alo blo bi bj bs).
Proof.
  induction bi as [|i' IH]; intros bj bs H; cbn [extend_back]; [exact H |].
  destruct bj as [|j']; [exact H |].
  destruct (_ && _) eqn:E; [|exact H].
  apply IH. apply andb_prop in E. destruct E as [_ E]. apply N.eqb_eq in E.
  intros [|t] Ht; cbn [m_a m_b m_size] in *.
  - now rewrite !Nat.add_0_r.
  - replace (i' + S t) with (S i' + t) by lia.
    replace (j' + S t) with (S j' + t) by lia.
    apply H. cbn [m_size]. lia.
Qed.

Lemma extend_fwd_sound junk ahi bhi bi bj fuel : forall bs,
  genuine3 a b (bi, bj, bs) ->
  genuine3 a b (bi, bj, extend_fwd fuel sm junk ahi bhi bi bj bs).
Proof.
  induction fuel as [|fuel IH]; intros bs H; cbn [extend_fwd]; [exact H |].
  destruct (_ && _) eqn:E; [|exact H].
  apply IH. apply andb_prop in E. destruct E as [_ E]. apply N.eqb_eq in E.
  intros t Ht. cbn [m_a m_b m_size] in *.
  destruct (Nat.eq_dec t bs) as [->|Hne]; [exact E |].
  apply H. cbn [m_size]. lia.
Qed.

(** The block [find_longest_match] returns is made of equal elements. *)
Lemma find_longest_match_genuine alo ahi blo bhi :
  genuine a b (find_longest_match sm alo ahi blo bhi).
Proof.
  unfold find_longest_match.
  pose proof (@flm_rows_sound blo bhi (ahi - alo) alo [] (alo, blo, 0)
                (runs_inv_nil alo)) as H0.
  destruct (flm_rows sm blo bhi (ahi - alo) alo [] (alo, blo, 0)) as [[b1 c1] s1].
  assert (G1 : genuine3 a b (b1, c1, s1))
    by (apply H0; intros t Ht; cbn in Ht; lia).
  pose proof (@extend_back_sound false alo blo b1 c1 s1 G1) as G2.
  destruct (extend_back sm false alo blo b1 c1 s1) as [[b2 c2] s2].
  pose proof (@extend_fwd_sound false ahi bhi b2 c2 (ahi - (b2 + s2)) s2 G2) as G3.
  set (s3 := extend_fwd (ahi - (b2 + s2)) sm false ahi bhi b2 c2 s2) in *.
  pose proof (@extend_back_sound true alo blo b2 c2 s3 G3) as G4.
  destruct (extend_back sm true alo blo b2 c2 s3) as [[b4 c4] s4].
  exact (@extend_fwd_sound true ahi bhi b4 c4 (ahi - (b4 + s4)) s4 G4).
Qed.

Lemma blocks_loop_genuine fuel : forall queue acc,
  Forall (genuine a b) acc ->
  Forall (genuine a b) (blocks_loop fuel sm queue acc).
Proof.
  induction fuel as [|fuel IH]; intros queue acc H; cbn [blocks_loop];
    [exact H |].
  destruct queue as [|[[[alo ahi] blo] bhi] queue]; [exact H |].
  destruct (_ =? 0); [now apply IH |].
  apply IH. apply Forall_app. split; [exact H |].
  constructor; [apply find_longest_match_genuine | constructor].
Qed.

Lemma collapse_genuine blocks : forall i1 j1 k1 na,
  Forall (genuine a b) blocks ->
  genuine a b (mkMatch i1 j1 k1) ->
  Forall (genuine a b) na ->
  Forall (genuine a b) (fst (collapse blocks i1 j1 k1 na)) /\
  genuine3 a b (snd (collapse blocks i1 j1 k1 na)).
Proof.
  induction blocks as [|x blocks IH]; intros i1 j1 k1 na Hb Hp Hn;
    cbn [collapse]; [now split |].
  apply Forall_cons_iff in Hb. destruct Hb as [Hx Hb].
  destruct (_ && _) eqn:E.
  - apply IH; [exact Hb | | exact Hn].
    apply andb_prop in E. destruct E as [E1 E2].
    apply Nat.eqb_eq in E1. apply Nat.eqb_eq in E2.
    intros t Ht. cbn [m_a m_b m_size] in *.
    destruct (Nat.lt_ge_cases t k1) as [Hlt|Hge]; [now apply Hp |].
    replace (i1 + t) with (m_a x + (t - k1)) by lia.
    replace (j1 + t) with (m_b x + (t - k1)) by lia.
    apply Hx. lia.
  - apply IH; [exact Hb | now destruct x |].
    destruct (k1 =? 0); [exact Hn |].
    apply Forall_app. split; [exact Hn | now constructor].
Qed.

Lemma get_matching_blocks_genuine :
  Forall (genuine a b) (get_matching_blocks sm).
Proof.
  unfold get_matching_blocks.
  set (found := blocks_loop (blocks_fuel sm) sm
                  [(0, length (sm_a sm), 0, length (sm_b sm))] []).
  assert (Hf : Forall (genuine a b) (sort found)).
  { apply Forall_forall. intros z Hz. apply ChainFacts.sort_in in Hz.
    revert z Hz. apply Forall_forall. apply blocks_loop_genuine. constructor. }
  pose proof (@collapse_genuine (sort found) 0 0 0 [] Hf) as H.
  destruct (collapse (sort found) 0 0 0 []) as [na [[i1 j1] k1]].
  cbn [fst snd genuine3] in H.
  destruct H as [H1 H2]; [intros t Ht; cbn in Ht; lia | constructor |].
  apply Forall_app. split.
  - destruct (k1 =? 0); [exact H1 |].
    apply Forall_app. split; [exact H1 | now constructor].
  - constructor; [|constructor]. intros t Ht. cbn in Ht. lia.
Qed.

End Sound.

End DifflibSound.

Module AlignFacts.
Import Difflib DifflibFacts DifflibSound ChainFacts DeltaFacts.

Lemma nth_slice (s : str) i k t :
  t < k -> i + k <= length s -> nth t (slice s i (i + k)) 0%N = at_ s (i + t).
Proof.
  intros Ht Hk. unfold slice, at_. replace (i + k - i) with k by lia.
  rewrite nth_firstn.
  replace (t <? k) with true by (symmetry; now apply Nat.ltb_lt).
  now rewrite nth_skipn.
Qed.

Lemma length_slice (s : str) i k :
  i + k <= length s -> length (slice s i (i + k)) = k.
Proof.
  intros Hk. unfold slice. replace (i + k - i) with k by lia.
  rewrite length_firstn, length_skipn. lia.
Qed.

(** A block of equal elements, as slices. *)
Lemma genuine_slices a b x :
  genuine a b x ->
  m_a x + m_size x <= length a -> m_b x + m_size x <= length b ->
  slice a (m_a x) (m_a x + m_size x) = slice b (m_b x) (m_b x + m_size x).
Proof.
  intros H Ha Hb. apply (nth_ext _ _ 0%N 0%N).
  - now rewrite !length_slice.
  - intros t Ht. rewrite length_slice in Ht by exact Ha.
    rewrite !nth_slice by assumption. now apply H.
Qed.

Lemma chain_within la lb body : forall i j,
  chain_from i j (body ++ [mkMatch la lb 0]) -> i <= la /\ j <= lb.
Proof.
  induction body as [|x body IH]; intros i j H; cbn [app chain_from] in H.
  - cbn [m_a m_b] in H. lia.
  - destruct H as (H1 & H2 & H3). apply IH in H3. lia.
Qed.

Lemma eqb_true (x y : str) : x = y -> Str.eqb x y = true.
Proof. intros ->. apply ProcessFacts.eqb_refl. Qed.

Lemma aligned_cons a b tag i1 i2 j1 j2 ops i j :
  aligned_from a b ((tag, i1, i2, j1, j2) :: ops) i j =
  (i1 =? i) && (j1 =? j) && (i2 <=? length a) && (j2 <=? length b) &&
  op_shape a b (tag, i1, i2, j1, j2) && aligned_from a b ops i2 j2.
Proof. reflexivity. Qed.

(** The opcodes over a chain of blocks of equal elements that ends with the
    sentinel are an alignment. *)
Lemma opcodes_aligned a b body : forall i j,
  chain_from i j (body ++ [mkMatch (length a) (length b) 0]) ->
  Forall (genuine a b) body ->
  Forall (fun x => 0 < m_size x) body ->
  aligned_from a b
    (opcodes_loop (body ++ [mkMatch (length a) (length b) 0]) i j) i j = true.
Proof.
  induction body as [|x body IH]; intros i j Hc Hg Hp.
  - cbn [app chain_from m_a m_b] in Hc. destruct Hc as (Hi & Hj & _).
    cbn [app opcodes_loop m_a m_b m_size Nat.eqb Nat.add].
    rewrite ?Nat.add_0_r.
    destruct (i <? length a) eqn:Ei; destruct (j <? length b) eqn:Ej;
      cbn [andb app aligned_from op_shape];
      rewrite ?Ei, ?Ej, ?Nat.eqb_refl, ?Nat.leb_refl; cbn [andb].
    + reflexivity.
    + apply Nat.ltb_ge in Ej. assert (j = length b) as -> by lia.
      now rewrite !Nat.eqb_refl, ?Nat.leb_refl.
    + apply Nat.ltb_ge in Ei. assert (i = length a) as -> by lia.
      now rewrite !Nat.eqb_refl, ?Nat.leb_refl.
    + apply Nat.ltb_ge in Ei. apply Nat.ltb_ge in Ej.
      assert (i = length a) as -> by lia. assert (j = length b) as -> by lia.
      now rewrite !Nat.eqb_refl.
  - change ((x :: body) ++ [mkMatch (length a) (length b) 0])
      with (x :: (body ++ [mkMatch (length a) (length b) 0])) in *.
    cbn [chain_from] in Hc. destruct Hc as (Hi & Hj & Hc).
    apply Forall_cons_iff in Hg. destruct Hg as [Hgx Hg].
    apply Forall_cons_iff in Hp. destruct Hp as [Hpx Hp].
    pose proof (chain_within _ _ _ _ _ Hc) as [Ha Hb].
    specialize (IH _ _ Hc Hg Hp).
    cbn [opcodes_loop].
    replace (m_size x =? 0) with false by (symmetry; apply Nat.eqb_neq; lia).
    assert (Heq : aligned_from a b
              ((equal, m_a x, m_a x + m_size x, m_b x, m_b x + m_size x)
               :: opcodes_loop (body ++ [mkMatch (length a) (length b) 0])
                    (m_a x + m_size x) (m_b x + m_size x))
              (m_a x) (m_b x) = true).
    { rewrite aligned_cons. cbn [op_shape]. rewrite !Nat.eqb_refl, IH.
      replace (m_a x + m_size x <=? length a) with true
        by (symmetry; now apply Nat.leb_le).
      replace (m_b x + m_size x <=? length b) with true
        by (symmetry; now apply Nat.leb_le).
      replace (m_a x <? m_a x + m_size x) with true
        by (symmetry; apply Nat.ltb_lt; lia).
      rewrite eqb_true by (now apply genuine_slices). reflexivity. }
    rewrite aligned_cons in Heq. cbn [op_shape] in Heq.
    rewrite !Nat.eqb_refl in Heq. cbn [andb] in Heq.
    assert (Hma : (m_a x <=? length a) = true) by (apply Nat.leb_le; lia).
    assert (Hmb : (m_b x <=? length b) = true) by (apply Nat.leb_le; lia).
    destruct (i <? m_a x) eqn:Ei; destruct (j <? m_b x) eqn:Ej;
      cbn [andb app]; rewrite ?aligned_cons; cbn [op_shape];
      rewrite ?Ei, ?Ej, ?Hma, ?Hmb, ?Nat.eqb_refl; cbn [andb].
    + exact Heq.
    + apply Nat.ltb_ge in Ej. assert (j = m_b x) as -> by lia.
      rewrite Nat.eqb_refl. exact Heq.
    + apply Nat.ltb_ge in Ei. assert (i = m_a x) as -> by lia.
      rewrite Nat.eqb_refl. exact Heq.
    + apply Nat.ltb_ge in Ei. apply Nat.ltb_ge in Ej.
      assert (i = m_a x) as -> by lia. assert (j = m_b x) as -> by lia.
      rewrite !Nat.eqb_refl. exact Heq.
Qed.

End AlignFacts.

Module OpcodeFacts.
Import Difflib DifflibFacts DifflibSound ChainFacts DeltaFacts AlignFacts.

Lemma collapse_pos blocks : forall i1 j1 k1 na,
  Forall (fun x => 0 < m_size x) na ->
  Forall (fun x => 0 < m_size x) (fst (collapse blocks i1 j1 k1 na)).
Proof.
  induction blocks as [|x blocks IH]; intros i1 j1 k1 na H; cbn [collapse];
    [exact H |].
  destruct (_ && _); [now apply IH |].
  apply IH. destruct (k1 =? 0) eqn:E; [exact H |].
  apply Forall_app. split; [exact H |].
  constructor; [|constructor]. cbn [m_size]. apply Nat.eqb_neq in E. lia.
Qed.

(** The non-empty blocks [get_matching_blocks] returns before its
    sentinel. *)
Lemma get_matching_blocks_body sm :
  exists body,
    get_matching_blocks sm =
      body ++ [mkMatch (length (sm_a sm)) (length (sm_b sm)) 0] /\
    Forall (fun x => 0 < m_size x) body.
Proof.
  unfold get_matching_blocks.
  set (found := blocks_loop _ _ _ _).
  pose proof (@collapse_pos (sort found) 0 0 0 [] (Forall_nil _)) as H.
  destruct (collapse (sort found) 0 0 0 []) as [na [[i1 j1] k1]].
  cbn [fst] in H. destruct (k1 =? 0) eqn:E.
  - exists na. now split.
  - exists (na ++ [mkMatch i1 j1 k1]). split; [reflexivity |].
    apply Forall_app. split; [exact H |].
    constructor; [|constructor]. cbn [m_size]. apply Nat.eqb_neq in E. lia.
Qed.

(** difflib's opcodes are an alignment of the two texts. *)
Lemma get_opcodes_alignment a b :
  alignment a b (get_opcodes (new_matcher a b)).
Proof.
  unfold alignment, get_opcodes.
  pose proof (get_matching_blocks_chain (new_matcher a b)) as Hc.
  pose proof (get_matching_blocks_genuine a b) as Hg.
  destruct (get_matching_blocks_body (new_matcher a b)) as [body [E Hp]].
  change (sm_a (new_matcher a b)) with a in E.
  change (sm_b (new_matcher a b)) with b in E.
  rewrite E in *. apply opcodes_aligned; [exact Hc | | exact Hp].
  apply Forall_app in Hg. tauto.
Qed.

(** *** The longest block is kept *)

Lemma holds_refl x : holds x x.
Proof. unfold holds. lia. Qed.

Lemma blocks_loop_keeps sm fuel : forall queue acc y,
  In y acc -> In y (blocks_loop fuel sm queue acc).
Proof.
  induction fuel as [|fuel IH]; intros queue acc y H; cbn [blocks_loop];
    [exact H |].
  destruct queue as [|[[[alo ahi] blo] bhi] queue]; [exact H |].
  destruct (_ =? 0); [now apply IH |].
  apply IH. apply in_or_app. now left.
Qed.

Lemma in_insert_sorted x l z :
  z = x \/ In z l -> In z (insert_sorted x l).
Proof.
  induction l as [|y l IH]; cbn [insert_sorted].
  - intros [->|[]]. now left.
  - destruct (match_leb x y).
    + intros [->|H]; [now left | now right].
    + intros [->|[->|H]].
      * right. apply IH. now left.
      * now left.
      * right. apply IH. now right.
Qed.

Lemma in_sort l z : In z l -> In z (sort l).
Proof.
  induction l as [|x l IH]; cbn [sort fold_right]; [tauto |].
  intros [->|H]; apply in_insert_sorted; [now left | right; now apply IH].
Qed.

Lemma collapse_holds blocks : forall i1 j1 k1 na x,
  0 < m_size x ->
  (In x blocks \/ holds (mkMatch i1 j1 k1) x \/ exists y, In y na /\ holds y x) ->
  let r := collapse blocks i1 j1 k1 na in
  (exists y, In y (fst r) /\ holds y x) \/
  holds (mkMatch (fst (fst (snd r))) (snd (fst (snd r))) (snd (snd r))) x.
Proof.
  induction blocks as [|z blocks IH]; intros i1 j1 k1 na x Hpos H;
    cbn [collapse].
  - cbn [fst snd]. destruct H as [[]|[H|H]]; [now right | now left].
  - destruct (_ && _) eqn:E.
    + apply andb_prop in E. destruct E as [E1 E2].
      apply Nat.eqb_eq in E1. apply Nat.eqb_eq in E2.
      apply IH; [exact Hpos |].
      destruct H as [[->|H]|[H|H]].
      * right. left. unfold holds. cbn [m_a m_b m_size]. lia.
      * now left.
      * right. left. unfold holds in *. cbn [m_a m_b m_size] in *. lia.
      * right. now right.
    + apply IH; [exact Hpos |].
      destruct H as [[->|H]|[H|H]].
      * right. left. destruct x. apply holds_refl.
      * now left.
      * right. right. exists (mkMatch i1 j1 k1). split; [|exact H].
        destruct (k1 =? 0) eqn:K.
        -- apply Nat.eqb_eq in K. subst k1. unfold holds in H.
           cbn [m_a m_b m_size] in H. lia.
        -- apply in_or_app. right. now left.
      * right. right. destruct H as [y [Hy Hh]]. exists y. split; [|exact Hh].
        destruct (k1 =? 0); [exact Hy | apply in_or_app; now left].
Qed.

Lemma opcodes_equal blocks y : forall i j,
  In y blocks -> 0 < m_size y ->
  In (equal, m_a y, m_a y + m_size y, m_b y, m_b y + m_size y)
     (opcodes_loop blocks i j).
Proof.
  induction blocks as [|z blocks IH]; intros i j H Hpos; [destruct H |].
  cbn [opcodes_loop]. apply in_or_app. right. apply in_or_app.
  destruct H as [->|H].
  - left. replace (m_size y =? 0) with false
      by (symmetry; apply Nat.eqb_neq; lia).
    now left.
  - right. now apply IH.
Qed.

(** The longest matching block lies under one ['equal'] opcode. *)
Lemma longest_match_kept a b :
  let x := find_longest_match (new_matcher a b) 0 (length a) 0 (length b) in
  0 < m_size x ->
  exists i1 i2 j1 j2,
    In (equal, i1, i2, j1, j2) (get_opcodes (new_matcher a b)) /\
    i1 <= m_a x /\ m_a x + m_size x <= i2 /\ m_a x + j1 = m_b x + i1.
Proof.
  intros x Hpos. unfold get_opcodes, get_matching_blocks.
  set (sm := new_matcher a b) in *.
  change (sm_a sm) with a. change (sm_b sm) with b.
  set (found := blocks_loop (blocks_fuel sm) sm [(0, length a, 0, length b)] []).
  assert (Hin : In x (sort found)).
  { apply in_sort. unfold found, blocks_fuel.
    replace (2 * length (sm_a sm) + 1) with (S (2 * length (sm_a sm))) by lia.
    cbn [blocks_loop]. fold x.
    replace (m_size x =? 0) with false by (symmetry; apply Nat.eqb_neq; lia).
    apply blocks_loop_keeps. now left. }
  pose proof (@collapse_holds (sort found) 0 0 0 [] x Hpos (or_introl Hin)) as H.
  destruct (collapse (sort found) 0 0 0 []) as [na [[i1 j1] k1]].
  cbn [fst snd] in H.
  assert (Hy : exists y, In y ((if k1 =? 0 then na else na ++ [mkMatch i1 j1 k1])
                                 ++ [mkMatch (length a) (length b) 0]) /\
                         holds y x).
  { destruct H as [[y [Hy Hh]]|Hh].
    - exists y. split; [|exact Hh]. apply in_or_app. left.
      destruct (k1 =? 0); [exact Hy | apply in_or_app; now left].
    - exists (mkMatch i1 j1 k1). split; [|exact Hh]. apply in_or_app. left.
      destruct (k1 =? 0) eqn:K.
      + apply Nat.eqb_eq in K. subst k1. unfold holds in Hh.
        cbn [m_a m_b m_size] in Hh. lia.
      + apply in_or_app. right. now left. }
  destruct Hy as [y [Hy Hh]].
  exists (m_a y), (m_a y + m_size y), (m_b y), (m_b y + m_size y).
  split.
  - apply opcodes_equal; [exact Hy |]. unfold holds in Hh. lia.
  - unfold holds in Hh. lia.
Qed.

(** *** The cost of an alignment and the text it inserts *)

Lemma length_slice_le (s : str) i j : length (slice s i j) <= j - i.
Proof. unfold slice. rewrite length_firstn. lia. Qed.

Lemma inserted_cost new ops : length (inserted_text new ops) <= edit_cost ops.
Proof.
  unfold inserted_text, diff_blocks.
  induction ops as [|[[[[tag i1] i2] j1] j2] ops IH]; [cbn; lia |].
  cbn [edit_cost fold_right flat_map]. fold (edit_cost ops).
  pose proof (length_slice_le new j1 j2).
  destruct tag; cbn [app]; rewrite ?join_nil_cons, ?length_app; lia.
Qed.

(** *** A non-empty block at the start of both texts *)

Lemma common_start a b x :
  genuine a b x -> m_a x = 0 -> m_b x = 0 ->
  m_size x <= length a -> m_size x <= length b ->
  firstn (m_size x) a = firstn (m_size x) b.
Proof.
  intros Hg Ha Hb La Lb.
  pose proof (@genuine_slices a b x Hg) as H. rewrite Ha, Hb in H.
  unfold slice in H. cbn [Nat.add skipn] in H. rewrite Nat.sub_0_r in H.
  apply H; lia.
Qed.

End OpcodeFacts.

(** * The claims *)

(** ** The delta ([find_diff]) *)

(** C2.  If [new_text] starts with [old_text] and is strictly longer,
    [find_diff] returns exactly the literal suffix
    [new_text[len(old_text):]]. *)
Theorem find_diff_returns_suffix old_text new_text :
  startswith old_text new_text = true ->
  length old_text < length new_text ->
  find_diff old_text new_text = skipn (length old_text) new_text.
Proof. apply DiffFacts.find_diff_suffix. Qed.

Lemma find_diff_returns_suffix_witness :
  find_diff (py "Hello") (py "Hello there") =
  skipn (length (py "Hello")) (py "Hello there").
Proof.
  apply (@find_diff_returns_suffix (py "Hello") (py "Hello there")).
  - vm_compute. reflexivity.
  - vm_compute. lia.
Defined.

(** C3, as stated, fails twice.  The shortcut is taken without the prefix
    relation: ["ab"] is not empty and not a prefix of ["acd"], the
    alignment (equal ["a"], replace ["b"] by ["cd"]) gives ["cd"], yet
    [find_diff] returns the suffix ["d"].  And the alignment is difflib's,
    not a minimal-edit one: for ["abcdef"] and ["bcdeXabcYdef"] the result
    ["XabcYde"] comes from an alignment that deletes one character and
    inserts seven, while an alignment that inserts six and deletes none
    exists; any alignment that yields ["XabcYde"] costs seven or more. *)
Lemma find_diff_shortcut_without_prefix :
  (truthy (py "ab") = true /\
   startswith (py "ab") (py "acd") = false /\
   longest_match (py "ab") (py "acd") = Difflib.mkMatch 0 0 1 /\
   Difflib.get_opcodes (Difflib.new_matcher (py "ab") (py "acd")) =
     [(Difflib.equal, 0, 1, 0, 1); (Difflib.replace, 1, 2, 1, 3)] /\
   opcode_diff (py "ab") (py "acd") = py "cd" /\
   find_diff (py "ab") (py "acd") = py "d") /\
  (truthy (py "abcdef") = true /\
   startswith (py "abcdef") (py "bcdeXabcYdef") = false /\
   Difflib.get_opcodes (Difflib.new_matcher (py "abcdef") (py "bcdeXabcYdef")) =
     [(Difflib.delete, 0, 1, 0, 0); (Difflib.equal, 1, 5, 0, 4);
      (Difflib.insert, 5, 5, 4, 11); (Difflib.equal, 5, 6, 11, 12)] /\
   find_diff (py "abcdef") (py "bcdeXabcYdef") = py "XabcYde" /\
   edit_cost
     (Difflib.get_opcodes (Difflib.new_matcher (py "abcdef") (py "bcdeXabcYdef"))) = 8 /\
   alignment (py "abcdef") (py "bcdeXabcYdef") inserting_alignment /\
   edit_cost inserting_alignment = 6 /\
   inserted_text (py "bcdeXabcYdef") inserting_alignment = py "bcdeXY" /\
   forall ops,
     inserted_text (py "bcdeXabcYdef") ops = py "XabcYde" -> 7 <= edit_cost ops).
Proof.
  split; [vm_compute; repeat split; reflexivity |].
  repeat split; try (vm_compute; reflexivity).
  intros ops H. pose proof (OpcodeFacts.inserted_cost (py "bcdeXabcYdef") ops) as Hc.
  rewrite H in Hc. exact Hc.
Qed.

(** C3, amended.  For a non-empty [old_text]: the opcodes of difflib are an
    alignment of the two texts (operations that follow one another and cover
    both, ['equal'] ones over equal parts) which keeps the longest matching
    block under one ['equal'] operation.  When that block is not empty and
    starts at index 0 of both texts, which then begin alike, and [new_text]
    is strictly longer, [find_diff] returns the suffix
    [new_text[len(old_text):]], whether or not [old_text] is a prefix of
    [new_text]; when the block does not start at index 0 of both texts, or
    [new_text] is not longer, it returns the in-order concatenation of the
    parts of [new_text] under the ['insert'] and ['replace'] operations of
    that alignment. *)
Theorem find_diff_by_cases old_text new_text :
  old_text <> [] ->
  alignment old_text new_text
    (Difflib.get_opcodes (Difflib.new_matcher old_text new_text)) /\
  (0 < Difflib.m_size (longest_match old_text new_text) ->
   exists i1 i2 j1 j2,
     In (Difflib.equal, i1, i2, j1, j2)
        (Difflib.get_opcodes (Difflib.new_matcher old_text new_text)) /\
     i1 <= Difflib.m_a (longest_match old_text new_text) /\
     Difflib.m_a (longest_match old_text new_text) +
       Difflib.m_size (longest_match old_text new_text) <= i2 /\
     Difflib.m_a (longest_match old_text new_text) + j1 =
       Difflib.m_b (longest_match old_text new_text) + i1) /\
  (Difflib.m_a (longest_match old_text new_text) = 0 ->
   Difflib.m_b (longest_match old_text new_text) = 0 ->
   0 < Difflib.m_size (longest_match old_text new_text) ->
   length old_text < length new_text ->
   firstn (Difflib.m_size (longest_match old_text new_text)) old_text <> [] /\
   firstn (Difflib.m_size (longest_match old_text new_text)) old_text =
     firstn (Difflib.m_size (longest_match old_text new_text)) new_text /\
   find_diff old_text new_text = skipn (length old_text) new_text) /\
  (Difflib.m_a (longest_match old_text new_text) <> 0 \/
   Difflib.m_b (longest_match old_text new_text) <> 0 \/
   length new_text <= length old_text ->
   find_diff old_text new_text =
     inserted_text new_text
       (Difflib.get_opcodes (Difflib.new_matcher old_text new_text))).
Proof.
  intros Hne.
  assert (H : find_diff old_text new_text =
              if (Difflib.m_a (longest_match old_text new_text) =? 0) &&
                 (Difflib.m_b (longest_match old_text new_text) =? 0) &&
                 (length old_text <? length new_text)
              then skipn (length old_text) new_text
              else inserted_text new_text
                     (Difflib.get_opcodes (Difflib.new_matcher old_text new_text))).
  { unfold find_diff, longest_match, inserted_text.
    destruct old_text; [congruence | reflexivity]. }
  split; [apply OpcodeFacts.get_opcodes_alignment |].
  split; [apply OpcodeFacts.longest_match_kept |].
  rewrite H. split.
  - intros Ea Eb Hpos Hlen. split; [|split].
    + destruct old_text; [congruence |].
      destruct (Difflib.m_size _); [lia | discriminate].
    + pose proof (@DifflibBox.find_longest_match_box
                    (Difflib.new_matcher old_text new_text)
                    0 (length old_text) 0 (length new_text)
                    (Nat.le_0_l _) (Nat.le_0_l _)) as Hbox.
      cbv zeta in Hbox. fold (longest_match old_text new_text) in Hbox.
      apply OpcodeFacts.common_start; try assumption; try lia.
      apply DifflibSound.find_longest_match_genuine.
    + rewrite Ea, Eb. cbn [Nat.eqb andb].
      now replace (length old_text <? length new_text) with true
        by (symmetry; now apply Nat.ltb_lt).
  - intros [Ha|[Hb|Hlen]].
    + apply Nat.eqb_neq in Ha. now rewrite Ha.
    + apply Nat.eqb_neq in Hb. now rewrite Hb, andb_false_r.
    + replace (length old_text <? length new_text) with false
        by (symmetry; apply Nat.ltb_ge; exact Hlen).
      now rewrite andb_false_r.
Qed.

Lemma find_diff_by_cases_witness :
  alignment (py "ab") (py "acd")
    (Difflib.get_opcodes (Difflib.new_matcher (py "ab") (py "acd"))) /\
  (0 < Difflib.m_size (longest_match (py "ab") (py "acd")) ->
   exists i1 i2 j1 j2,
     In (Difflib.equal, i1, i2, j1, j2)
        (Difflib.get_opcodes (Difflib.new_matcher (py "ab") (py "acd"))) /\
     i1 <= Difflib.m_a (longest_match (py "ab") (py "acd")) /\
     Difflib.m_a (longest_match (py "ab") (py "acd")) +
       Difflib.m_size (longest_match (py "ab") (py "acd")) <= i2 /\
     Difflib.m_a (longest_match (py "ab") (py "acd")) + j1 =
       Difflib.m_b (longest_match (py "ab") (py "acd")) + i1) /\
  (Difflib.m_a (longest_match (py "ab") (py "acd")) = 0 ->
   Difflib.m_b (longest_match (py "ab") (py "acd")) = 0 ->
   0 < Difflib.m_size (longest_match (py "ab") (py "acd")) ->
   length (py "ab") < length (py "acd") ->
   firstn (Difflib.m_size (longest_match (py "ab") (py "acd"))) (py "ab") <> [] /\
   firstn (Difflib.m_size (longest_match (py "ab") (py "acd"))) (py "ab") =
     firstn (Difflib.m_size (longest_match (py "ab") (py "acd"))) (py "acd") /\
   find_diff (py "ab") (py "acd") = skipn (length (py "ab")) (py "acd")) /\
  (Difflib.m_a (longest_match (py "ab") (py "acd")) <> 0 \/
   Difflib.m_b (longest_match (py "ab") (py "acd")) <> 0 \/
   length (py "acd") <= length (py "ab") ->
   find_diff (py "ab") (py "acd") =
     inserted_text (py "acd")
       (Difflib.get_opcodes (Difflib.new_matcher (py "ab") (py "acd")))).
Proof.
  apply (@find_diff_by_cases (py "ab") (py "acd")). discriminate.
Defined.

(** ** The suppressor ([clean_duplicates]) *)

Lemma lstrip_token_first c s : isspace c = false -> lstrip (c :: s) = c :: s.
Proof. intros H. cbn. now rewrite H. Qed.

Lemma rstrip_token_last s x : isspace x = false -> rstrip (s ++ [x]) = s ++ [x].
Proof.
  intros H. unfold rstrip. rewrite rev_unit, lstrip_token_first by exact H.
  cbn [rev]. now rewrite rev_involutive.
Qed.

Lemma token_first w :
  tokenb w = true -> exists c s, w = c :: s /\ isspace c = false.
Proof.
  unfold tokenb. intros H. apply andb_prop in H. destruct H as [Hne Hns].
  destruct w as [|c s]; [discriminate |].
  exists c, s. split; [reflexivity |]. now apply (@StrFacts.nospace_cons c s).
Qed.

Lemma token_last w :
  tokenb w = true -> exists s x, w = s ++ [x] /\ isspace x = false.
Proof.
  unfold tokenb. intros H. apply andb_prop in H. destruct H as [Hne Hns].
  destruct (exists_last (l := w)) as [s [x ->]];
    [destruct w; [discriminate | congruence] |].
  exists s, x. split; [reflexivity |].
  unfold nospace in Hns. rewrite forallb_app in Hns.
  apply andb_prop in Hns. destruct Hns as [_ Hx]. cbn in Hx.
  rewrite andb_true_r in Hx. now apply negb_true_iff.
Qed.

Lemma join_first ws :
  forallb tokenb ws = true -> ws <> [] ->
  exists c s, join [space] ws = c :: s /\ isspace c = false.
Proof.
  destruct ws as [|w ws]; [congruence |]. intros H _.
  cbn [forallb] in H. apply andb_prop in H. destruct H as [Hw _].
  destruct (@token_first w Hw) as [c [s [-> Hc]]].
  cbn [join]. destruct ws as [|w' ws]; [now exists c, s |].
  exists c, (s ++ [space] ++ join [space] (w' :: ws)). now split.
Qed.

Lemma join_last ws :
  forallb tokenb ws = true -> ws <> [] ->
  exists s x, join [space] ws = s ++ [x] /\ isspace x = false.
Proof.
  induction ws as [|w ws IH]; [congruence |]. intros H _.
  cbn [forallb] in H. apply andb_prop in H. destruct H as [Hw Hws].
  cbn [join]. destruct ws as [|w' ws]; [now apply token_last |].
  destruct (IH Hws ltac:(discriminate)) as [s [x [E Hx]]].
  rewrite E. exists (w ++ [space] ++ s), x. split; [|exact Hx].
  now rewrite <- !app_assoc.
Qed.

(** A text made of words joined by single spaces has nothing to strip. *)
Lemma strip_join ws :
  forallb tokenb ws = true -> strip (join [space] ws) = join [space] ws.
Proof.
  intros H. destruct ws as [|w ws]; [reflexivity |].
  unfold strip.
  destruct (@join_first (w :: ws) H ltac:(discriminate)) as [c [s [E Hc]]].
  rewrite E, lstrip_token_first by exact Hc. rewrite <- E.
  destruct (@join_last (w :: ws) H ltac:(discriminate)) as [s' [x [E' Hx]]].
  rewrite E'. now apply rstrip_token_last.
Qed.

(** C6, as stated, fails: on ["b b a a a a b a a"] the first pass drops the
    window ["b a a"] at index 1 and keeps ["b a a b a a"], whose first
    window now occurs again after it, so a second pass returns ["b a a"]. *)
Lemma clean_duplicates_twice_differs :
  clean_duplicates (py "b b a a a a b a a") = py "b a a b a a" /\
  clean_duplicates (clean_duplicates (py "b b a a a a b a a")) = py "b a a".
Proof. vm_compute. split; reflexivity. Qed.

(** C6, amended.  [clean_duplicates(clean_duplicates(t)) ==
    clean_duplicates(t)] holds exactly when [clean_duplicates(t)] has at
    most 3 words or none of its windows of three words occurs again in the
    space-joined words after the window; in particular it holds for every
    [t] of at most 3 words. *)
Theorem clean_duplicates_idempotent_iff t :
  clean_duplicates (clean_duplicates t) = clean_duplicates t <->
  (length (split (clean_duplicates t)) <= 3 \/
   window_recurs (split (clean_duplicates t)) = false).
Proof.
  set (u := clean_duplicates t).
  assert (Hu : 3 < length (split u) -> join [space] (split u) = u).
  { intros Hlen. subst u. rewrite StrFacts.clean_duplicates_scan in *.
    destruct (length (split t) <=? 3) eqn:E.
    - apply Nat.leb_le in E. lia.
    - now rewrite StrFacts.split_join
        by apply StrFacts.scan_tokens, StrFacts.split_tokens. }
  rewrite (StrFacts.clean_duplicates_scan u).
  destruct (length (split u) <=? 3) eqn:E.
  - apply Nat.leb_le in E. tauto.
  - apply Nat.leb_gt in E. specialize (Hu E). split.
    + intros H. right.
      destruct (window_recurs (split u)) eqn:W; [|reflexivity].
      apply StrFacts.scan_shrinks in W.
      assert (Hs : scan (split u) = split u).
      { rewrite <- H at 2.
        now rewrite StrFacts.split_join
          by apply StrFacts.scan_tokens, StrFacts.split_tokens. }
      rewrite Hs in W. lia.
    + intros [H|H]; [lia |]. now rewrite StrFacts.scan_fixed.
Qed.

(** C10.  With more than 3 words [clean_duplicates] returns the kept words
    joined by single spaces: the words of the result are the kept words,
    nothing is left to strip, and when no window is dropped the result is
    the words of the input joined by single spaces; with at most 3 words the
    input comes back verbatim.  So spacing is not preserved: [" a  b c d"]
    has four words, none is dropped, and ["a b c d"] comes back. *)
Theorem clean_duplicates_normalizes_spacing :
  (forall t, length (split t) <= 3 -> clean_duplicates t = t) /\
  (forall t, 3 < length (split t) ->
     let kept := clean_loop (length (split t)) (split t) 0 [] in
     clean_duplicates t = join [space] kept /\
     split (clean_duplicates t) = kept /\
     strip (clean_duplicates t) = clean_duplicates t /\
     (window_recurs (split t) = false ->
      kept = split t /\ clean_duplicates t = join [space] (split t))) /\
  (3 < length (split (py " a  b c d")) /\
   window_recurs (split (py " a  b c d")) = false /\
   clean_duplicates (py " a  b c d") = py "a b c d").
Proof.
  split; [|split].
  - intros t H. unfold clean_duplicates.
    now replace (length (split t) <=? 3) with true
      by (symmetry; now apply Nat.leb_le).
  - intros t H kept. subst kept. rewrite StrFacts.kept_is_scan.
    assert (E : clean_duplicates t = join [space] (scan (split t))).
    { rewrite StrFacts.clean_duplicates_scan.
      now replace (length (split t) <=? 3) with false
        by (symmetry; apply Nat.leb_gt; lia). }
    assert (T : forallb tokenb (scan (split t)) = true)
      by apply StrFacts.scan_tokens, StrFacts.split_tokens.
    rewrite E. repeat split.
    + now apply StrFacts.split_join.
    + now apply strip_join.
    + now apply StrFacts.scan_fixed.
    + now rewrite StrFacts.scan_fixed.
  - vm_compute. repeat split; first [reflexivity | lia].
Qed.

(** ** The segmenter ([process_subtitle]) *)

Lemma Qlt_bool_false x y : Qlt_bool x y = false <-> (y <= x)%Q.
Proof.
  unfold Qlt_bool. rewrite negb_false_iff. apply Qle_bool_iff.
Qed.

(** C1.  In the accumulating state, an update that comes 2.0 seconds or
    more after the previous processed one and carries a non-blank delta
    appends exactly one phrase to the phrase history: its text is the
    accumulator as it was before the call, its start time the stored
    last-update time and its end time the time of this call, so the start is
    not after the end.  (The store takes the phrase: its calls up to the
    phrase's commit do not raise.) *)
Theorem gap_finalizes_one_phrase w current_text :
  truthy (current_phrase (self w)) = true ->
  strip (delta_of w current_text) <> [] ->
  (2 <= elapsed_of w)%Q ->
  storage_ok w 3 ->
  phrase_log (self (snd (process_subtitle current_text w))) =
    phrase_log (self w)
    ++ [mkPhrase (current_phrase (self w)) (last_update_time (self w))
                 (now_of w)] /\
  (last_update_time (self w) <= now_of w)%Q.
Proof.
  intros Hacc Hd Hgap Hok. split.
  - destruct (@ProcessFacts.boundary_branch w current_text Hd) as (_ & _ & H).
    + now apply Qlt_bool_false.
    + exact Hok.
    + now rewrite Hacc in H.
  - unfold elapsed_of in Hgap. lra.
Qed.

Lemma gap_finalizes_one_phrase_witness :
  phrase_log (self (snd (process_subtitle (py "Bye now") demo_world2))) =
    phrase_log (self demo_world2)
    ++ [mkPhrase (current_phrase (self demo_world2))
                 (last_update_time (self demo_world2)) (now_of demo_world2)] /\
  (last_update_time (self demo_world2) <= now_of demo_world2)%Q.
Proof.
  apply (@gap_finalizes_one_phrase demo_world2 (py "Bye now")).
  - vm_compute. reflexivity.
  - vm_compute. discriminate.
  - vm_compute. discriminate.
  - intros H. vm_compute in H. discriminate H.
Defined.

(** C7.  When the elapsed time is exactly 2.0 and the delta is not blank
    the boundary branch runs: the warning-level debug line, the blank line
    and the phrase for a non-empty accumulator, then the separator and the
    delta, which becomes the accumulator. *)
Theorem tie_takes_boundary_branch w current_text :
  strip (delta_of w current_text) <> [] ->
  (elapsed_of w == 2)%Q ->
  storage_ok w 3 ->
  Qlt_bool (elapsed_of w) 2 = false /\
  current_phrase (self (snd (process_subtitle current_text w))) =
    delta_of w current_text /\
  console (snd (process_subtitle current_text w)) =
    console w
    ++ debug_lines w (DebugLine warning
                        (DetectedChange (elapsed_of w)
                                        (delta_of w current_text)))
    ++ (if truthy (current_phrase (self w))
        then [Printed newline newline] else [])
    ++ [Printed separator newline;
        Printed (delta_of w current_text) newline] /\
  phrase_log (self (snd (process_subtitle current_text w))) =
    phrase_log (self w)
    ++ (if truthy (current_phrase (self w))
        then [mkPhrase (current_phrase (self w)) (last_update_time (self w))
                       (now_of w)]
        else []).
Proof.
  intros Hd Htie Hok.
  assert (Hq : Qlt_bool (elapsed_of w) 2 = false)
    by (apply Qlt_bool_false; rewrite Htie; apply Qle_refl).
  split; [exact Hq |].
  exact (@ProcessFacts.boundary_branch w current_text Hd Hq Hok).
Qed.

Lemma tie_takes_boundary_branch_witness :
  Qlt_bool (elapsed_of tie_world) 2 = false /\
  current_phrase (self (snd (process_subtitle (py "Hello there") tie_world))) =
    delta_of tie_world (py "Hello there") /\
  console (snd (process_subtitle (py "Hello there") tie_world)) =
    console tie_world
    ++ debug_lines tie_world
         (DebugLine warning
            (DetectedChange (elapsed_of tie_world)
                            (delta_of tie_world (py "Hello there"))))
    ++ (if truthy (current_phrase (self tie_world))
        then [Printed newline newline] else [])
    ++ [Printed separator newline;
        Printed (delta_of tie_world (py "Hello there")) newline] /\
  phrase_log (self (snd (process_subtitle (py "Hello there") tie_world))) =
    phrase_log (self tie_world)
    ++ (if truthy (current_phrase (self tie_world))
        then [mkPhrase (current_phrase (self tie_world))
                       (last_update_time (self tie_world)) (now_of tie_world)]
        else []).
Proof.
  apply (@tie_takes_boundary_branch tie_world (py "Hello there")).
  - vm_compute. discriminate.
  - vm_compute. reflexivity.
  - intros H. vm_compute in H. discriminate H.
Defined.

(** C5.  When the incoming snapshot equals the stored last text, or the
    suppressed delta is blank, [process_subtitle] changes nothing: no
    output, no write to the store, and the accumulator, the stored last
    snapshot, the last-update time and the phrase history stay as they
    were. *)
Theorem unchanged_or_blank_update_is_noop w current_text :
  current_text = latest_text (self w) \/
  strip (delta_of w current_text) = [] ->
  console (snd (process_subtitle current_text w)) = console w /\
  store (self (snd (process_subtitle current_text w))) = store (self w) /\
  current_phrase (self (snd (process_subtitle current_text w))) =
    current_phrase (self w) /\
  latest_text (self (snd (process_subtitle current_text w))) =
    latest_text (self w) /\
  last_update_time (self (snd (process_subtitle current_text w))) =
    last_update_time (self w) /\
  phrase_log (self (snd (process_subtitle current_text w))) =
    phrase_log (self w).
Proof.
  intros H.
  destruct (@ProcessFacts.process_subtitle_noop_self w current_text H) as [-> ->].
  repeat split.
Qed.

Lemma unchanged_or_blank_update_is_noop_witness :
  console (snd (process_subtitle (py "Hello there") demo_world2)) =
    console demo_world2 /\
  store (self (snd (process_subtitle (py "Hello there") demo_world2))) =
    store (self demo_world2) /\
  current_phrase (self (snd (process_subtitle (py "Hello there") demo_world2))) =
    current_phrase (self demo_world2) /\
  latest_text (self (snd (process_subtitle (py "Hello there") demo_world2))) =
    latest_text (self demo_world2) /\
  last_update_time (self (snd (process_subtitle (py "Hello there") demo_world2))) =
    last_update_time (self demo_world2) /\
  phrase_log (self (snd (process_subtitle (py "Hello there") demo_world2))) =
    phrase_log (self demo_world2).
Proof.
  apply (@unchanged_or_blank_update_is_noop demo_world2 (py "Hello there")).
  left. vm_compute. reflexivity.
Defined.

(** C8, as stated, fails: on a clock that advances between readings the
    snapshot is stamped with a second reading.  The first update of the
    ticking session reads 11 as its [update_time], which becomes
    [last_update_time], and [_save_to_db] reads 12 for the snapshot. *)
Lemma snapshot_stamped_with_second_reading :
  now_of ticking_world = 11%Q /\
  written_snapshot (self (snd (process_subtitle (py "Hello") ticking_world))) =
    Some (py "Hello", 12%Q) /\
  last_update_time (self (snd (process_subtitle (py "Hello") ticking_world))) =
    11%Q /\
  Qeq_bool 12 11 = false.
Proof. vm_compute. repeat split; reflexivity. Qed.

(** C8, amended.  For an update that is processed (non-blank delta, no
    store call raising), whichever branch runs, [process_subtitle] returns,
    the snapshot written to the store is [current_text] stamped with the
    second clock reading of the call, taken inside [_save_to_db], and the
    in-memory last-update time is the first reading, the [update_time] taken
    after the identical-text check. *)
Theorem snapshot_written_with_own_reading w current_text :
  strip (delta_of w current_text) <> [] ->
  storage_ok w 5 ->
  fst (process_subtitle current_text w) = Ok tt /\
  written_snapshot (self (snd (process_subtitle current_text w))) =
    Some (current_text, clock (oracle w) (S (clock_reads w))) /\
  last_update_time (self (snd (process_subtitle current_text w))) =
    clock (oracle w) (clock_reads w).
Proof.
  intros Hd Hok.
  destruct (@ProcessFacts.processed_update w current_text Hd Hok)
    as (H1 & H2 & H3 & _).
  repeat split; assumption.
Qed.

Lemma snapshot_written_with_own_reading_witness :
  fst (process_subtitle (py "Hello") ticking_world) = Ok tt /\
  written_snapshot (self (snd (process_subtitle (py "Hello") ticking_world))) =
    Some (py "Hello",
          clock (oracle ticking_world) (S (clock_reads ticking_world))) /\
  last_update_time (self (snd (process_subtitle (py "Hello") ticking_world))) =
    clock (oracle ticking_world) (clock_reads ticking_world).
Proof.
  apply (@snapshot_written_with_own_reading ticking_world (py "Hello")).
  - vm_compute. discriminate.
  - intros H. vm_compute in H. discriminate H.
Defined.

(** C9.  With the sqlite store, when the calls before [_save_to_db] pass and
    its [INSERT] or its [commit] raises, the exception leaves
    [process_subtitle], the accumulator keeps the value the call gave it
    (it is not rolled back), and [last_update_time] is not advanced. *)
Theorem snapshot_write_failure_keeps_accumulator w current_text :
  use_sqlite (self w) = true ->
  strip (delta_of w current_text) <> [] ->
  (forall k, k < calls_before_write w ->
             db_fails (oracle w) (db_calls w + k) = false) ->
  db_fails (oracle w) (db_calls w + calls_before_write w) = true \/
  db_fails (oracle w) (db_calls w + calls_before_write w + 1) = true ->
  fst (process_subtitle current_text w) = Raised sqlite3_Error /\
  current_phrase (self (snd (process_subtitle current_text w))) =
    next_phrase w current_text /\
  last_update_time (self (snd (process_subtitle current_text w))) =
    last_update_time (self w).
Proof. apply ProcessFacts.write_failure. Qed.

Lemma snapshot_write_failure_keeps_accumulator_witness :
  fst (process_subtitle (py "Hello") failing_world) = Raised sqlite3_Error /\
  current_phrase (self (snd (process_subtitle (py "Hello") failing_world))) =
    next_phrase failing_world (py "Hello") /\
  last_update_time (self (snd (process_subtitle (py "Hello") failing_world))) =
    last_update_time (self failing_world).
Proof.
  apply (@snapshot_write_failure_keeps_accumulator failing_world (py "Hello")).
  - vm_compute. reflexivity.
  - vm_compute. discriminate.
  - intros k Hk. vm_compute in Hk.
    assert (k = 0) as -> by lia. vm_compute. reflexivity.
  - left. vm_compute. reflexivity.
Defined.

(** C4, as stated, fails.  In the demo session ["Hello"] begins the
    accumulation at 10, ["Hello there"] grows it at 11, and ["Bye now"] at
    14 finalizes ["Hello there"] with start time 11, the time of the update
    just before the boundary, not 10. *)
Lemma phrase_start_is_not_accumulation_start :
  current_phrase (self (snd (run [py "Hello"] demo_world))) = py "Hello" /\
  current_phrase (self demo_world2) = py "Hello there" /\
  finalized accumulation_start [py "Hello"; py "Hello there"; py "Bye now"]
            0 demo_world =
    [(mkPhrase (py "Hello there") 11 14, 10%Q)] /\
  Qeq_bool 11 10 = false.
Proof. vm_compute. repeat split; reflexivity. Qed.

(** C4, amended.  Over every sequence of calls, from every state, calls
    that raise included: each phrase added to the history has as start time
    the in-memory last-update time as the boundary finds it, that is the
    [update_time] of the most recent call that ran to completion (line 266)
    before the boundary, whether that call began the accumulation or only
    continued it, and the initial last-update time (for a new processor,
    the time of its construction) when there is none. *)
Theorem phrase_start_is_last_completed_update updates w :
  phrase_log (self (session updates w)) =
    phrase_log (self w)
    ++ map fst (finalized completed updates (last_update_time (self w)) w) /\
  Forall (fun x => start_time (fst x) = snd x)
         (finalized completed updates (last_update_time (self w)) w) /\
  (forall sqlite disk dbg e,
     w = snd (init sqlite disk dbg e) ->
     last_update_time (self w) = clock e 0).
Proof.
  split; [apply ProcessFacts.finalized_all |].
  split; [apply ProcessFacts.finalized_start_times |].
  intros sqlite disk dbg e ->. unfold init. py_unfold.
  destruct sqlite; destruct dbg; world_fields;
    repeat (break_if; world_fields); reflexivity.
Qed.

(** * Further properties of the code *)

(** ** [find_diff] and [clean_duplicates] *)

(** X1.  The delta never holds text that is not in the new snapshot: the
    result of [find_diff] is [new_text] with some characters left out, in
    their order; so it is no longer than [new_text]. *)
Theorem find_diff_is_subsequence_of_new old_text new_text :
  subseq (find_diff old_text new_text) new_text /\
  length (find_diff old_text new_text) <= length new_text.
Proof.
  split; [apply DeltaFacts.find_diff_subseq |].
  apply MoreStrFacts.subseq_length, DeltaFacts.find_diff_subseq.
Qed.

(** X2.  A text cut at its end brings nothing new: when [new_text] is
    [old_text] without its end, or [old_text] itself, [find_diff] returns
    the empty string (also when difflib's autojunk heuristic purges
    characters of a long [new_text]). *)
Theorem find_diff_of_truncated_text new_text ext :
  find_diff (new_text ++ ext) new_text = [].
Proof. apply EdgeFacts.find_diff_truncated. Qed.

(** X3.  When the non-empty [old_text] and [new_text] have no character in
    common, difflib's longest match is the empty block at index 0 of both,
    which passes the test of line 155: a longer [new_text] loses its first
    [len(old_text)] characters, and only a [new_text] that is not longer is
    returned whole. *)
Theorem find_diff_without_common_character old_text new_text :
  (forall c, In c old_text -> ~ In c new_text) ->
  old_text <> [] ->
  longest_match old_text new_text = Difflib.mkMatch 0 0 0 /\
  find_diff old_text new_text =
    if length old_text <? length new_text
    then skipn (length old_text) new_text
    else new_text.
Proof.
  intros Hdis Hne. split.
  - now apply EdgeFacts.find_longest_match_disjoint.
  - now apply EdgeFacts.find_diff_disjoint.
Qed.

Lemma find_diff_without_common_character_witness :
  longest_match (py "ab") (py "xyz") = Difflib.mkMatch 0 0 0 /\
  find_diff (py "ab") (py "xyz") =
    if length (py "ab") <? length (py "xyz")
    then skipn (length (py "ab")) (py "xyz")
    else py "xyz".
Proof.
  apply (@find_diff_without_common_character (py "ab") (py "xyz")).
  - intros c Hc Hn. vm_compute in Hc, Hn.
    destruct Hc as [<-|[<-|[]]]; destruct Hn as [H|[H|[H|[]]]]; discriminate H.
  - vm_compute. discriminate.
Defined.

(** X4.  [clean_duplicates] only deletes words: the words of its result are
    words of the input, in their order. *)
Theorem clean_duplicates_only_deletes_words t :
  subseq (split (clean_duplicates t)) (split t) /\
  length (split (clean_duplicates t)) <= length (split t).
Proof.
  split; [apply MoreStrFacts.clean_subseq |].
  apply MoreStrFacts.subseq_length, MoreStrFacts.clean_subseq.
Qed.

(** X5.  [clean_duplicates] never erases a whole text and never makes one up:
    its result is blank exactly when the input is. *)
Theorem clean_duplicates_blank_iff t :
  strip (clean_duplicates t) = [] <-> strip t = [].
Proof. apply MoreStrFacts.clean_blank. Qed.

(** X6.  [clean_duplicates] keeps the end of a text: the words of its
    result end with the last three words of the input (a window of three
    words is dropped only when three words or more follow it). *)
Theorem clean_duplicates_keeps_last_three_words t :
  exists pre,
    split (clean_duplicates t) = pre ++ skipn (length (split t) - 3) (split t).
Proof.
  destruct (Nat.leb_spec (length (split t)) 3) as [Hle|Hgt].
  - exists []. rewrite StrFacts.clean_duplicates_scan.
    replace (length (split t) <=? 3) with true by (symmetry; now apply Nat.leb_le).
    now replace (length (split t) - 3) with 0 by lia.
  - rewrite StrFacts.split_clean_long by exact Hgt.
    apply TailFacts.scan_tail, StrFacts.split_tokens.
Qed.

(** X7.  A text of at most five words loses none: [clean_duplicates]
    returns it verbatim (up to three words) or with its words joined by
    single spaces (four or five words). *)
Theorem clean_duplicates_keeps_short_texts t :
  length (split t) <= 5 ->
  split (clean_duplicates t) = split t /\
  clean_duplicates t =
    if length (split t) <=? 3 then t else join [space] (split t).
Proof.
  intros H.
  assert (E : clean_duplicates t =
              if length (split t) <=? 3 then t else join [space] (split t)).
  { rewrite StrFacts.clean_duplicates_scan.
    now rewrite (@TailFacts.scan_few _ (StrFacts.split_tokens t) H). }
  split; [|exact E]. rewrite E.
  destruct (length (split t) <=? 3); [reflexivity |].
  apply StrFacts.split_join_split.
Qed.

Lemma clean_duplicates_keeps_short_texts_witness :
  split (clean_duplicates (py "a b c  a b")) = split (py "a b c  a b") /\
  clean_duplicates (py "a b c  a b") =
    if length (split (py "a b c  a b")) <=? 3 then py "a b c  a b"
    else join [space] (split (py "a b c  a b")).
Proof.
  apply (@clean_duplicates_keeps_short_texts (py "a b c  a b")).
  vm_compute. lia.
Defined.

(** ** [process_subtitle] and the stores *)

(** X8.  The phrase history is append-only, whatever the outcome of the call
    (early return, exception or full run): one call of [process_subtitle]
    adds at most one phrase, whose text is the accumulator as it was before
    the call and is not empty, whose start is the last-update time before
    the call and whose end, the time of the call, comes 2 seconds or more
    after its start. *)
Theorem phrase_history_only_grows w current_text :
  exists fresh,
    phrase_log (self (snd (process_subtitle current_text w))) =
      phrase_log (self w) ++ fresh /\
    length fresh <= 1 /\
    Forall (fun ph =>
              text ph = current_phrase (self w) /\
              text ph <> [] /\
              start_time ph = last_update_time (self w) /\
              end_time ph = now_of w /\
              (start_time ph + 2 <= end_time ph)%Q)
           fresh.
Proof.
  destruct (SessionFacts.one_call w current_text) as [[H|H] _].
  - exists []. rewrite app_nil_r. split; [exact H |]. split; [cbn; lia | constructor].
  - exists (fresh_phrases w current_text). split; [exact H |].
    apply SessionFacts.fresh_phrases_spec.
Qed.

(** X9.  The [subtitles] table is append-only and the processor never
    changes its backend or its debug flag: one call of [process_subtitle],
    whatever its outcome, adds at most one row, which holds [current_text]
    and the clock reading that follows the call's [update_time]; rows are
    never rewritten or deleted. *)
Theorem snapshot_table_only_grows w current_text :
  (exists fresh,
     snapshot_rows (self (snd (process_subtitle current_text w))) =
       snapshot_rows (self w) ++ fresh /\
     length fresh <= 1 /\
     Forall (fun r =>
               sub_full_text r = current_text /\
               sub_timestamp r = clock (oracle w) (S (clock_reads w)))
            fresh) /\
  use_sqlite (self (snd (process_subtitle current_text w))) =
    use_sqlite (self w) /\
  debug (self (snd (process_subtitle current_text w))) = debug (self w).
Proof.
  destruct (SessionFacts.one_call_rows w current_text) as [[H|[_ H]] [H1 H2]];
    (split; [|now split]).
  - exists []. rewrite app_nil_r. split; [exact H |]. split; [cbn; lia | constructor].
  - eexists. split; [exact H |]. split; [cbn; lia |].
    constructor; [|constructor]. now cbn.
Qed.

(** X10.  Over a whole session (which an exception may cut short): when the
    accumulator starts empty or with more than whitespace in it and every
    phrase of the history has a non-blank text and an end 2 seconds or more
    after its start, the same holds after the session.  So a processor that
    starts with an empty history never records a blank phrase. *)
Theorem session_keeps_phrases_sound updates w :
  accumulator_ok (self w) ->
  Forall phrase_ok (phrase_log (self w)) ->
  accumulator_ok (self (snd (run updates w))) /\
  Forall phrase_ok (phrase_log (self (snd (run updates w)))).
Proof. apply SessionFacts.session_invariant. Qed.

Lemma session_keeps_phrases_sound_witness :
  accumulator_ok
    (self (snd (run [py "Hello"; py "Hello there"; py "Bye now"] demo_world))) /\
  Forall phrase_ok
    (phrase_log
       (self (snd (run [py "Hello"; py "Hello there"; py "Bye now"] demo_world)))).
Proof.
  apply (@session_keeps_phrases_sound
           [py "Hello"; py "Hello there"; py "Bye now"] demo_world).
  - left. vm_compute. reflexivity.
  - vm_compute. constructor.
Defined.

(** X11.  With an empty accumulator, an update with a non-blank delta makes
    the delta the accumulator and finalizes nothing, however long after the
    previous update it comes (only the [SELECT] is asked not to raise); on
    an empty store the delta is [clean_duplicates(current_text)]. *)
Theorem empty_accumulator_takes_delta w current_text :
  current_phrase (self w) = [] ->
  strip (delta_of w current_text) <> [] ->
  storage_ok w 1 ->
  current_phrase (self (snd (process_subtitle current_text w))) =
    delta_of w current_text /\
  phrase_log (self (snd (process_subtitle current_text w))) =
    phrase_log (self w) /\
  (latest_text (self w) = [] ->
   delta_of w current_text = clean_duplicates current_text).
Proof.
  intros Hcp Hd Hok.
  assert (H : current_phrase (self (snd (process_subtitle current_text w))) =
              delta_of w current_text /\
              phrase_log (self (snd (process_subtitle current_text w))) =
              phrase_log (self w)).
  { destruct (Qlt_bool (elapsed_of w) 2) eqn:Hq.
    - destruct (@BranchFacts.continuation_branch w current_text Hd Hq Hok)
        as (H1 & H2 & _).
      split; [|exact H2]. rewrite H1. unfold next_phrase. now rewrite Hq, Hcp.
    - exact (@BranchFacts.boundary_seed w current_text Hd Hq Hcp Hok). }
  destruct H as [H1 H2]. repeat split; [exact H1 | exact H2 |].
  intros E. unfold delta_of. now rewrite E.
Qed.

Lemma empty_accumulator_takes_delta_witness :
  current_phrase (self (snd (process_subtitle (py "Hello") demo_world))) =
    delta_of demo_world (py "Hello") /\
  phrase_log (self (snd (process_subtitle (py "Hello") demo_world))) =
    phrase_log (self demo_world) /\
  (latest_text (self demo_world) = [] ->
   delta_of demo_world (py "Hello") = clean_duplicates (py "Hello")).
Proof.
  apply (@empty_accumulator_takes_delta demo_world (py "Hello")).
  - vm_compute. reflexivity.
  - vm_compute. discriminate.
  - intros H. vm_compute in H. discriminate H.
Defined.

(** X12.  An update with a non-blank delta that comes less than 2 seconds
    after the previous one, while a phrase is in progress, finalizes
    nothing: the delta is appended to the accumulator, with no separator,
    when the accumulator occurs in [current_text], the accumulator becomes
    [current_text] otherwise, and the console gets the debug line (when
    enabled) followed by a carriage return and the accumulator with no line
    end. *)
Theorem quick_update_continues_phrase w current_text :
  current_phrase (self w) <> [] ->
  strip (delta_of w current_text) <> [] ->
  (elapsed_of w < 2)%Q ->
  storage_ok w 1 ->
  let acc :=
    if contains (current_phrase (self w)) current_text
    then current_phrase (self w) ++ delta_of w current_text
    else current_text in
  current_phrase (self (snd (process_subtitle current_text w))) = acc /\
  phrase_log (self (snd (process_subtitle current_text w))) =
    phrase_log (self w) /\
  console (snd (process_subtitle current_text w)) =
    console w
    ++ debug_lines w (DebugLine success
                        (DetectedChange (elapsed_of w) (delta_of w current_text)))
    ++ [Printed ([13%N] ++ acc) []].
Proof.
  intros Hcp Hd Hlt Hok. apply SessionFacts.Qlt_bool_lt in Hlt.
  apply ProcessFacts.truthy_true in Hcp.
  pose proof (@BranchFacts.continuation_branch w current_text Hd Hlt Hok) as H.
  unfold next_phrase in H. rewrite Hlt, Hcp in H. exact H.
Qed.

Lemma quick_update_continues_phrase_witness :
  let acc :=
    if contains (current_phrase (self demo_world1)) (py "Hello there")
    then current_phrase (self demo_world1) ++ delta_of demo_world1 (py "Hello there")
    else py "Hello there" in
  current_phrase (self (snd (process_subtitle (py "Hello there") demo_world1))) = acc /\
  phrase_log (self (snd (process_subtitle (py "Hello there") demo_world1))) =
    phrase_log (self demo_world1) /\
  console (snd (process_subtitle (py "Hello there") demo_world1)) =
    console demo_world1
    ++ debug_lines demo_world1
         (DebugLine success
            (DetectedChange (elapsed_of demo_world1)
               (delta_of demo_world1 (py "Hello there"))))
    ++ [Printed ([13%N] ++ acc) []].
Proof.
  apply (@quick_update_continues_phrase demo_world1 (py "Hello there")).
  - vm_compute. discriminate.
  - vm_compute. discriminate.
  - vm_compute. reflexivity.
  - intros H. vm_compute in H. discriminate H.
Defined.

(** X13.  Write and read back: after a processed update whose store calls
    succeed, [_get_latest_text] gives [current_text], provided (sqlite) the
    snapshot's timestamp is later than those of all the rows of the table;
    so handing the same snapshot again changes neither the processor nor
    the console. *)
Theorem written_snapshot_is_read_back w current_text :
  strip (delta_of w current_text) <> [] ->
  storage_ok w 5 ->
  Forall (fun r => (sub_timestamp r < clock (oracle w) (S (clock_reads w)))%Q)
         (snapshot_rows (self w)) ->
  let w' := snd (process_subtitle current_text w) in
  latest_text (self w') = current_text /\
  self (snd (process_subtitle current_text w')) = self w' /\
  console (snd (process_subtitle current_text w')) = console w'.
Proof.
  intros Hd Hok Hnew w'.
  pose proof (@StoreFacts.read_back w current_text Hd Hok Hnew) as H.
  fold w' in H. split; [exact H |].
  apply ProcessFacts.process_subtitle_noop_self. left. now rewrite H.
Qed.

Lemma written_snapshot_is_read_back_witness :
  let w' := snd (process_subtitle (py "Hello there") sqlite_world) in
  latest_text (self w') = py "Hello there" /\
  self (snd (process_subtitle (py "Hello there") w')) = self w' /\
  console (snd (process_subtitle (py "Hello there") w')) = console w'.
Proof.
  apply (@written_snapshot_is_read_back sqlite_world (py "Hello there")).
  - vm_compute. discriminate.
  - intros _ k _. reflexivity.
  - vm_compute. constructor; [reflexivity | constructor].
Defined.

(** X14.  The read goes by timestamp, not by insertion: when the table holds
    a row stamped later than the snapshot being written (a clock set back,
    a database from another machine), the written snapshot is not the one
    read back, [_get_latest_text] still gives the old text, and the same
    snapshot handed again is not recognized as unchanged: it has the same
    non-blank delta as before. *)
Theorem later_row_hides_written_snapshot w current_text :
  strip (delta_of w current_text) <> [] ->
  storage_ok w 5 ->
  Exists (fun r => (clock (oracle w) (S (clock_reads w)) < sub_timestamp r)%Q)
         (snapshot_rows (self w)) ->
  let w' := snd (process_subtitle current_text w) in
  written_snapshot (self w') =
    Some (current_text, clock (oracle w) (S (clock_reads w))) /\
  latest_text (self w') = latest_text (self w) /\
  Str.eqb current_text (latest_text (self w')) = false /\
  delta_of w' current_text = delta_of w current_text.
Proof.
  intros Hd Hok Hold w'.
  pose proof (@StoreFacts.stale_read w current_text Hd Hok Hold) as H.
  fold w' in H.
  destruct (@ProcessFacts.processed_update w current_text Hd Hok) as (_ & Hw & _).
  split; [exact Hw |]. split; [exact H |]. split.
  - rewrite H. now apply ProcessFacts.delta_needs_change.
  - unfold delta_of. now rewrite H.
Qed.

Lemma later_row_hides_written_snapshot_witness :
  let w' := snd (process_subtitle (py "Hello there") reopened_world) in
  written_snapshot (self w') =
    Some (py "Hello there",
          clock (oracle reopened_world) (S (clock_reads reopened_world))) /\
  latest_text (self w') = latest_text (self reopened_world) /\
  Str.eqb (py "Hello there") (latest_text (self w')) = false /\
  delta_of w' (py "Hello there") = delta_of reopened_world (py "Hello there").
Proof.
  apply (@later_row_hides_written_snapshot reopened_world (py "Hello there")).
  - vm_compute. discriminate.
  - intros _ k _. reflexivity.
  - vm_compute. constructor. reflexivity.
Defined.

(** X15.  When the [INSERT] of a finalized phrase, or its [commit], raises,
    the exception leaves [process_subtitle] before the accumulator is
    reset: the accumulator still holds the phrase, the last-update time and
    the [subtitles] table are as before, the console has the debug line
    (when enabled) and the blank line; when it is the [INSERT] that raises,
    the processor is wholly as before the call. *)
Theorem phrase_write_failure_keeps_phrase w current_text :
  use_sqlite (self w) = true ->
  strip (delta_of w current_text) <> [] ->
  (2 <= elapsed_of w)%Q ->
  current_phrase (self w) <> [] ->
  db_fails (oracle w) (db_calls w) = false ->
  db_fails (oracle w) (db_calls w + 1) = true \/
  db_fails (oracle w) (db_calls w + 2) = true ->
  fst (process_subtitle current_text w) = Raised sqlite3_Error /\
  current_phrase (self (snd (process_subtitle current_text w))) =
    current_phrase (self w) /\
  last_update_time (self (snd (process_subtitle current_text w))) =
    last_update_time (self w) /\
  snapshot_rows (self (snd (process_subtitle current_text w))) =
    snapshot_rows (self w) /\
  console (snd (process_subtitle current_text w)) =
    console w
    ++ debug_lines w (DebugLine warning
                        (DetectedChange (elapsed_of w) (delta_of w current_text)))
    ++ [Printed newline newline] /\
  (db_fails (oracle w) (db_calls w + 1) = true ->
   self (snd (process_subtitle current_text w)) = self w).
Proof.
  intros Hs Hd Hge Hcp F0 Hfail.
  apply (@BranchFacts.phrase_failure w current_text Hs Hd); try assumption.
  unfold Qlt_bool. apply negb_false_iff. now apply Qle_bool_iff.
Qed.

Lemma phrase_write_failure_keeps_phrase_witness :
  fst (process_subtitle (py "Bye now") phrase_failing_world) =
    Raised sqlite3_Error /\
  current_phrase (self (snd (process_subtitle (py "Bye now") phrase_failing_world))) =
    current_phrase (self phrase_failing_world) /\
  last_update_time (self (snd (process_subtitle (py "Bye now") phrase_failing_world))) =
    last_update_time (self phrase_failing_world) /\
  snapshot_rows (self (snd (process_subtitle (py "Bye now") phrase_failing_world))) =
    snapshot_rows (self phrase_failing_world) /\
  console (snd (process_subtitle (py "Bye now") phrase_failing_world)) =
    console phrase_failing_world
    ++ debug_lines phrase_failing_world
         (DebugLine warning
            (DetectedChange (elapsed_of phrase_failing_world)
               (delta_of phrase_failing_world (py "Bye now"))))
    ++ [Printed newline newline] /\
  (db_fails (oracle phrase_failing_world) (db_calls phrase_failing_world + 1) = true ->
   self (snd (process_subtitle (py "Bye now") phrase_failing_world)) =
   self phrase_failing_world).
Proof.
  apply (@phrase_write_failure_keeps_phrase phrase_failing_world (py "Bye now")).
  - reflexivity.
  - vm_compute. discriminate.
  - vm_compute. discriminate.
  - vm_compute. discriminate.
  - reflexivity.
  - left. reflexivity.
Defined.

(** X16.  A snapshot that is the stored text cut at its end is ignored:
    [process_subtitle] changes neither the processor nor the console, and
    the store keeps the longer text, against which the next snapshot is
    compared. *)
Theorem truncated_snapshot_is_ignored w current_text ext :
  latest_text (self w) = current_text ++ ext ->
  self (snd (process_subtitle current_text w)) = self w /\
  console (snd (process_subtitle current_text w)) = console w /\
  latest_text (self (snd (process_subtitle current_text w))) =
    current_text ++ ext.
Proof.
  intros H.
  destruct (@ProcessFacts.process_subtitle_noop_self w current_text) as [H1 H2].
  - right. unfold delta_of. rewrite H, EdgeFacts.find_diff_truncated. reflexivity.
  - repeat split; [exact H1 | exact H2 |]. now rewrite H1.
Qed.

Lemma truncated_snapshot_is_ignored_witness :
  self (snd (process_subtitle (py "Hell") demo_world1)) = self demo_world1 /\
  console (snd (process_subtitle (py "Hell") demo_world1)) = console demo_world1 /\
  latest_text (self (snd (process_subtitle (py "Hell") demo_world1))) =
    py "Hell" ++ py "o".
Proof.
  apply (@truncated_snapshot_is_ignored demo_world1 (py "Hell") (py "o")).
  vm_compute. reflexivity.
Defined.
